(** * The messaging core of the RabbitMQ demonstration services

    A shallow embedding of the shared messaging code:
    - [RabbitMQConnection] (shared/src/messaging/connection.ts): [publish],
      the delivery context built by [consume], [handleMessageWithRetry], [rpc];
    - [CircuitBreaker], [MessageProcessor] and [SagaOrchestrator]
      (the advanced processing module next to it).

    Asynchronous functions are state-passing functions that end in a resolved
    or a rejected promise; the objects they mutate (the channel, a breaker,
    the saga map, the idempotency cache) are explicit state. *)

From Stdlib Require Import ZArith Lia.
From stdpp Require Import gmap strings list fin_maps pretty.

Local Open Scope string_scope.
Local Open Scope list_scope.
Local Open Scope Z_scope.

(** ** Errors (shared/src/errors) *)

Inductive Error : Type :=
| MessagingError (message : string)
| CircuitBreakerError (serviceName : string)
| TimeoutError (operation : string) (timeout : Z)
| RetryExhaustedError (operation : string) (attempts : Z)
| OperationTimedOut (timeout : Z)      (* new Error(`Operation timed out after ${timeout}ms`) *)
| TypeError (message : string)         (* a method call on null, [new] on undefined *)
| ApplicationError (message : string). (* whatever a handler or an operation throws *)

(** [error.message], as the constructors of the error classes build it. *)
Definition message_of (e : Error) : string :=
  match e with
  | MessagingError m => m
  | CircuitBreakerError s => "Circuit breaker is open for service: " +:+ s
  | TimeoutError op t =>
      "Operation '" +:+ op +:+ "' timed out after " +:+ pretty t +:+ "ms"
  | RetryExhaustedError op n =>
      "Retry exhausted for operation '" +:+ op +:+ "' after " +:+ pretty n +:+ " attempts"
  | OperationTimedOut t => "Operation timed out after " +:+ pretty t +:+ "ms"
  | TypeError m => m
  | ApplicationError m => m
  end.

(** ** Promises of asynchronous functions *)

Inductive Outcome (A : Type) : Type :=
| Resolved (a : A)
| Rejected (e : Error).
Arguments Resolved {A} a.
Arguments Rejected {A} e.

(** An asynchronous function over the mutable state [S]. *)
Definition M (S A : Type) : Type := S -> Outcome A * S.

Definition ret {S A} (a : A) : M S A := fun s => (Resolved a, s).

Definition throw {S A} (e : Error) : M S A := fun s => (Rejected e, s).

Definition bind {S A B} (m : M S A) (k : A -> M S B) : M S B :=
  fun s =>
    match m s with
    | (Resolved a, s') => k a s'
    | (Rejected e, s') => (Rejected e, s')
    end.

(** [try { body } catch (error) { handler }]: what the body did to the state
    before it threw stays done. *)
Definition try_catch {S A} (body : M S A) (handler : Error -> M S A) : M S A :=
  fun s =>
    match body s with
    | (Resolved a, s') => (Resolved a, s')
    | (Rejected e, s') => handler e s'
    end.

Definition get {S} : M S S := fun s => (Resolved s, s).

Definition modify {S} (f : S -> S) : M S unit := fun s => (Resolved tt, f s).

(** Run a computation on the second component of a pair of states: a method
    of an object with fields [S1] that calls into the world [S2]. *)
Definition on_world {S1 S2 A} (m : M S2 A) : M (S1 * S2) A :=
  fun s =>
    match m (snd s) with
    | (r, w') => (r, (fst s, w'))
    end.

Definition on_self {S1 S2 A} (m : M S1 A) : M (S1 * S2) A :=
  fun s =>
    match m (fst s) with
    | (r, o') => (r, (o', snd s))
    end.

Declare Scope async_scope.
Delimit Scope async_scope with async.
Notation "'await' x <- m 'in' k" := (bind m (fun x => k))
  (at level 10, x name, m at level 100, k at level 200,
   format "'[v' 'await'  x  <-  m  'in' '/' k ']'") : async_scope.
Notation "m >>> k" := (bind m (fun _ => k))
  (at level 90, right associativity) : async_scope.
Local Open Scope async_scope.

(** [for (const x of xs) { await body(x) }] *)
Fixpoint for_of {S A} (xs : list A) (body : A -> M S unit) : M S unit :=
  match xs with
  | [] => ret tt
  | x :: xs' => body x >>> for_of xs' body
  end.

(** ** Headers and message properties *)

(** A header value: the code writes numbers (timestamp, retryCount,
    maxRetries, x-delay), text (errorMessage, originalQueue) and [undefined]
    (originalQueue of a delivery without replyTo). *)
Inductive HeaderValue : Type :=
| HNum (n : Z)
| HStr (s : string)
| HUndefined.

#[global] Instance HeaderValue_eq_dec : EqDecision HeaderValue.
Proof. solve_decision. Defined.

Abbreviation Headers := (gmap string HeaderValue).

(** [x || d] on a number that may be missing: [undefined] and [0] are falsy. *)
Definition or_default (x : option Z) (d : Z) : Z :=
  match x with
  | Some n => if n =? 0 then d else n
  | None => d
  end.

(** [headers.retryCount || 0], for a counter that is missing or a number.
    [publish] writes [retryCount: 0] and the retry paths write
    [retryCount + 1], so the counters the code itself writes are natural
    numbers. A header that holds text is outside this model: the source
    keeps a text that is not empty and takes it through [<], [Math.pow] and
    [+ 1] as text, while [0] is what is read here. The statements that
    depend on the counter carry [retry_in_range] below, which leaves such
    headers out. *)
Definition retryCount_of (headers : Headers) : Z :=
  match headers !! "retryCount" with
  | Some (HNum n) => n
  | _ => 0
  end.

(** [Number.isSafeInteger]: where operands and result are such numbers,
    JavaScript's sums, products and comparisons are those of the integers. *)
Definition safe_integer (x : Z) : Prop := Z.abs x <= 2 ^ 53 - 1.

(** The counter of a delivery is missing or a natural number. *)
Definition natural_counter (headers : Headers) : Prop :=
  match headers !! "retryCount" with
  | None => True
  | Some (HNum n) => 0 <= n
  | Some _ => False
  end.

(** The deliveries on which the arithmetic of the retry paths is the integer
    arithmetic written in this model: the counter is missing or a natural
    number, so that [Math.pow(2, retryCount)] is the integer power (at a
    negative counter it is a fraction); [maxRetries] is a safe integer, so
    that [retryCount + 1] below it is exact; and the delay of the retry, if
    one is due, is a safe integer. *)
Definition retry_in_range (headers : Headers) (maxRetries baseDelay : Z) : Prop :=
  natural_counter headers
  /\ safe_integer maxRetries
  /\ (retryCount_of headers < maxRetries ->
      safe_integer (baseDelay * 2 ^ retryCount_of headers)).

Definition header_of_option (s : option string) : HeaderValue :=
  match s with
  | Some q => HStr q
  | None => HUndefined
  end.

(** ** The connection *)

Section Connection.

(** [P] is the type of message bodies ([JSON.stringify] and [JSON.parse]
    are taken as inverse of each other on them); [A] is whatever state the
    application code reached through handlers and operations keeps. *)
Context {P A : Type}.

Record PublishOptions : Type := {
  opt_priority : option Z;
  opt_expiration : option string;
  opt_correlationId : option string;
  opt_replyTo : option string;
  opt_headers : option Headers;
  opt_persistent : option bool;
  opt_delay : option Z;
  opt_maxRetries : option Z;
}.

(** [options: PublishOptions = {}] *)
Definition no_options : PublishOptions :=
  {| opt_priority := None; opt_expiration := None; opt_correlationId := None;
     opt_replyTo := None; opt_headers := None; opt_persistent := None;
     opt_delay := None; opt_maxRetries := None |}.

(** What [channel.publish] is called with. *)
Record Frame : Type := {
  exchange : string;
  routingKey : string;
  content : P;
  persistent : bool;
  priority : option Z;
  expiration : option string;
  correlationId : option string;
  replyTo : option string;
  headers : Headers;
}.

(** What the channel was asked to do, oldest first. *)
Inductive ChannelOp : Type :=
| Published (f : Frame)
| Acked (deliveryTag : nat)
| Nacked (deliveryTag : nat) (requeue : bool)
| RejectedDelivery (deliveryTag : nat) (requeue : bool).

(** The part of the process the messaging code acts on.
    [channel] is [0] when [this.channel] is [null]; otherwise it is the
    number of awaited publishes the channel still serves before a close
    event sets it to [null] ([handleChannelClose], which the event loop can
    run whenever a caller is suspended in an [await]). [clock] is what
    [Date.now()] returns. *)
Record World : Type := {
  clock : Z;
  channel : nat;
  wire : list ChannelOp;
  app : A;
}.

Definition send (op : ChannelOp) (w : World) : World :=
  {| clock := clock w; channel := channel w; wire := wire w ++ [op]; app := app w |}.

Definition use_channel (w : World) : World :=
  {| clock := clock w; channel := Nat.pred (channel w); wire := wire w; app := app w |}.

(** [RabbitMQConnection.publish]. The only failure modelled is the missing
    channel; [channel.publish] itself is taken not to throw, and its boolean
    result (the write buffer has room) as [true], which no caller reads. *)
Definition publish (exchange routingKey : string) (message : P)
    (options : PublishOptions) : M World bool :=
  fun w =>
    match channel w with
    | O => (Rejected (MessagingError "No active channel available"), w)
    | S _ =>
        let headers0 : Headers :=
          default ∅ (opt_headers options) ∪
          <["timestamp" := HNum (clock w)]>
            (<["retryCount" := HNum 0]>
               (<["maxRetries" := HNum (or_default (opt_maxRetries options) 3)]> ∅)) in
        let delayed := negb (or_default (opt_delay options) 0 =? 0) in
        let frame :=
          {| exchange := if delayed then "delayed" else exchange;
             routingKey := routingKey;
             content := message;
             persistent := negb (bool_decide (opt_persistent options = Some false));
             priority := opt_priority options;
             expiration := opt_expiration options;
             correlationId := opt_correlationId options;
             replyTo := opt_replyTo options;
             headers :=
               if delayed
               then <["x-delay" := HNum (or_default (opt_delay options) 0)]> headers0
               else headers0 |} in
        (Resolved true, use_channel (send (Published frame) w))
    end.

(** The delivery context [consume] hands to a handler. The three closures
    of the source act on the delivery they were built for; here they are the
    functions [ack], [nack] and [reject] below, applied to the context. *)
Record MessageContext : Type := {
  ctx_deliveryTag : nat;
  ctx_correlationId : option string;
  ctx_replyTo : option string;
  ctx_headers : Headers;
  ctx_properties_replyTo : option string;
}.

Definition channel_call (op : ChannelOp) : M World unit :=
  fun w =>
    match channel w with
    | O => (Rejected (TypeError "Cannot read properties of null"), w)
    | S _ => (Resolved tt, send op w)
    end.

(** [ack: () => this.channel!.ack(msg)] *)
Definition ack (context : MessageContext) : M World unit :=
  channel_call (Acked (ctx_deliveryTag context)).

(** [nack: (requeue = true) => this.channel!.nack(msg, false, requeue)] *)
Definition nack (context : MessageContext) (requeue : option bool) : M World unit :=
  channel_call (Nacked (ctx_deliveryTag context) (default true requeue)).

(** [reject: (requeue = false) => this.channel!.reject(msg, requeue)] *)
Definition reject (context : MessageContext) (requeue : option bool) : M World unit :=
  channel_call (RejectedDelivery (ctx_deliveryTag context) (default false requeue)).

Definition MessageHandler : Type := P -> MessageContext -> M World unit.

End Connection.

Arguments PublishOptions : clear implicits.
Arguments Frame : clear implicits.
Arguments ChannelOp : clear implicits.
Arguments World : clear implicits.
Arguments MessageHandler : clear implicits.

(** ** Reading a run *)

Definition discard {S A} (m : M S A) : M S unit := bind m (fun _ => ret tt).

(** ** SagaOrchestrator *)

(** [steps.indexOf(step)]; [None] is the source's [-1]. *)
Fixpoint indexOf (step : string) (steps : list string) : option nat :=
  match steps with
  | [] => None
  | s :: rest => if decide (s = step) then Some O else S <$> indexOf step rest
  end.

Section Saga.

(** [D] stands for the values the orchestrator only passes on: the initial
    data, step results and errors. *)
Context {D A : Type}.

(** The bodies the orchestrator publishes on the [saga] exchange. *)
Inductive SagaMessage : Type :=
| StepMessage (sagaId : string) (step : option string) (data : D)
    (remainingSteps : list string)                 (* saga.start, saga.continue *)
| CompletedMessage (sagaId : string) (result : D)  (* saga.completed *)
| CompensateMessage (sagaId step : string) (error : D)       (* saga.compensate *)
| FailedMessage (sagaId failedStep : string) (error : D).    (* saga.failed *)

(** [activeSteps: Map<string, string[]>] and the connection. *)
Abbreviation Orchestrator := (gmap string (list string) * World SagaMessage A)%type.

Definition startSaga (sagaId : string) (steps : list string) (initialData : D)
    : M Orchestrator unit :=
  on_self (modify (<[sagaId := steps]>)) >>>
  discard (on_world (publish "saga" "saga.start"
    (StepMessage sagaId (head steps) initialData (drop 1 steps)) no_options)).

Definition handleStepComplete (sagaId completedStep : string) (result : D)
    : M Orchestrator unit :=
  await self <- get in
  match fst self !! sagaId with
  | None => ret tt
  | Some steps =>
      match indexOf completedStep steps with
      | None => ret tt
      | Some stepIndex =>
          let remainingSteps := drop (S stepIndex) steps in
          match remainingSteps with
          | [] =>
              on_self (modify (delete sagaId)) >>>
              discard (on_world (publish "saga" "saga.completed"
                (CompletedMessage sagaId result) no_options))
          | nextStep :: _ =>
              discard (on_world (publish "saga" "saga.continue"
                (StepMessage sagaId (Some nextStep) result (drop 1 remainingSteps))
                no_options))
          end
      end
  end.

Definition handleStepFailed (sagaId failedStep : string) (error : D)
    : M Orchestrator unit :=
  await self <- get in
  match fst self !! sagaId with
  | None => ret tt
  | Some steps =>
      match indexOf failedStep steps with
      | None => ret tt
      | Some stepIndex =>
          let completedSteps := rev (take stepIndex steps) in
          for_of completedSteps (fun step =>
            discard (on_world (publish "saga" "saga.compensate"
              (CompensateMessage sagaId step error) no_options))) >>>
          on_self (modify (delete sagaId)) >>>
          discard (on_world (publish "saga" "saga.failed"
            (FailedMessage sagaId failedStep error) no_options))
      end
  end.

(** [getSagaStatus]: [None] is the source's [null]. *)
Definition getSagaStatus (sagaId : string) (self : Orchestrator)
    : option (list string * bool) :=
  match fst self !! sagaId with
  | None => None
  | Some steps => Some (steps, true)
  end.

(** [getAllActiveSagas] *)
Definition getAllActiveSagas (self : Orchestrator) : gmap string (list string) :=
  fst self.

End Saga.

Arguments SagaMessage : clear implicits.

(** ** CircuitBreaker *)

Inductive CircuitBreakerState : Type := CLOSED | OPEN | HALF_OPEN.

#[global] Instance CircuitBreakerState_eq_dec : EqDecision CircuitBreakerState.
Proof. solve_decision. Defined.

(** [Required<CircuitBreakerConfig>]; the times are milliseconds. *)
Record CircuitBreakerConfig : Type := {
  failureThreshold : Z;
  timeout : Z;
  resetTimeout : Z;
  monitoringPeriod : Z;
}.

(** The configuration a caller passes: any field may be left out. *)
Record CircuitBreakerOptions : Type := {
  given_failureThreshold : option Z;
  given_timeout : option Z;
  given_resetTimeout : option Z;
  given_monitoringPeriod : option Z;
}.

Record CircuitBreaker : Type := {
  serviceName : string;
  state : CircuitBreakerState;
  failures : Z;
  lastFailureTime : Z;
  config : CircuitBreakerConfig;
}.

(** The constructor: the defaults, overridden by the fields given. *)
Definition new_CircuitBreaker (serviceName : string) (given : CircuitBreakerOptions)
    : CircuitBreaker :=
  {| serviceName := serviceName;
     state := CLOSED;
     failures := 0;
     lastFailureTime := 0;
     config :=
       {| failureThreshold := default 5 (given_failureThreshold given);
          timeout := default 60000 (given_timeout given);
          resetTimeout := default 30000 (given_resetTimeout given);
          monitoringPeriod := default 10000 (given_monitoringPeriod given) |} |}.

Definition set_state (s : CircuitBreakerState) (self : CircuitBreaker) : CircuitBreaker :=
  {| serviceName := serviceName self; state := s; failures := failures self;
     lastFailureTime := lastFailureTime self; config := config self |}.

Definition set_failures (n : Z) (self : CircuitBreaker) : CircuitBreaker :=
  {| serviceName := serviceName self; state := state self; failures := n;
     lastFailureTime := lastFailureTime self; config := config self |}.

Definition set_lastFailureTime (t : Z) (self : CircuitBreaker) : CircuitBreaker :=
  {| serviceName := serviceName self; state := state self; failures := failures self;
     lastFailureTime := t; config := config self |}.

(** [onSuccess] *)
Definition onSuccess (self : CircuitBreaker) : CircuitBreaker :=
  let self := set_failures 0 self in
  if decide (state self = HALF_OPEN) then set_state CLOSED self else self.

(** [onFailure]; [now] is the [Date.now()] it reads. *)
Definition onFailure (now : Z) (self : CircuitBreaker) : CircuitBreaker :=
  let self := set_failures (failures self + 1) self in
  let self := set_lastFailureTime now self in
  if failureThreshold (config self) <=? failures self then set_state OPEN self else self.

(** What [Promise.race] sees of the operation: how it settled if it did so
    before the timer of [createTimeoutPromise], or that it was still pending
    when the timer fired. *)
Inductive Settled (T : Type) : Type :=
| Fulfilled (value : T)
| Threw (error : Error)
| StillPending.
Arguments Fulfilled {T} value.
Arguments Threw {T} error.
Arguments StillPending {T}.

Section Breaker.

Context {P A T : Type}.

(** [operation: () => Promise<T>]. Calling it changes the world (at least
    the clock); the world it returns is the one at the moment the race is
    decided. *)
Definition Operation : Type := World P A -> Settled T * World P A.

(** [Promise.race([operation(), this.createTimeoutPromise()])] *)
Definition race (operation : Operation) (timeout : Z) : M (World P A) T :=
  fun w =>
    match operation w with
    | (Fulfilled value, w') => (Resolved value, w')
    | (Threw error, w') => (Rejected error, w')
    | (StillPending, w') => (Rejected (OperationTimedOut timeout), w')
    end.

(** The first statement of [execute]: the check made while [OPEN].
    [throw new CircuitBreakerError(this.serviceName)] does not throw the
    breaker-open error: the module imports [CircuitBreakerError] from
    [../types], which exports no such name (the class is in the errors
    module, next to [MessagingError]), so the compiled import is [undefined]
    and [new] fails with a [TypeError]. *)
Definition open_check : M (CircuitBreaker * World P A) unit :=
  await s <- get in
  let self := fst s in
  let now := clock (snd s) in
  if decide (state self = OPEN) then
    if resetTimeout (config self) <? now - lastFailureTime self
    then on_self (modify (set_state HALF_OPEN))
    else throw (TypeError "types_1.CircuitBreakerError is not a constructor")
  else ret tt.

(** The [try] ... [catch] of [execute]. *)
Definition attempt (operation : Operation) : M (CircuitBreaker * World P A) T :=
  try_catch
    (await s <- get in
     await result <- on_world (race operation (timeout (config (fst s)))) in
     on_self (modify onSuccess) >>>
     ret result)
    (fun error =>
       (await s <- get in on_self (modify (onFailure (clock (snd s))))) >>>
       throw error).

(** [CircuitBreaker.execute] *)
Definition execute (operation : Operation) : M (CircuitBreaker * World P A) T :=
  open_check >>> attempt operation.

(** One [execute] call after the other, each with its own operation; the
    result lists how each call ended. A rejected call does not stop the
    caller from making the next one. *)
Fixpoint execute_all (operations : list Operation) (s : CircuitBreaker * World P A)
    : list (Outcome T) * (CircuitBreaker * World P A) :=
  match operations with
  | [] => ([], s)
  | operation :: rest =>
      match execute operation s with
      | (r, s') =>
          match execute_all rest s' with
          | (rs, s'') => (r :: rs, s'')
          end
      end
  end.

(** The breakers a program can hold: a new one, and whatever [execute]
    leaves. *)
Inductive reachable : CircuitBreaker -> Prop :=
| reachable_new name given : reachable (new_CircuitBreaker name given)
| reachable_execute self w operation :
    reachable self -> reachable (fst (snd (execute operation (self, w)))).

End Breaker.

Arguments Operation : clear implicits.

(** ** MessageProcessor: the retry and the idempotency wrappers *)

(** [T extends { id: string }] *)
Class HasId (P : Type) : Type := message_id : P -> string.

(** [a || b] on strings that may be missing: [undefined] and the empty string
    are falsy, so the result is a key or nothing usable as one. *)
Definition truthy (s : string) : option string :=
  if decide (s = "") then None else Some s.

Definition string_or (a : string) (b : option string) : option string :=
  match truthy a with
  | Some k => Some k
  | None => b ≫= truthy
  end.

Section Processor.

Context {P A : Type}.

(** The options of the retry publish: [{ delay, headers }]. *)
Definition retry_options (delay : Z) (headers : Headers) : PublishOptions :=
  {| opt_priority := None; opt_expiration := None; opt_correlationId := None;
     opt_replyTo := None; opt_headers := Some headers; opt_persistent := None;
     opt_delay := Some delay; opt_maxRetries := None |}.

(** [MessageProcessor.createRetryHandler]; a parameter left out takes its
    default ([maxRetries = 3], [baseDelay = 1000]). The comparison, the
    power [2 ^ retryCount] and the sum [retryCount + 1] are those of the
    source on the deliveries of [retry_in_range]; on others (a negative
    counter, where [Math.pow] gives a fraction, or a counter that is text)
    the source computes something else. *)
Definition createRetryHandler (originalHandler : MessageHandler P A)
    (maxRetries baseDelay : option Z) : MessageHandler P A :=
  let maxRetries := default 3 maxRetries in
  let baseDelay := default 1000 baseDelay in
  fun message context =>
    let retryCount := retryCount_of (ctx_headers context) in
    try_catch (originalHandler message context)
      (fun error =>
         if retryCount <? maxRetries then
           let delay := baseDelay * 2 ^ retryCount in
           discard (publish "retry" "retry" message
             (retry_options delay
                (<["errorMessage" := HStr (message_of error)]>
                   (<["originalQueue" := header_of_option (ctx_properties_replyTo context)]>
                      (<["retryCount" := HNum (retryCount + 1)]> (ctx_headers context)))))) >>>
           ack context
         else
           nack context (Some false)).

(** [MessageProcessor.createIdempotentHandler]. The cache is the [Set] the
    caller passed in; it is shared by every call of the wrapped handler. *)
Definition createIdempotentHandler `{HasId P} (originalHandler : MessageHandler P A)
    : P -> MessageContext -> M (gset string * World P A) unit :=
  fun message context =>
    match string_or (message_id message) (ctx_correlationId context) with
    | None => on_world (originalHandler message context)
    | Some messageId =>
        await s <- get in
        if decide (messageId ∈ fst s) then on_world (ack context)
        else
          try_catch
            (on_world (originalHandler message context) >>>
             on_self (modify (fun processedMessagesCache =>
                                {[messageId]} ∪ processedMessagesCache)))
            (fun error => throw error)
    end.

(** ** RabbitMQConnection: consuming with retry *)

Record ConsumeOptions : Type := {
  co_prefetch : option Z;
  co_autoAck : option bool;
  co_exclusive : option bool;
  co_priority : option Z;
  co_maxRetries : option Z;
  co_retryDelay : option Z;
}.

(** [options: ConsumeOptions = {}] *)
Definition no_consume_options : ConsumeOptions :=
  {| co_prefetch := None; co_autoAck := None; co_exclusive := None;
     co_priority := None; co_maxRetries := None; co_retryDelay := None |}.

(** [RabbitMQConnection.handleMessageWithRetry]; the arithmetic on the
    counter is that of the source on the deliveries of [retry_in_range], as
    for [createRetryHandler]. *)
Definition handleMessageWithRetry (message : P) (context : MessageContext)
    (handler : MessageHandler P A) (options : ConsumeOptions) : M (World P A) unit :=
  let maxRetries := or_default (co_maxRetries options) 3 in
  let retryDelay := or_default (co_retryDelay options) 1000 in
  let retryCount := retryCount_of (ctx_headers context) in
  try_catch
    (handler message context >>>
     if default false (co_autoAck options) then ret tt else ack context)
    (fun error =>
       if retryCount <? maxRetries then
         let retryHeaders :=
           <["originalQueue" := header_of_option (ctx_properties_replyTo context)]>
             (<["retryCount" := HNum (retryCount + 1)]> (ctx_headers context)) in
         discard (publish "retry" "retry" message
           (retry_options (retryDelay * 2 ^ retryCount) retryHeaders)) >>>
         ack context
       else
         nack context (Some false) >>>
         throw (RetryExhaustedError "Message processing" maxRetries)).

(** A message as the channel delivers it. *)
Record Delivery : Type := {
  deliveryTag : nat;
  body : P;
  properties_correlationId : option string;
  properties_replyTo : option string;
  properties_headers : option Headers;
}.

(** The context the callback of [consume] builds for a delivery. *)
Definition context_of (msg : Delivery) : MessageContext :=
  {| ctx_deliveryTag := deliveryTag msg;
     ctx_correlationId := properties_correlationId msg;
     ctx_replyTo := properties_replyTo msg;
     ctx_headers := default ∅ (properties_headers msg);
     ctx_properties_replyTo := properties_replyTo msg |}.

(** The callback [consume] registers on the queue, for a message that is
    there and parses. *)
Definition on_message (handler : MessageHandler P A) (options : ConsumeOptions)
    (msg : Delivery) : M (World P A) unit :=
  try_catch
    (handleMessageWithRetry (body msg) (context_of msg) handler options)
    (fun error =>
       if default false (co_autoAck options) then ret tt
       else channel_call (Nacked (deliveryTag msg) false)).

(** ** Retry cycles

    The broker is not code of the repository and is not modelled. To speak
    of the deliveries one message goes through, [retry_cycles] says which
    sequences of deliveries are a run of retry cycles: each delivery after
    the first carries the body and the headers of a frame with routing key
    [retry] that the wrapped handler published while it handled the
    delivery before it. Whether a broker makes such a delivery is left
    open. *)

Definition is_retry_frame (op : ChannelOp P) : option (Frame P) :=
  match op with
  | Published f => if decide (routingKey f = "retry") then Some f else None
  | _ => None
  end.

Inductive retry_cycles (wrapped : MessageHandler P A)
  : P -> list MessageContext -> Prop :=
| retry_cycles_one message context : retry_cycles wrapped message [context]
| retry_cycles_next message context w f context' rest :
    Published f ∈ drop (length (wire w)) (wire (snd (wrapped message context w))) ->
    routingKey f = "retry" ->
    ctx_headers context' = headers f ->
    retry_cycles wrapped (content f) (context' :: rest) ->
    retry_cycles wrapped message (context :: context' :: rest).

(** A handler that acts on the application's own state only. *)
Definition app_handler (h : P -> MessageContext -> A -> Outcome unit * A)
    : MessageHandler P A :=
  fun message context w =>
    match h message context (app w) with
    | (r, a') =>
        (r, {| clock := clock w; channel := channel w; wire := wire w; app := a' |})
    end.

End Processor.

(** ** RabbitMQConnection.rpc

    [rpc] returns a promise that is still pending, a timer and a consumer on
    a fresh reply queue; what happens next is decided by two callbacks, the
    timer's and the consumer's. The tables below hold what these closures
    share; each callback is one function on them. *)

Inductive PromiseState (R : Type) : Type :=
| IsPending
| IsFulfilled (response : R)
| IsRejected (error : Error).
Arguments IsPending {R}.
Arguments IsFulfilled {R} response.
Arguments IsRejected {R} error.

(** All tables are keyed as the closures are: the promise and the timer by
    the correlation id of their call, the consumer by the queue it consumes
    from; a consumer entry holds the correlation id its callback compares
    with. *)
Record RpcTables (R : Type) : Type := {
  promises : gmap string (PromiseState R);
  timers : gmap string Z;
  consumers : gmap string string;
}.
Arguments promises {R} _.
Arguments timers {R} _.
Arguments consumers {R} _.

(** A message on a reply queue; [reply_body] is [None] when [JSON.parse]
    throws on the content. *)
Record Reply (R : Type) : Type := {
  reply_deliveryTag : nat;
  reply_correlationId : option string;
  reply_body : option R;
}.
Arguments reply_deliveryTag {R} _.
Arguments reply_correlationId {R} _.
Arguments reply_body {R} _.

Section Rpc.

Context {P A R : Type}.

Definition no_tables : RpcTables R :=
  {| promises := ∅; timers := ∅; consumers := ∅ |}.

(** [resolve] and [reject] of a promise: only a pending promise changes. *)
Definition settle (correlationId : string) (s : PromiseState R) (t : RpcTables R)
    : RpcTables R :=
  match promises t !! correlationId with
  | Some IsPending =>
      {| promises := <[correlationId := s]> (promises t);
         timers := timers t; consumers := consumers t |}
  | _ => t
  end.

(** [new Promise(...)], [setTimeout(..., timeout)] and [channel.consume] *)
Definition open_call (correlationId queue : string) (timeout : Z) (t : RpcTables R)
    : RpcTables R :=
  {| promises := <[correlationId := IsPending]> (promises t);
     timers := <[correlationId := timeout]> (timers t);
     consumers := <[queue := correlationId]> (consumers t) |}.

(** [clearTimeout(timeoutId)] *)
Definition clearTimeout (correlationId : string) (t : RpcTables R) : RpcTables R :=
  {| promises := promises t; timers := delete correlationId (timers t);
     consumers := consumers t |}.

Definition rpc_options (correlationId queue : string) : PublishOptions :=
  {| opt_priority := None; opt_expiration := None;
     opt_correlationId := Some correlationId; opt_replyTo := Some queue;
     opt_headers := None; opt_persistent := None; opt_delay := None;
     opt_maxRetries := None |}.

(** [RabbitMQConnection.rpc]. [correlationId] is what
    [generateCorrelationId()] returned and [responseQueue] the name the
    broker gave the exclusive queue; the result is the correlation id, which
    names the promise returned. *)
Definition rpc (exchange routingKey : string) (request : P) (timeout : option Z)
    (correlationId responseQueue : string) : M (RpcTables R * World P A) string :=
  let timeout := default 30000 timeout in
  await s <- get in
  match channel (snd s) with
  | O => throw (MessagingError "No active channel available")
  | S _ =>
      on_self (modify (open_call correlationId responseQueue timeout)) >>>
      try_catch
        (discard (on_world (publish exchange routingKey request
                    (rpc_options correlationId responseQueue))))
        (fun error => on_self (modify (settle correlationId (IsRejected error)))) >>>
      ret correlationId
  end.

(** The callback of [setTimeout]: it runs when the timer, still armed,
    reaches its time. *)
Definition timer_fires (correlationId : string) (t : RpcTables R) : RpcTables R :=
  match timers t !! correlationId with
  | None => t
  | Some timeout =>
      settle correlationId (IsRejected (TimeoutError "RPC request" timeout))
        (clearTimeout correlationId t)
  end.

(** The callback of [channel.consume] on the reply queue, for a message
    that arrives on [queue]. Without a consumer on the queue nothing runs. *)
Definition reply_arrives (queue : string) (msg : Reply R)
    : M (RpcTables R * World P A) unit :=
  await s <- get in
  match consumers (fst s) !! queue with
  | None => ret tt
  | Some correlationId =>
      if decide (reply_correlationId msg = Some correlationId) then
        on_self (modify (clearTimeout correlationId)) >>>
        try_catch
          (match reply_body msg with
           | None => throw (ApplicationError "Unexpected token in JSON")
           | Some response =>
               on_world (channel_call (Acked (reply_deliveryTag msg))) >>>
               on_self (modify (settle correlationId (IsFulfilled response)))
           end)
          (fun error =>
             on_self (modify (settle correlationId
               (IsRejected (MessagingError "Failed to parse RPC response")))))
      else ret tt
  end.

End Rpc.

(** ** Reading the wire *)

Section Wire.

Context {P A : Type}.

(** The frame [publish] sends when it is called without options. *)
Definition plain_frame (exchange routingKey : string) (message : P) (now : Z) : Frame P :=
  {| exchange := exchange; routingKey := routingKey; content := message;
     persistent := true; priority := None; expiration := None;
     correlationId := None; replyTo := None;
     headers :=
       <["timestamp" := HNum now]>
         (<["retryCount" := HNum 0]> (<["maxRetries" := HNum 3]> ∅)) |}.

(** The world after the channel took the frames [fs], in this order. *)
Definition after_publishes (fs : list (Frame P)) (w : World P A) : World P A :=
  {| clock := clock w; channel := channel w - length fs;
     wire := wire w ++ map Published fs; app := app w |}.

(** A world in which nothing was sent yet. *)
Definition quiet_world (now : Z) (channel : nat) (a : A) : World P A :=
  {| clock := now; channel := channel; wire := []; app := a |}.

End Wire.

(** ** The events of a saga, as frames *)

Section SagaFrames.

Context {D : Type}.

Definition compensate_frame (sagaId : string) (error : D) (now : Z) (step : string)
    : Frame (SagaMessage D) :=
  plain_frame "saga" "saga.compensate" (CompensateMessage sagaId step error) now.

Definition failed_frame (sagaId failedStep : string) (error : D) (now : Z)
    : Frame (SagaMessage D) :=
  plain_frame "saga" "saga.failed" (FailedMessage sagaId failedStep error) now.

Definition completed_frame (sagaId : string) (result : D) (now : Z)
    : Frame (SagaMessage D) :=
  plain_frame "saga" "saga.completed" (CompletedMessage sagaId result) now.

Definition continue_frame (sagaId nextStep : string) (result : D)
    (remainingSteps : list string) (now : Z) : Frame (SagaMessage D) :=
  plain_frame "saga" "saga.continue"
    (StepMessage sagaId (Some nextStep) result remainingSteps) now.

Definition start_frame (sagaId : string) (steps : list string) (initialData : D)
    (now : Z) : Frame (SagaMessage D) :=
  plain_frame "saga" "saga.start"
    (StepMessage sagaId (head steps) initialData (drop 1 steps)) now.

End SagaFrames.

(** ** Statements that are tested against the code *)

(** "A completion notice is followed only for the head of the step list":
    whenever [completedStep] is not the first step of the list kept for
    [sagaId] (or no list is kept), [handleStepComplete] changes nothing and
    publishes nothing. *)
Definition completion_of_non_head_is_ignored (D A : Type) : Prop :=
  forall (m : gmap string (list string)) (w : World (SagaMessage D) A)
         (sagaId completedStep : string) (result : D),
    (forall steps, m !! sagaId = Some steps -> head steps ≠ Some completedStep) ->
    handleStepComplete sagaId completedStep result (m, w) = (Resolved tt, (m, w)).

(** How a call of [execute] ended, as far as the caller sees. *)
Definition is_rejected {T} (r : Outcome T) : Prop :=
  match r with
  | Rejected _ => True
  | Resolved _ => False
  end.

Definition has_failed {T} (r : Settled T) : Prop :=
  match r with
  | Fulfilled _ => False
  | _ => True
  end.

(** "The breaker opens at no counter value other than the threshold":
    whenever a call of [execute] counts a failure and leaves the breaker
    [OPEN], the counter it leaves equals the configured threshold. *)
Definition opens_only_at_the_threshold (P A T : Type) : Prop :=
  forall (self : CircuitBreaker) (w : World P A) (operation : Operation P A T),
    @reachable P A T self ->
    let self' := fst (snd (execute operation (self, w))) in
    failures self' ≠ failures self ->
    state self' = OPEN ->
    failures self' = failureThreshold (config self').

(** What holds of every breaker a program can hold. *)
Definition breaker_invariant (self : CircuitBreaker) : Prop :=
  (state self = CLOSED ->
   failures self = 0 \/ 0 < failures self < failureThreshold (config self))
  /\ (state self ≠ CLOSED -> failureThreshold (config self) <= failures self).

(** What the operation's end does to the breaker. *)
Definition settle_breaker {T} (self : CircuitBreaker) (r : Settled T) (now : Z)
    : Outcome T * CircuitBreaker :=
  match r with
  | Fulfilled value => (Resolved value, onSuccess self)
  | Threw error => (Rejected error, onFailure now self)
  | StillPending => (Rejected (OperationTimedOut (timeout (config self))), onFailure now self)
  end.

(** ** A payment gateway to try the breaker on

    The application state counts the calls that reached the gateway; each
    call takes ten milliseconds. *)

Definition gateway_call (w : World unit nat) : World unit nat :=
  {| clock := clock w + 10; channel := channel w; wire := wire w; app := S (app w) |}.

Definition gateway_down : Operation unit nat string :=
  fun w => (Threw (ApplicationError "gateway down"), gateway_call w).

Definition gateway_up : Operation unit nat string :=
  fun w => (Fulfilled "authorized", gateway_call w).

Definition at_time (now : Z) (w : World unit nat) : World unit nat :=
  {| clock := now; channel := channel w; wire := wire w; app := app w |}.

(** A breaker for the gateway that opens at the second failure. *)
Definition payments_breaker : CircuitBreaker :=
  new_CircuitBreaker "payments"
    {| given_failureThreshold := Some 2; given_timeout := None;
       given_resetTimeout := None; given_monitoringPeriod := None |}.

(** The breaker and the world after two failed calls. *)
Definition after_two_failures : CircuitBreaker * World unit nat :=
  snd (execute gateway_down
         (fst (snd (execute gateway_down (payments_breaker, quiet_world 0 1 O))),
          snd (snd (execute gateway_down (payments_breaker, quiet_world 0 1 O))))).

(** ** Retry frames *)

Section RetryFrames.

Context {P A : Type}.

(** The headers [publish] sends for the headers it is given. *)
Definition sent_headers (given : Headers) (now : Z) : Headers :=
  given ∪
  <["timestamp" := HNum now]>
    (<["retryCount" := HNum 0]> (<["maxRetries" := HNum 3]> ∅)).

(** The frame [publish] sends for a retry with the options
    [{ delay, headers }]. *)
Definition retry_frame (message : P) (delay : Z) (given : Headers) (now : Z) : Frame P :=
  {| exchange := if delay =? 0 then "retry" else "delayed";
     routingKey := "retry";
     content := message;
     persistent := true; priority := None; expiration := None;
     correlationId := None; replyTo := None;
     headers :=
       if delay =? 0 then sent_headers given now
       else <["x-delay" := HNum delay]> (sent_headers given now) |}.

(** The headers the two retry paths pass to [publish]. *)
Definition processor_retry_headers (context : MessageContext) (error : Error) : Headers :=
  <["errorMessage" := HStr (message_of error)]>
    (<["originalQueue" := header_of_option (ctx_properties_replyTo context)]>
       (<["retryCount" := HNum (retryCount_of (ctx_headers context) + 1)]>
          (ctx_headers context))).

Definition connection_retry_headers (context : MessageContext) : Headers :=
  <["originalQueue" := header_of_option (ctx_properties_replyTo context)]>
    (<["retryCount" := HNum (retryCount_of (ctx_headers context) + 1)]>
       (ctx_headers context)).

(** What a wrapper may add to the wire in one delivery, as far as retries
    go: nothing routed to [retry], or one frame, sent only below
    [maxRetries], that carries the message and the counter plus one. *)
Definition retry_discipline (maxRetries : Z) (wrapped : MessageHandler P A) : Prop :=
  forall message context w,
    exists ops,
      wire (snd (wrapped message context w)) = wire w ++ ops
      /\ (omap is_retry_frame ops = []
          \/ exists f,
               omap is_retry_frame ops = [f]
               /\ retryCount_of (ctx_headers context) < maxRetries
               /\ retryCount_of (headers f) = retryCount_of (ctx_headers context) + 1
               /\ content f = message).

End RetryFrames.

(** A handler that fails on its first two calls, and counts its calls in the
    application state. *)
Definition fails_twice : MessageHandler string nat :=
  app_handler (fun _ _ calls =>
    (if (calls <? 2)%nat then Rejected (ApplicationError "not yet") else Resolved tt,
     S calls)).

(** A fresh delivery: [publish] gave it [retryCount: 0]. *)
Definition first_delivery : MessageContext :=
  {| ctx_deliveryTag := 1; ctx_correlationId := None; ctx_replyTo := None;
     ctx_headers := <["retryCount" := HNum 0]> ∅; ctx_properties_replyTo := None |}.

(** [{ maxRetries: 3, retryDelay: 1000 }] *)
Definition three_retries : ConsumeOptions :=
  {| co_prefetch := None; co_autoAck := None; co_exclusive := None;
     co_priority := None; co_maxRetries := Some 3; co_retryDelay := Some 1000 |}.

(** The deliveries acknowledged on a wire. *)
Definition acknowledged {P} (ops : list (ChannelOp P)) : list nat :=
  omap (fun op => match op with
                  | Acked tag => Some tag
                  | _ => None
                  end) ops.

(** A handler that fails on every call, and counts its calls. *)
Definition always_fails : MessageHandler string nat :=
  app_handler (fun _ _ calls => (Rejected (ApplicationError "card declined"), S calls)).

(** The delivery that follows [first_delivery] when the frame published for
    its retry at time 0, after the failure [card declined], comes back. *)
Definition second_delivery : MessageContext :=
  {| ctx_deliveryTag := 2; ctx_correlationId := None; ctx_replyTo := None;
     ctx_headers :=
       headers (retry_frame "order.created" 1000
                  (processor_retry_headers first_delivery
                     (ApplicationError "card declined")) 0);
     ctx_properties_replyTo := None |}.

(** A delivery that has used up three retries. *)
Definition fourth_delivery : MessageContext :=
  {| ctx_deliveryTag := 4; ctx_correlationId := None; ctx_replyTo := None;
     ctx_headers := <["retryCount" := HNum 3]> ∅; ctx_properties_replyTo := None |}.

(** ** Messages to try the idempotency wrapper on *)

(** A message that is its own id. *)
#[global] Instance string_id : HasId string := fun message => message.

(** A handler that succeeds on every call, and counts its calls. *)
Definition counts_calls : MessageHandler string nat :=
  app_handler (fun _ _ calls => (Resolved tt, S calls)).

(** A delivery that carries no correlation id. *)
Definition plain_delivery (tag : nat) : MessageContext :=
  {| ctx_deliveryTag := tag; ctx_correlationId := None; ctx_replyTo := None;
     ctx_headers := ∅; ctx_properties_replyTo := None |}.

(** One delivery per message, in order, to a handler wrapped for
    idempotency. *)
Definition deliver_each {A} (handler : MessageHandler string A) (messages : list string)
    : M (gset string * World string A) unit :=
  for_of messages (fun message =>
    createIdempotentHandler handler message (plain_delivery O)).

(** Keys, no two the same: ["k"], ["kk"], ["kkk"], ... (107 is the code of
    the letter k). *)
Fixpoint key_of (n : nat) : string :=
  match n with
  | O => "k"
  | S n' => String (Ascii.ascii_of_nat 107) (key_of n')
  end.

(** "Retention of keys is bounded": some bound holds for the cache after any
    run of successfully processed messages with distinct keys. *)
Definition retention_is_bounded : Prop :=
  exists bound : nat,
    forall (keys : list string) (w : World string nat),
      NoDup keys ->
      Forall (fun key => key ≠ "") keys ->
      (size (fst (snd (deliver_each counts_calls keys (∅, w)))) <= bound)%nat.


(** ** The order service's use of the orchestrator
    (services/order-service/src/index.ts) *)

(** The steps [OrderService.createOrder] starts every order saga with. *)
Definition order_saga_steps : list string :=
  ["inventory-reserve"; "payment-authorize"; "shipping-create"; "order-confirm"].

Section SagaEvents.

Context {D A : Type}.

(** A message on the saga queue: [{ sagaId, step, data, error }]. [ev_error]
    is [None] when the field is missing or falsy. *)
Record SagaEvent : Type := {
  ev_sagaId : string;
  ev_step : string;
  ev_data : D;
  ev_error : option D;
}.

(** [handleSagaEvent] *)
Definition handleSagaEvent (message : SagaEvent)
    : M (gmap string (list string) * World (SagaMessage D) A) unit :=
  try_catch
    (match ev_error message with
     | Some error => handleStepFailed (ev_sagaId message) (ev_step message) error
     | None => handleStepComplete (ev_sagaId message) (ev_step message) (ev_data message)
     end)
    (fun err => throw err).

(** The events a saga publishes when its steps complete one after the
    other, for the notices (step, result) still to come: [saga.continue] for
    each next step, with the steps after it, and [saga.completed] for the
    last notice. *)
Fixpoint walk (sagaId : string) (now : Z) (notices : list (string * D))
    : list (Frame (SagaMessage D)) :=
  match notices with
  | [] => []
  | (_, result) :: rest =>
      match rest with
      | [] => [completed_frame sagaId result now]
      | (nextStep, _) :: later =>
          continue_frame sagaId nextStep result (map fst later) now
          :: walk sagaId now rest
      end
  end.

End SagaEvents.

Arguments SagaEvent : clear implicits.

(** ** MessageProcessor: the breakers it keeps *)

(** [circuitBreakerConfig || {}] *)
Definition no_breaker_options : CircuitBreakerOptions :=
  {| given_failureThreshold := None; given_timeout := None;
     given_resetTimeout := None; given_monitoringPeriod := None |}.

Section BreakerRegistry.

Context {P A T : Type}.

(** [MessageProcessor.processWithCircuitBreaker]; the state is the map
    [circuitBreakers]. The breaker found or made is the object [execute]
    works on, so what [execute] leaves is what the map holds afterwards. *)
Definition processWithCircuitBreaker (serviceName : string)
    (operation : Operation P A T) (circuitBreakerConfig : option CircuitBreakerOptions)
    : M (gmap string CircuitBreaker * World P A) T :=
  (await s <- get in
   match fst s !! serviceName with
   | Some _ => ret tt
   | None =>
       on_self (modify (<[serviceName :=
         new_CircuitBreaker serviceName
           (default no_breaker_options circuitBreakerConfig)]>))
   end) >>>
  fun s =>
    match fst s !! serviceName with
    | Some circuitBreaker =>
        match execute operation (circuitBreaker, snd s) with
        | (r, (circuitBreaker', w')) =>
            (r, (<[serviceName := circuitBreaker']> (fst s), w'))
        end
    | None => (Rejected (TypeError "Cannot read properties of undefined"), s)
    end.

End BreakerRegistry.

(** [MessageProcessor.getCircuitBreakerStatus]; [None] is the source's
    [null]. *)
Definition getCircuitBreakerStatus (serviceName : string)
    (circuitBreakers : gmap string CircuitBreaker) : option (CircuitBreakerState * Z) :=
  match circuitBreakers !! serviceName with
  | None => None
  | Some circuitBreaker => Some (state circuitBreaker, failures circuitBreaker)
  end.

(** [MessageProcessor.getAllCircuitBreakerStatuses] *)
Definition getAllCircuitBreakerStatuses (circuitBreakers : gmap string CircuitBreaker)
    : gmap string (CircuitBreakerState * Z) :=
  (fun circuitBreaker => (state circuitBreaker, failures circuitBreaker))
    <$> circuitBreakers.

(** ** MessageProcessor.createBatchProcessor *)

(** What the closures of one batch processor share: the array [batch] and
    [flushTimer]. [flushTimer] is [Some true] while a timer is pending,
    [Some false] when it holds the handle of a timer that has fired (the
    callback does not reset the variable), and [None] for [null]. *)
Record BatchState (P : Type) : Type := {
  batch : list P;
  flushTimer : option bool;
}.
Arguments batch {P} _.
Arguments flushTimer {P} _.

Section BatchProcessor.

Context {P A : Type}.

Definition set_batch (messages : list P) (b : BatchState P) : BatchState P :=
  {| batch := messages; flushTimer := flushTimer b |}.

Definition set_flushTimer (t : option bool) (b : BatchState P) : BatchState P :=
  {| batch := batch b; flushTimer := t |}.

(** [flush]. [batchHandler] does not reach the batch; while it is awaited
    nothing else runs here, so [batch.unshift(...currentBatch)] puts the
    messages back in front of an empty array. *)
Definition flush (batchHandler : list P -> M (World P A) unit)
    : M (BatchState P * World P A) unit :=
  await s <- get in
  match batch (fst s) with
  | [] => ret tt
  | _ :: _ =>
      let currentBatch := batch (fst s) in
      on_self (modify (set_batch [])) >>>
      try_catch
        (on_world (batchHandler currentBatch))
        (fun error =>
           on_self (modify (fun b => set_batch (currentBatch ++ batch b) b)) >>>
           throw error) >>>
      await s' <- get in
      match flushTimer (fst s') with
      | Some _ => on_self (modify (set_flushTimer None))
      | None => ret tt
      end
  end.

(** [scheduleFlush] *)
Definition scheduleFlush : M (BatchState P * World P A) unit :=
  await s <- get in
  match flushTimer (fst s) with
  | Some _ => ret tt
  | None => on_self (modify (set_flushTimer (Some true)))
  end.

(** The [handler] of the batch processor; [batchSize] defaults to 10. *)
Definition batch_handler (batchHandler : list P -> M (World P A) unit)
    (batchSize : option Z) (message : P) (context : MessageContext)
    : M (BatchState P * World P A) unit :=
  let batchSize := default 10 batchSize in
  on_self (modify (fun b => set_batch (batch b ++ [message]) b)) >>>
  (await s <- get in
   if batchSize <=? Z.of_nat (length (batch (fst s)))
   then flush batchHandler
   else scheduleFlush) >>>
  on_world (ack context).

(** The callback of the timer [scheduleFlush] sets: [flush()], with a failure
    logged and dropped. It runs only for a timer that is pending. *)
Definition flush_timer_fires (batchHandler : list P -> M (World P A) unit)
    : M (BatchState P * World P A) unit :=
  await s <- get in
  match flushTimer (fst s) with
  | Some true =>
      on_self (modify (set_flushTimer (Some false))) >>>
      try_catch (flush batchHandler) (fun _ => ret tt)
  | _ => ret tt
  end.

(** One delivery after the other to the batch processor, each with a tag of
    its own; a rejected call does not stop the next delivery. The result
    lists how each call ended. *)
Fixpoint batch_deliveries (batchHandler : list P -> M (World P A) unit)
    (batchSize : option Z) (tag : nat) (messages : list P)
    (s : BatchState P * World P A) : list (Outcome unit) * (BatchState P * World P A) :=
  match messages with
  | [] => ([], s)
  | message :: rest =>
      match batch_handler batchHandler batchSize message
              {| ctx_deliveryTag := tag; ctx_correlationId := None; ctx_replyTo := None;
                 ctx_headers := ∅; ctx_properties_replyTo := None |} s with
      | (r, s') =>
          match batch_deliveries batchHandler batchSize (S tag) rest s' with
          | (rs, s'') => (r :: rs, s'')
          end
      end
  end.

(** A batch handler that stores what it is given, in the application state,
    unless [down] says that it fails in the world it is called in. *)
Definition store_unless (down : World P (list P) -> bool) (messages : list P)
    : M (World P (list P)) unit :=
  fun w =>
    if down w then (Rejected (ApplicationError "store is down"), w)
    else (Resolved tt,
          {| clock := clock w; channel := channel w; wire := wire w;
             app := app w ++ messages |}).

End BatchProcessor.

(** The tags, from [tag] on, of the calls that resolved. *)
Fixpoint resolved_tags (tag : nat) (rs : list (Outcome unit)) : list nat :=
  match rs with
  | [] => []
  | Resolved _ :: rest => tag :: resolved_tags (S tag) rest
  | Rejected _ :: rest => resolved_tags (S tag) rest
  end.

(** The headers [publish] sends: the caller's, over the three defaults. *)
Definition default_headers (given : Headers) (now maxRetries : Z) : Headers :=
  given ∪
  <["timestamp" := HNum now]>
    (<["retryCount" := HNum 0]> (<["maxRetries" := HNum maxRetries]> ∅)).

(** ** Deliveries to try the callback of consume on *)

(** A delivery of the text [order.created] whose headers hold the given
    retry counter. *)
Definition delivery_with (tag : nat) (retryCount : Z) : Delivery (P:=string) :=
  {| deliveryTag := tag; body := "order.created";
     properties_correlationId := None; properties_replyTo := None;
     properties_headers := Some (<["retryCount" := HNum retryCount]> ∅) |}.

(** [{ prefetch: n }], the options the order service consumes with. *)
Definition prefetch_only (n : Z) : ConsumeOptions :=
  {| co_prefetch := Some n; co_autoAck := None; co_exclusive := None;
     co_priority := None; co_maxRetries := None; co_retryDelay := None |}.

(** [{ autoAck: true }] *)
Definition auto_ack : ConsumeOptions :=
  {| co_prefetch := None; co_autoAck := Some true; co_exclusive := None;
     co_priority := None; co_maxRetries := None; co_retryDelay := None |}.

(** ** RabbitMQConnection: connecting and reconnecting

    The fields [connect], [disconnect], [reconnect] and the event handlers
    act on. A connection or channel object is named by the number of the
    call of [amqp.connect] that made it. What the process did that can be
    seen from outside is recorded: the events emitted, the waits, and the
    calls of [channel.consume]. *)

(** The events of the class that the modelled methods emit. *)
Inductive LinkEvent : Type :=
| EvConnected
| EvDisconnected.

(** The part of [RabbitMQConfig] the reconnect logic reads, as the caller
    passed it. *)
Record LinkConfig : Type := {
  cfg_reconnectInterval : option Z;
  cfg_maxReconnectAttempts : option Z;
}.

(** The constructor: [{ reconnectInterval: 5000, maxReconnectAttempts: 10,
    ...config }] *)
Definition constructor_config (config : LinkConfig) : LinkConfig :=
  {| cfg_reconnectInterval := Some (default 5000 (cfg_reconnectInterval config));
     cfg_maxReconnectAttempts := Some (default 10 (cfg_maxReconnectAttempts config)) |}.

Record Subscription (H : Type) : Type := {
  sub_channel : nat;
  sub_queue : string;
  sub_handler : H;
  sub_options : ConsumeOptions;
}.
Arguments sub_channel {H} _.
Arguments sub_queue {H} _.
Arguments sub_handler {H} _.
Arguments sub_options {H} _.

Record Link (H : Type) : Type := {
  conn_connection : option nat;
  conn_channel : option nat;
  conn_isConnecting : bool;
  conn_reconnectAttempts : Z;
  conn_consumers : list (string * H);
  conn_subscriptions : list (Subscription H);
  conn_emitted : list LinkEvent;
  conn_slept : list Z;
  conn_dials : nat;
}.
Arguments conn_connection {H} _.
Arguments conn_channel {H} _.
Arguments conn_isConnecting {H} _.
Arguments conn_reconnectAttempts {H} _.
Arguments conn_consumers {H} _.
Arguments conn_subscriptions {H} _.
Arguments conn_emitted {H} _.
Arguments conn_slept {H} _.
Arguments conn_dials {H} _.

(** [Map.prototype.set]: a key that is there keeps its place. *)
Fixpoint map_set {H} (key : string) (value : H) (entries : list (string * H))
    : list (string * H) :=
  match entries with
  | [] => [(key, value)]
  | (key', value') :: rest =>
      if decide (key = key') then (key, value) :: rest
      else (key', value') :: map_set key value rest
  end.

Section Lifecycle.

(** [H] is the type of handlers. [config] is what the constructor stored.
    [accepted n] tells whether the [n]-th call of [amqp.connect] succeeds;
    when it does, [createChannel], [prefetch] and [setupInfrastructure] are
    taken to succeed as well. *)
Context {H : Type}.
Variable config : LinkConfig.
Variable accepted : nat -> bool.

Definition set_link (connection channel : option nat) (c : Link H) : Link H :=
  {| conn_connection := connection; conn_channel := channel;
     conn_isConnecting := conn_isConnecting c;
     conn_reconnectAttempts := conn_reconnectAttempts c;
     conn_consumers := conn_consumers c;
     conn_subscriptions := conn_subscriptions c;
     conn_emitted := conn_emitted c; conn_slept := conn_slept c;
     conn_dials := conn_dials c |}.

Definition set_isConnecting (b : bool) (c : Link H) : Link H :=
  {| conn_connection := conn_connection c; conn_channel := conn_channel c;
     conn_isConnecting := b;
     conn_reconnectAttempts := conn_reconnectAttempts c;
     conn_consumers := conn_consumers c;
     conn_subscriptions := conn_subscriptions c;
     conn_emitted := conn_emitted c; conn_slept := conn_slept c;
     conn_dials := conn_dials c |}.

Definition set_reconnectAttempts (n : Z) (c : Link H) : Link H :=
  {| conn_connection := conn_connection c; conn_channel := conn_channel c;
     conn_isConnecting := conn_isConnecting c;
     conn_reconnectAttempts := n;
     conn_consumers := conn_consumers c;
     conn_subscriptions := conn_subscriptions c;
     conn_emitted := conn_emitted c; conn_slept := conn_slept c;
     conn_dials := conn_dials c |}.

(** [this.emit(event)] *)
Definition emit (event : LinkEvent) (c : Link H) : Link H :=
  {| conn_connection := conn_connection c; conn_channel := conn_channel c;
     conn_isConnecting := conn_isConnecting c;
     conn_reconnectAttempts := conn_reconnectAttempts c;
     conn_consumers := conn_consumers c;
     conn_subscriptions := conn_subscriptions c;
     conn_emitted := conn_emitted c ++ [event]; conn_slept := conn_slept c;
     conn_dials := conn_dials c |}.

(** [await sleep(ms)] *)
Definition sleep (ms : Z) (c : Link H) : Link H :=
  {| conn_connection := conn_connection c; conn_channel := conn_channel c;
     conn_isConnecting := conn_isConnecting c;
     conn_reconnectAttempts := conn_reconnectAttempts c;
     conn_consumers := conn_consumers c;
     conn_subscriptions := conn_subscriptions c;
     conn_emitted := conn_emitted c; conn_slept := conn_slept c ++ [ms];
     conn_dials := conn_dials c |}.

(** One call of [amqp.connect]. *)
Definition dial (c : Link H) : Link H :=
  {| conn_connection := conn_connection c; conn_channel := conn_channel c;
     conn_isConnecting := conn_isConnecting c;
     conn_reconnectAttempts := conn_reconnectAttempts c;
     conn_consumers := conn_consumers c;
     conn_subscriptions := conn_subscriptions c;
     conn_emitted := conn_emitted c; conn_slept := conn_slept c;
     conn_dials := S (conn_dials c) |}.

(** [RabbitMQConnection.connect] *)
Definition connect : M (Link H) unit :=
  fun c =>
    if conn_isConnecting c then (Resolved tt, c)
    else
      let c1 := dial (set_isConnecting true c) in
      if accepted (conn_dials c) then
        (Resolved tt,
         emit EvConnected
           (set_isConnecting false
              (set_reconnectAttempts 0
                 (set_link (Some (conn_dials c)) (Some (conn_dials c)) c1))))
      else
        (Rejected (MessagingError "Failed to connect to RabbitMQ"),
         set_isConnecting false c1).

(** [RabbitMQConnection.disconnect]; the two [close] calls are taken not to
    throw. *)
Definition disconnect : M (Link H) unit :=
  fun c => (Resolved tt, emit EvDisconnected (set_link None None c)).

(** [RabbitMQConnection.isConnected] *)
Definition isConnected (c : Link H) : bool :=
  bool_decide (conn_connection c ≠ None) && bool_decide (conn_channel c ≠ None).

(** [RabbitMQConnection.consume], as far as the connection's own fields go:
    the subscription on the channel, then the entry in [this.consumers].
    [channel.prefetch] and [channel.consume] are taken not to throw. *)
Definition consume (queue : string) (handler : H) (options : ConsumeOptions)
    : M (Link H) unit :=
  fun c =>
    match conn_channel c with
    | None => (Rejected (MessagingError "No active channel available"), c)
    | Some ch =>
        (Resolved tt,
         {| conn_connection := conn_connection c; conn_channel := conn_channel c;
            conn_isConnecting := conn_isConnecting c;
            conn_reconnectAttempts := conn_reconnectAttempts c;
            conn_consumers := map_set queue handler (conn_consumers c);
            conn_subscriptions :=
              conn_subscriptions c
              ++ [{| sub_channel := ch; sub_queue := queue; sub_handler := handler;
                     sub_options := options |}];
            conn_emitted := conn_emitted c; conn_slept := conn_slept c;
            conn_dials := conn_dials c |})
    end.

(** The body of the [try] in [reconnect]: connect, then restore consumers. *)
Definition connect_and_restore : M (Link H) unit :=
  connect >>>
  await c <- get in
  for_of (conn_consumers c) (fun entry =>
    consume (fst entry) (snd entry) no_consume_options).

(** [RabbitMQConnection.reconnect]. The recursion of the source is on the
    failure of an attempt; [fuel] bounds the attempts followed, and [None]
    is the answer when it does not suffice. *)
Fixpoint reconnect (fuel : nat) (c : Link H) : option (Outcome unit * Link H) :=
  if conn_isConnecting c
     || (or_default (cfg_maxReconnectAttempts config) 10 <=? conn_reconnectAttempts c)
  then Some (Resolved tt, c)
  else
    match fuel with
    | O => None
    | S fuel' =>
        match connect_and_restore
                (sleep (or_default (cfg_reconnectInterval config) 5000)
                   (set_reconnectAttempts (conn_reconnectAttempts c + 1) c)) with
        | (Resolved _, c') => Some (Resolved tt, c')
        | (Rejected _, c') => reconnect fuel' c'
        end
    end.

(** [handleConnectionClose] *)
Definition handleConnectionClose (fuel : nat) (c : Link H)
    : option (Outcome unit * Link H) :=
  reconnect fuel (emit EvDisconnected (set_link None None c)).

(** [handleChannelClose] *)
Definition handleChannelClose (c : Link H) : Link H :=
  set_link (conn_connection c) None c.

(** The subscription the restore loop of [reconnect] makes for an entry of
    [this.consumers], on the channel [ch]. *)
Definition restored (ch : nat) (entry : string * H) : Subscription H :=
  {| sub_channel := ch; sub_queue := fst entry; sub_handler := snd entry;
     sub_options := no_consume_options |}.

Definition add_subscriptions (subs : list (Subscription H)) (c : Link H) : Link H :=
  {| conn_connection := conn_connection c; conn_channel := conn_channel c;
     conn_isConnecting := conn_isConnecting c;
     conn_reconnectAttempts := conn_reconnectAttempts c;
     conn_consumers := conn_consumers c;
     conn_subscriptions := conn_subscriptions c ++ subs;
     conn_emitted := conn_emitted c; conn_slept := conn_slept c;
     conn_dials := conn_dials c |}.

(** The link after [n] attempts of [reconnect] that were refused. *)
Definition after_refusals (n : nat) (c : Link H) : Link H :=
  {| conn_connection := conn_connection c; conn_channel := conn_channel c;
     conn_isConnecting := conn_isConnecting c;
     conn_reconnectAttempts := conn_reconnectAttempts c + Z.of_nat n;
     conn_consumers := conn_consumers c;
     conn_subscriptions := conn_subscriptions c;
     conn_emitted := conn_emitted c;
     conn_slept :=
       conn_slept c ++ replicate n (or_default (cfg_reconnectInterval config) 5000);
     conn_dials := conn_dials c + n |}.

(** The link after an attempt that was accepted. *)
Definition connected_link (c : Link H) : Link H :=
  {| conn_connection := Some (conn_dials c); conn_channel := Some (conn_dials c);
     conn_isConnecting := false;
     conn_reconnectAttempts := 0;
     conn_consumers := conn_consumers c;
     conn_subscriptions :=
       conn_subscriptions c ++ map (restored (conn_dials c)) (conn_consumers c);
     conn_emitted := conn_emitted c ++ [EvConnected];
     conn_slept := conn_slept c ++ [or_default (cfg_reconnectInterval config) 5000];
     conn_dials := S (conn_dials c) |}.

End Lifecycle.

(** A link that has never been connected. *)
Definition new_link {H} : Link H :=
  {| conn_connection := None; conn_channel := None; conn_isConnecting := false;
     conn_reconnectAttempts := 0; conn_consumers := []; conn_subscriptions := [];
     conn_emitted := []; conn_slept := []; conn_dials := O |}.

(** [{}] as the configuration, after the constructor. *)
Definition default_config : LinkConfig :=
  constructor_config {| cfg_reconnectInterval := None; cfg_maxReconnectAttempts := None |}.

(** A broker that accepts the first call, refuses the second and accepts
    from then on. *)
Definition flaky (n : nat) : bool := negb (n =? 1)%nat.

(** A link that connected at the first call and then registered the handler
    [onOrder] on the queue [orders] with [{ autoAck: true }]. *)
Definition link_with_consumer : Link string :=
  snd (consume "orders" "onOrder" auto_ack (snd (connect flaky new_link))).

(** ** The topology (shared/src/messaging/constants.ts)

    [EXCHANGES], [QUEUES] and [QUEUE_BINDINGS], in the order of the source,
    and what [setupInfrastructure] asks of the channel for them. *)

Record ExchangeConfig : Type := {
  exchange_name : string;
  exchange_type : string;
}.

Inductive ArgValue : Type :=
| ANum (n : Z)
| AStr (s : string).

Record QueueConfig : Type := {
  queue_name : string;
  queue_durable : bool;
  queue_arguments : option (list (string * ArgValue));
}.

Record QueueBinding : Type := {
  binding_queue : string;
  binding_exchange : string;
  binding_routingKey : string;
}.

Definition EXCHANGES : list ExchangeConfig :=
  [ {| exchange_name := "orders"; exchange_type := "topic" |};
    {| exchange_name := "order.saga"; exchange_type := "direct" |};
    {| exchange_name := "inventory"; exchange_type := "topic" |};
    {| exchange_name := "payments"; exchange_type := "topic" |};
    {| exchange_name := "payment.saga"; exchange_type := "direct" |};
    {| exchange_name := "shipping"; exchange_type := "topic" |};
    {| exchange_name := "notifications"; exchange_type := "fanout" |};
    {| exchange_name := "notifications.priority"; exchange_type := "headers" |};
    {| exchange_name := "dlx"; exchange_type := "direct" |};
    {| exchange_name := "retry"; exchange_type := "direct" |};
    {| exchange_name := "delayed"; exchange_type := "x-delayed-message" |} ].

Definition QUEUES : list QueueConfig :=
  [ {| queue_name := "order.commands"; queue_durable := true;
       queue_arguments := Some [("x-max-priority", ANum 10)] |};
    {| queue_name := "order.events"; queue_durable := true;
       queue_arguments := None |};
    {| queue_name := "order.saga"; queue_durable := true;
       queue_arguments := Some [("x-max-priority", ANum 10)] |};
    {| queue_name := "inventory.commands"; queue_durable := true;
       queue_arguments := Some [("x-max-priority", ANum 10); ("x-dead-letter-exchange", AStr "dlx"); ("x-dead-letter-routing-key", AStr "inventory.dlq")] |};
    {| queue_name := "inventory.events"; queue_durable := true;
       queue_arguments := None |};
    {| queue_name := "payment.commands"; queue_durable := true;
       queue_arguments := Some [("x-max-priority", ANum 10); ("x-dead-letter-exchange", AStr "dlx"); ("x-dead-letter-routing-key", AStr "payment.dlq")] |};
    {| queue_name := "payment.events"; queue_durable := true;
       queue_arguments := None |};
    {| queue_name := "payment.saga"; queue_durable := true;
       queue_arguments := None |};
    {| queue_name := "shipping.commands"; queue_durable := true;
       queue_arguments := Some [("x-dead-letter-exchange", AStr "dlx"); ("x-dead-letter-routing-key", AStr "shipping.dlq")] |};
    {| queue_name := "shipping.events"; queue_durable := true;
       queue_arguments := None |};
    {| queue_name := "notification.email"; queue_durable := true;
       queue_arguments := Some [("x-max-priority", ANum 10)] |};
    {| queue_name := "notification.sms"; queue_durable := true;
       queue_arguments := Some [("x-max-priority", ANum 10)] |};
    {| queue_name := "notification.push"; queue_durable := true;
       queue_arguments := Some [("x-max-priority", ANum 5)] |};
    {| queue_name := "order.dlq"; queue_durable := true;
       queue_arguments := None |};
    {| queue_name := "inventory.dlq"; queue_durable := true;
       queue_arguments := None |};
    {| queue_name := "payment.dlq"; queue_durable := true;
       queue_arguments := None |};
    {| queue_name := "shipping.dlq"; queue_durable := true;
       queue_arguments := None |};
    {| queue_name := "notification.dlq"; queue_durable := true;
       queue_arguments := None |};
    {| queue_name := "order.retry"; queue_durable := true;
       queue_arguments := Some [("x-message-ttl", ANum 30000); ("x-dead-letter-exchange", AStr "orders")] |};
    {| queue_name := "inventory.retry"; queue_durable := true;
       queue_arguments := Some [("x-message-ttl", ANum 30000); ("x-dead-letter-exchange", AStr "inventory")] |};
    {| queue_name := "payment.retry"; queue_durable := true;
       queue_arguments := Some [("x-message-ttl", ANum 60000); ("x-dead-letter-exchange", AStr "payments")] |};
    {| queue_name := "shipping.retry"; queue_durable := true;
       queue_arguments := Some [("x-message-ttl", ANum 120000); ("x-dead-letter-exchange", AStr "shipping")] |};
    {| queue_name := "order.rpc"; queue_durable := true;
       queue_arguments := Some [("x-message-ttl", ANum 30000)] |};
    {| queue_name := "inventory.rpc"; queue_durable := true;
       queue_arguments := Some [("x-message-ttl", ANum 15000)] |};
    {| queue_name := "payment.rpc"; queue_durable := true;
       queue_arguments := Some [("x-message-ttl", ANum 45000)] |};
    {| queue_name := "shipping.rpc"; queue_durable := true;
       queue_arguments := Some [("x-message-ttl", ANum 30000)] |};
    {| queue_name := "health.check"; queue_durable := false;
       queue_arguments := Some [("x-message-ttl", ANum 5000)] |};
    {| queue_name := "metrics.collection"; queue_durable := true;
       queue_arguments := None |} ].

Definition QUEUE_BINDINGS : list QueueBinding :=
  [ {| binding_queue := "order.events"; binding_exchange := "orders";
       binding_routingKey := "order.*" |};
    {| binding_queue := "order.saga"; binding_exchange := "order.saga";
       binding_routingKey := "order.saga.*" |};
    {| binding_queue := "inventory.commands"; binding_exchange := "inventory";
       binding_routingKey := "inventory.reserve" |};
    {| binding_queue := "inventory.commands"; binding_exchange := "inventory";
       binding_routingKey := "inventory.release" |};
    {| binding_queue := "inventory.commands"; binding_exchange := "inventory";
       binding_routingKey := "inventory.commit" |};
    {| binding_queue := "inventory.events"; binding_exchange := "inventory";
       binding_routingKey := "inventory.*" |};
    {| binding_queue := "payment.commands"; binding_exchange := "payments";
       binding_routingKey := "payment.authorize" |};
    {| binding_queue := "payment.commands"; binding_exchange := "payments";
       binding_routingKey := "payment.capture" |};
    {| binding_queue := "payment.commands"; binding_exchange := "payments";
       binding_routingKey := "payment.refund" |};
    {| binding_queue := "payment.events"; binding_exchange := "payments";
       binding_routingKey := "payment.*" |};
    {| binding_queue := "payment.saga"; binding_exchange := "payment.saga";
       binding_routingKey := "payment.saga.*" |};
    {| binding_queue := "shipping.commands"; binding_exchange := "shipping";
       binding_routingKey := "shipment.create" |};
    {| binding_queue := "shipping.commands"; binding_exchange := "shipping";
       binding_routingKey := "shipment.update" |};
    {| binding_queue := "shipping.events"; binding_exchange := "shipping";
       binding_routingKey := "shipment.*" |};
    {| binding_queue := "notification.email"; binding_exchange := "notifications";
       binding_routingKey := "" |};
    {| binding_queue := "notification.sms"; binding_exchange := "notifications";
       binding_routingKey := "" |};
    {| binding_queue := "notification.push"; binding_exchange := "notifications";
       binding_routingKey := "" |};
    {| binding_queue := "notification.email"; binding_exchange := "orders";
       binding_routingKey := "order.created" |};
    {| binding_queue := "notification.email"; binding_exchange := "payments";
       binding_routingKey := "payment.captured" |};
    {| binding_queue := "notification.sms"; binding_exchange := "shipping";
       binding_routingKey := "shipment.delivered" |};
    {| binding_queue := "order.dlq"; binding_exchange := "dlx";
       binding_routingKey := "order.dlq" |};
    {| binding_queue := "inventory.dlq"; binding_exchange := "dlx";
       binding_routingKey := "inventory.dlq" |};
    {| binding_queue := "payment.dlq"; binding_exchange := "dlx";
       binding_routingKey := "payment.dlq" |};
    {| binding_queue := "shipping.dlq"; binding_exchange := "dlx";
       binding_routingKey := "shipping.dlq" |};
    {| binding_queue := "notification.dlq"; binding_exchange := "dlx";
       binding_routingKey := "notification.dlq" |} ].

(** What the channel is asked to declare. *)
Inductive SetupCall : Type :=
| AssertExchange (name type : string) (durable : bool)
| AssertQueue (name : string) (durable : bool)
    (arguments : option (list (string * ArgValue)))
| BindQueue (queue exchange routingKey : string).

(** [setupExchange(name, type)]: [assertExchange(name, type, { durable: true })] *)
Definition setupExchange (exchange : ExchangeConfig) : SetupCall :=
  AssertExchange (exchange_name exchange) (exchange_type exchange) true.

(** [setupQueue(name, { durable, arguments })]:
    [assertQueue(name, { durable: true, ...options })] *)
Definition setupQueue (queueConfig : QueueConfig) : SetupCall :=
  AssertQueue (queue_name queueConfig) (queue_durable queueConfig)
    (queue_arguments queueConfig).

Definition bindQueue (binding : QueueBinding) : SetupCall :=
  BindQueue (binding_queue binding) (binding_exchange binding)
    (binding_routingKey binding).

(** [RabbitMQConnection.setupInfrastructure], for a channel that stays open
    and accepts every declaration: the calls made, in order. Without a
    channel it returns at once. *)
Definition setupInfrastructure (channel : bool) : list SetupCall :=
  if channel then
    map setupExchange EXCHANGES ++ map setupQueue QUEUES ++ map bindQueue QUEUE_BINDINGS
  else [].

(** ** Reading the declarations *)

Definition exchanges_declared (calls : list SetupCall) : list string :=
  omap (fun call => match call with
                    | AssertExchange name _ _ => Some name
                    | _ => None
                    end) calls.

(** The queues with a binding on an exchange, whatever the binding key. *)
Definition queues_bound_to (exchange : string) (calls : list SetupCall) : list string :=
  omap (fun call => match call with
                    | BindQueue queue exchange' _ =>
                        if decide (exchange' = exchange) then Some queue else None
                    | _ => None
                    end) calls.

(** ** What a computation publishes *)

Section PublishesOnly.

Context {P : Type}.

Definition frames_of (ops : list (ChannelOp P)) : list (Frame P) :=
  omap (fun op => match op with
                  | Published f => Some f
                  | _ => None
                  end) ops.

(** Whatever [m] adds to the wire, the frames among it satisfy [Q]. *)
Definition publishes_only {S X} (wire_of : S -> list (ChannelOp P))
    (Q : Frame P -> Prop) (m : M S X) : Prop :=
  forall s,
    exists ops,
      wire_of (snd (m s)) = wire_of s ++ ops /\ Forall Q (frames_of ops).

End PublishesOnly.

(** * Properties *)

Ltac unfold_async :=
  unfold discard, bind, try_catch, ret, throw, get, modify, on_world, on_self in *;
  simpl in *.

Section ConnectionFacts.

Context {P A : Type}.
Implicit Types (w : World P A) (f : Frame P) (op : ChannelOp P).

Lemma after_publishes_nil w : after_publishes [] w = w.
Proof.
  destruct w as [c ch wr a]. unfold after_publishes. simpl.
  rewrite app_nil_r. f_equal. lia.
Qed.

Lemma after_publishes_cons f fs w :
  channel w ≠ O ->
  after_publishes fs (use_channel (send (Published f) w)) = after_publishes (f :: fs) w.
Proof.
  destruct w as [c ch wr a]. unfold after_publishes, use_channel, send. simpl.
  intros Hch. rewrite <- app_assoc. simpl. f_equal. lia.
Qed.

Lemma after_publishes_snoc f fs w :
  (length fs < channel w)%nat ->
  use_channel (send (Published f) (after_publishes fs w)) = after_publishes (fs ++ [f]) w.
Proof.
  destruct w as [c ch wr a]. unfold after_publishes, use_channel, send. simpl.
  intros Hch. rewrite map_app, length_app, <- app_assoc. simpl. f_equal. lia.
Qed.

Lemma publish_plain ex rk (m : P) w :
  channel w ≠ O ->
  publish ex rk m no_options w
  = (Resolved true, use_channel (send (Published (plain_frame ex rk m (clock w))) w)).
Proof.
  intros Hch. unfold publish. destruct (channel w) as [|k] eqn:E; [congruence|].
  simpl. unfold plain_frame. rewrite (left_id_L ∅ (∪)). reflexivity.
Qed.

Lemma publish_closed ex rk (m : P) o w :
  channel w = O ->
  publish ex rk m o w = (Rejected (MessagingError "No active channel available"), w).
Proof. intros Hch. unfold publish. by rewrite Hch. Qed.

End ConnectionFacts.

Lemma indexOf_Some step steps i :
  indexOf step steps = Some i ->
  steps = take i steps ++ step :: drop (S i) steps /\ step ∉ take i steps.
Proof.
  revert i. induction steps as [|s rest IH]; intros i; simpl; [discriminate|].
  destruct (decide (s = step)) as [->|Hne].
  - intros [= <-]. simpl. split; [by rewrite drop_0 | apply not_elem_of_nil].
  - destruct (indexOf step rest) as [j|] eqn:E; simpl; [|discriminate].
    intros [= <-]. destruct (IH j eq_refl) as [Heq Hnot]. simpl. split.
    + by rewrite <- Heq.
    + rewrite elem_of_cons. intros [->|Hin]; [congruence | by apply Hnot].
Qed.

Lemma indexOf_lt step steps i : indexOf step steps = Some i -> (i < length steps)%nat.
Proof.
  intros H. apply indexOf_Some in H as [Heq _].
  apply (f_equal length) in Heq.
  rewrite length_app, length_cons, length_take, length_drop in Heq. lia.
Qed.

Lemma indexOf_None step steps : indexOf step steps = None <-> step ∉ steps.
Proof.
  induction steps as [|s rest IH]; simpl.
  - split; [intros _; apply not_elem_of_nil | done].
  - destruct (decide (s = step)) as [->|Hne].
    + split; [discriminate|]. intros H. exfalso. apply H. left.
    + rewrite not_elem_of_cons. destruct (indexOf step rest); simpl.
      * split; [discriminate|]. intros [_ H]. by apply IH in H.
      * split; [|done]. intros _. split; [congruence | by apply IH].
Qed.

(** ** SagaOrchestrator *)

Section SagaFacts.

Context {D A : Type}.
Implicit Types (m : gmap string (list string)) (w : World (SagaMessage D) A).

Lemma publish_event rk (body : SagaMessage D) m w :
  channel w ≠ O ->
  discard (on_world (publish "saga" rk body no_options)) (m, w)
  = (Resolved tt, (m, use_channel (send (Published (plain_frame "saga" rk body (clock w))) w))).
Proof. intros Hch. unfold_async. by rewrite publish_plain. Qed.

Lemma publish_event_closed rk (body : SagaMessage D) m w :
  channel w = O ->
  discard (on_world (publish "saga" rk body no_options)) (m, w)
  = (Rejected (MessagingError "No active channel available"), (m, w)).
Proof. intros Hch. unfold_async. by rewrite publish_closed. Qed.

(** The compensation loop publishes one event per step, in the order of the
    list it is given, for as long as the channel lasts. *)
Lemma compensation_loop sagaId (error : D) steps m w :
  for_of steps (fun step =>
    discard (on_world (publish "saga" "saga.compensate"
      (CompensateMessage sagaId step error) no_options))) (m, w)
  = (if decide (length steps <= channel w)%nat then Resolved tt
     else Rejected (MessagingError "No active channel available"),
     (m, after_publishes
           (take (channel w) (map (compensate_frame sagaId error (clock w)) steps)) w)).
Proof.
  revert w. induction steps as [|step rest IH]; intros w.
  - simpl. rewrite take_nil, after_publishes_nil. reflexivity.
  - cbn [for_of]. unfold bind at 1.
    destruct (channel w) as [|k] eqn:Hch.
    + rewrite publish_event_closed by done. simpl.
      rewrite after_publishes_nil. reflexivity.
    + rewrite publish_event by lia. rewrite IH. simpl. rewrite Hch. simpl.
      rewrite after_publishes_cons by lia.
      repeat case_decide; simpl in *; try lia; reflexivity.
Qed.

End SagaFacts.
Section SagaFailureRun.

Context {D A : Type}.
Implicit Types (m : gmap string (list string)) (w : World (SagaMessage D) A).

Lemma handleStepFailed_run m w sagaId failedStep (error : D) steps i :
  m !! sagaId = Some steps ->
  indexOf failedStep steps = Some i ->
  let cs := map (compensate_frame sagaId error (clock w)) (rev (take i steps)) in
  handleStepFailed sagaId failedStep error (m, w)
  = if decide (i < channel w)%nat then
      (Resolved tt,
       (delete sagaId m,
        after_publishes (cs ++ [failed_frame sagaId failedStep error (clock w)]) w))
    else if decide (i = channel w) then
      (Rejected (MessagingError "No active channel available"),
       (delete sagaId m, after_publishes cs w))
    else
      (Rejected (MessagingError "No active channel available"),
       (m, after_publishes (take (channel w) cs) w)).
Proof.
  intros Hm Hi cs.
  assert (Hlen : length (rev (take i steps)) = i).
  { rewrite length_rev, length_take. apply indexOf_lt in Hi. lia. }
  assert (Hcs : length cs = i) by (unfold cs; by rewrite length_map).
  unfold handleStepFailed. unfold bind at 1, get. simpl. rewrite Hm, Hi.
  unfold bind at 1. rewrite compensation_loop, Hlen. fold cs.
  destruct (decide (i <= channel w)%nat) as [Hle|Hgt].
  - rewrite firstn_all2 by lia.
    unfold bind at 1, on_self, modify. simpl.
    destruct (decide (i < channel w)%nat) as [Hlt|Hnlt].
    + rewrite publish_event by (simpl; lia). simpl.
      rewrite after_publishes_snoc by lia. reflexivity.
    + rewrite publish_event_closed by (simpl; lia).
      destruct (decide (i = channel w)); [reflexivity | lia].
  - destruct (decide (i < channel w)%nat); [lia|].
    destruct (decide (i = channel w)); [lia | reflexivity].
Qed.

End SagaFailureRun.
Section SagaFailure.

Context {D A : Type}.
Implicit Types (m : gmap string (list string)) (w : World (SagaMessage D) A).

Lemma startSaga_run m w sagaId steps (initialData : D) :
  channel w ≠ O ->
  startSaga sagaId steps initialData (m, w)
  = (Resolved tt,
     (<[sagaId := steps]> m,
      use_channel (send (Published (start_frame sagaId steps initialData (clock w))) w))).
Proof.
  intros Hch. unfold startSaga. unfold bind at 1, on_self, modify. simpl.
  by rewrite publish_event.
Qed.

(** C2. When a step of a tracked saga fails, the steps strictly before its
    first occurrence are compensated, one [saga.compensate] event each, last
    step first; then the saga is deleted; then [saga.failed] is published.
    That the deletion comes before the last publish shows when the channel is
    lost right after the compensations: the saga is gone although
    [saga.failed] never went out. The scenario of the specification ends with
    one compensation, for ["reserve"], the failure event, and no saga. *)
Theorem handleStepFailed_compensates_in_reverse :
  (forall m w sagaId failedStep (error : D) steps i,
      m !! sagaId = Some steps ->
      indexOf failedStep steps = Some i ->
      let compensations :=
        map (compensate_frame sagaId error (clock w)) (rev (take i steps)) in
      (steps = take i steps ++ failedStep :: drop (S i) steps
       /\ failedStep ∉ take i steps)
      /\ ((i < channel w)%nat ->
          handleStepFailed sagaId failedStep error (m, w)
          = (Resolved tt,
             (delete sagaId m,
              after_publishes
                (compensations ++ [failed_frame sagaId failedStep error (clock w)]) w)))
      /\ (i = channel w ->
          handleStepFailed sagaId failedStep error (m, w)
          = (Rejected (MessagingError "No active channel available"),
             (delete sagaId m, after_publishes compensations w))))
  /\ (forall m w (data error : D),
        (3 <= channel w)%nat ->
        let run :=
          (startSaga "s1" ["reserve"; "pay"; "ship"] data >>>
           handleStepFailed "s1" "pay" error) (m, w) in
        run
        = (Resolved tt,
           (delete "s1" m,
            after_publishes
              [start_frame "s1" ["reserve"; "pay"; "ship"] data (clock w);
               compensate_frame "s1" error (clock w) "reserve";
               failed_frame "s1" "pay" error (clock w)] w))
        /\ getSagaStatus "s1" (snd run) = None).
Proof.
  split.
  - intros m w sagaId failedStep error steps i Hm Hi compensations.
    pose proof (handleStepFailed_run m w sagaId failedStep error steps i Hm Hi) as Hrun.
    cbv zeta in Hrun. fold compensations in Hrun.
    split; [by apply indexOf_Some|]. split; intros Hch; rewrite Hrun.
    + by rewrite decide_True.
    + rewrite decide_False by lia. by rewrite decide_True.
  - intros m w data error Hch run.
    assert (Hrun : run
      = (Resolved tt,
         (delete "s1" m,
          after_publishes
            [start_frame "s1" ["reserve"; "pay"; "ship"] data (clock w);
             compensate_frame "s1" error (clock w) "reserve";
             failed_frame "s1" "pay" error (clock w)] w))).
    { unfold run. unfold bind at 1. rewrite startSaga_run by lia.
      rewrite (handleStepFailed_run _ _ _ _ _ ["reserve"; "pay"; "ship"] 1%nat)
        by (by rewrite ?lookup_insert_eq).
      rewrite decide_True by (simpl; lia). simpl.
      rewrite delete_insert_eq.
      by rewrite (after_publishes_cons _ [_; _]) by lia. }
    split; [exact Hrun|]. rewrite Hrun. unfold getSagaStatus. simpl.
    by rewrite lookup_delete_eq.
Qed.

End SagaFailure.

Lemma handleStepFailed_compensates_in_reverse_witness :
  handleStepFailed "order-7" "ship" "card declined"
    ({["order-7" := ["reserve"; "pay"; "ship"]]}, quiet_world 1000 5 tt)
  = (Resolved tt,
     (delete "order-7" {["order-7" := ["reserve"; "pay"; "ship"]]},
      after_publishes
        [compensate_frame "order-7" "card declined" 1000 "pay";
         compensate_frame "order-7" "card declined" 1000 "reserve";
         failed_frame "order-7" "ship" "card declined" 1000]
        (quiet_world 1000 5 tt)))
  /\ handleStepFailed "order-7" "ship" "card declined"
       ({["order-7" := ["reserve"; "pay"; "ship"]]}, quiet_world 1000 2 tt)
     = (Rejected (MessagingError "No active channel available"),
        (delete "order-7" {["order-7" := ["reserve"; "pay"; "ship"]]},
         after_publishes
           [compensate_frame "order-7" "card declined" 1000 "pay";
            compensate_frame "order-7" "card declined" 1000 "reserve"]
           (quiet_world 1000 2 tt)))
  /\ getSagaStatus "s1"
       (snd ((startSaga "s1" ["reserve"; "pay"; "ship"] "order 42" >>>
              handleStepFailed "s1" "pay" "card declined")
               (∅, quiet_world 1000 3 tt)))
     = None.
Proof.
  destruct (@handleStepFailed_compensates_in_reverse string unit) as [general scenario].
  split; [|split].
  - destruct (general {["order-7" := ["reserve"; "pay"; "ship"]]} (quiet_world 1000 5 tt)
                "order-7" "ship" "card declined" ["reserve"; "pay"; "ship"] 2%nat)
      as (_ & run & _); [apply lookup_singleton_eq | reflexivity |].
    apply run. simpl. lia.
  - destruct (general {["order-7" := ["reserve"; "pay"; "ship"]]} (quiet_world 1000 2 tt)
                "order-7" "ship" "card declined" ["reserve"; "pay"; "ship"] 2%nat)
      as (_ & _ & lost); [apply lookup_singleton_eq | reflexivity |].
    apply lost. reflexivity.
  - destruct (scenario ∅ (quiet_world 1000 3 tt) "order 42" "card declined") as [_ gone].
    + simpl. lia.
    + exact gone.
Defined.
Section SagaCompletion.

Context {D A : Type}.
Implicit Types (m : gmap string (list string)) (w : World (SagaMessage D) A).

Lemma handleStepComplete_unknown m w sagaId completedStep (result : D) :
  m !! sagaId = None ->
  handleStepComplete sagaId completedStep result (m, w) = (Resolved tt, (m, w)).
Proof. intros Hm. unfold handleStepComplete. unfold_async. by rewrite Hm. Qed.

Lemma handleStepComplete_absent m w sagaId completedStep (result : D) steps :
  m !! sagaId = Some steps ->
  indexOf completedStep steps = None ->
  handleStepComplete sagaId completedStep result (m, w) = (Resolved tt, (m, w)).
Proof. intros Hm Hi. unfold handleStepComplete. unfold_async. by rewrite Hm, Hi. Qed.

Lemma handleStepComplete_last m w sagaId completedStep (result : D) steps i :
  m !! sagaId = Some steps ->
  indexOf completedStep steps = Some i ->
  drop (S i) steps = [] ->
  handleStepComplete sagaId completedStep result (m, w)
  = discard (on_world (publish "saga" "saga.completed"
      (CompletedMessage sagaId result) no_options)) (delete sagaId m, w).
Proof.
  intros Hm Hi Hd. unfold handleStepComplete. unfold bind at 1, get. simpl.
  rewrite Hm, Hi. simpl in Hd. rewrite Hd. reflexivity.
Qed.

Lemma handleStepComplete_next m w sagaId completedStep (result : D) steps i next rest :
  m !! sagaId = Some steps ->
  indexOf completedStep steps = Some i ->
  drop (S i) steps = next :: rest ->
  handleStepComplete sagaId completedStep result (m, w)
  = discard (on_world (publish "saga" "saga.continue"
      (StepMessage sagaId (Some next) result rest) no_options)) (m, w).
Proof.
  intros Hm Hi Hd. unfold handleStepComplete. unfold bind at 1, get. simpl.
  rewrite Hm, Hi. simpl in Hd. rewrite Hd. simpl. by rewrite drop_0.
Qed.

Lemma one_publish (f : Frame (SagaMessage D)) w :
  channel w ≠ O ->
  use_channel (send (Published f) w) = after_publishes [f] w.
Proof. intros Hch. by rewrite <- (after_publishes_cons f []), after_publishes_nil. Qed.

Lemma world_changed (f : Frame (SagaMessage D)) w : after_publishes [f] w ≠ w.
Proof.
  intros Heq. apply (f_equal (fun x => length (wire x))) in Heq.
  simpl in Heq. rewrite length_app in Heq. simpl in Heq. lia.
Qed.

(** C1, as the code has it. A completion notice is ignored (nothing stored
    changes, nothing is published) exactly when the saga is unknown or the
    step occurs nowhere in the list kept for it. A step that occurs in the
    list, at its head or further down, advances the saga from its first
    occurrence: the last step deletes the saga and publishes
    [saga.completed]; any other step publishes [saga.continue] for the step
    after it and leaves the stored list as it is. *)
Theorem handleStepComplete_ignores_absent_steps_only
    m w sagaId completedStep (result : D) :
  (handleStepComplete sagaId completedStep result (m, w) = (Resolved tt, (m, w))
   <-> (m !! sagaId = None
        \/ exists steps, m !! sagaId = Some steps /\ completedStep ∉ steps))
  /\ (forall steps i,
        m !! sagaId = Some steps ->
        indexOf completedStep steps = Some i ->
        channel w ≠ O ->
        match drop (S i) steps with
        | [] =>
            handleStepComplete sagaId completedStep result (m, w)
            = (Resolved tt,
               (delete sagaId m,
                after_publishes [completed_frame sagaId result (clock w)] w))
        | nextStep :: rest =>
            handleStepComplete sagaId completedStep result (m, w)
            = (Resolved tt,
               (m, after_publishes
                     [continue_frame sagaId nextStep result rest (clock w)] w))
        end).
Proof.
  assert (Hadv : forall steps i,
        m !! sagaId = Some steps ->
        indexOf completedStep steps = Some i ->
        channel w ≠ O ->
        match drop (S i) steps with
        | [] =>
            handleStepComplete sagaId completedStep result (m, w)
            = (Resolved tt,
               (delete sagaId m,
                after_publishes [completed_frame sagaId result (clock w)] w))
        | nextStep :: rest =>
            handleStepComplete sagaId completedStep result (m, w)
            = (Resolved tt,
               (m, after_publishes
                     [continue_frame sagaId nextStep result rest (clock w)] w))
        end).
  { intros steps i Hm Hi Hch. destruct (drop (S i) steps) as [|next rest] eqn:Hd.
    - rewrite (handleStepComplete_last _ _ _ _ _ _ _ Hm Hi Hd).
      rewrite publish_event by done. by rewrite one_publish.
    - rewrite (handleStepComplete_next _ _ _ _ _ _ _ _ _ Hm Hi Hd).
      rewrite publish_event by done. by rewrite one_publish. }
  split; [|exact Hadv]. split.
  - intros Hrun. destruct (m !! sagaId) as [steps|] eqn:Hm; [|by left].
    right. exists steps. split; [done|]. apply indexOf_None.
    destruct (indexOf completedStep steps) as [i|] eqn:Hi; [exfalso|done].
    destruct (channel w) as [|k] eqn:Hch.
    + destruct (drop (S i) steps) as [|next rest] eqn:Hd.
      * rewrite (handleStepComplete_last _ _ _ _ _ _ _ Hm Hi Hd) in Hrun.
        rewrite publish_event_closed in Hrun by done. discriminate.
      * rewrite (handleStepComplete_next _ _ _ _ _ _ _ _ _ Hm Hi Hd) in Hrun.
        rewrite publish_event_closed in Hrun by done. discriminate.
    + specialize (Hadv steps i eq_refl Hi ltac:(lia)).
      destruct (drop (S i) steps); rewrite Hadv in Hrun;
        injection Hrun; intros;
        match goal with
        | Hw : after_publishes _ _ = _ |- _ => by apply world_changed in Hw
        end.
  - intros [Hm | (steps & Hm & Hnot)].
    + by apply handleStepComplete_unknown.
    + apply (handleStepComplete_absent _ _ _ _ _ steps); [done|].
      by apply indexOf_None.
Qed.

End SagaCompletion.

Lemma handleStepComplete_ignores_absent_steps_only_witness :
  handleStepComplete "s1" "pay" "paid"
    ({["s1" := ["reserve"; "pay"; "ship"]]}, quiet_world 0 1 tt)
  = (Resolved tt,
     ({["s1" := ["reserve"; "pay"; "ship"]]},
      after_publishes [continue_frame "s1" "ship" "paid" [] 0] (quiet_world 0 1 tt))).
Proof.
  destruct (@handleStepComplete_ignores_absent_steps_only string unit
              {["s1" := ["reserve"; "pay"; "ship"]]} (quiet_world 0 1 tt)
              "s1" "pay" "paid") as [_ advance].
  apply (advance ["reserve"; "pay"; "ship"] 1%nat).
  - apply lookup_singleton_eq.
  - reflexivity.
  - simpl. lia.
Defined.

(** C1, as the specification words it, fails: right after
    [startSaga("s1", ["reserve","pay","ship"])] a completion notice for
    ["ship"], which is not the head of the list, ends the saga. *)
Lemma completion_of_non_head_is_followed :
  ~ completion_of_non_head_is_ignored string unit.
Proof.
  intros claim.
  specialize (claim {["s1" := ["reserve"; "pay"; "ship"]]} (quiet_world 0 1 tt)
                "s1" "ship" "shipped").
  lapply claim.
  - intros Hsame.
    apply (f_equal (fun r => (fst r, (fst (snd r) !! "s1", wire (snd (snd r)))))) in Hsame.
    vm_compute in Hsame. discriminate.
  - intros steps Hm. rewrite lookup_singleton_eq in Hm.
    injection Hm as <-. simpl. congruence.
Qed.
Section SagaStoredList.

Context {D A : Type}.
Implicit Types (m : gmap string (list string)) (w : World (SagaMessage D) A).

Lemma discard_publish_keeps_map rk (body : SagaMessage D) m w :
  fst (snd (discard (on_world (publish "saga" rk body no_options)) (m, w))) = m.
Proof.
  destruct (channel w) as [|k] eqn:Hch.
  - by rewrite publish_event_closed.
  - by rewrite publish_event by lia.
Qed.

Lemma handleStepFailed_absent m w sagaId failedStep (error : D) steps :
  m !! sagaId = Some steps ->
  indexOf failedStep steps = None ->
  handleStepFailed sagaId failedStep error (m, w) = (Resolved tt, (m, w)).
Proof. intros Hm Hi. unfold handleStepFailed. unfold_async. by rewrite Hm, Hi. Qed.

(** C10. [handleStepComplete] never rewrites the list stored by
    [startSaga]: it leaves the map as it is or deletes the saga's entry, and
    it deletes exactly when nothing follows the first occurrence of the
    completed step. After a completion that leaves steps to do,
    [getSagaStatus] and [getAllActiveSagas] still show the full list.
    [handleStepFailed] too only keeps or deletes the entry. So a second
    notice for the same completed step publishes the same [saga.continue]
    event once more. *)
Theorem stored_steps_change_only_by_deletion
    m w sagaId completedStep (result : D) steps :
  m !! sagaId = Some steps ->
  let after := snd (handleStepComplete sagaId completedStep result (m, w)) in
  (fst after = m \/ fst after = delete sagaId m)
  /\ (fst after = delete sagaId m
      <-> exists i, indexOf completedStep steps = Some i /\ drop (S i) steps = [])
  /\ (forall i,
        indexOf completedStep steps = Some i ->
        drop (S i) steps ≠ [] ->
        getSagaStatus sagaId after = Some (steps, true)
        /\ getAllActiveSagas after !! sagaId = Some steps)
  /\ (forall failedStep (error : D),
        let after_failure := snd (handleStepFailed sagaId failedStep error (m, w)) in
        fst after_failure = m \/ fst after_failure = delete sagaId m)
  /\ (forall i nextStep rest,
        indexOf completedStep steps = Some i ->
        drop (S i) steps = nextStep :: rest ->
        (2 <= channel w)%nat ->
        (handleStepComplete sagaId completedStep result >>>
         handleStepComplete sagaId completedStep result) (m, w)
        = (Resolved tt,
           (m, after_publishes
                 [continue_frame sagaId nextStep result rest (clock w);
                  continue_frame sagaId nextStep result rest (clock w)] w))).
Proof.
  intros Hm after.
  assert (Hne : delete sagaId m ≠ m).
  { intros Heq. apply (f_equal (fun x => x !! sagaId)) in Heq.
    rewrite lookup_delete_eq, Hm in Heq. discriminate. }
  assert (Hcases :
    (exists i, indexOf completedStep steps = Some i /\ drop (S i) steps = []
               /\ fst after = delete sagaId m)
    \/ ((forall i, indexOf completedStep steps = Some i -> drop (S i) steps ≠ [])
        /\ fst after = m)).
  { unfold after. destruct (indexOf completedStep steps) as [i|] eqn:Hi.
    - destruct (drop (S i) steps) as [|next rest] eqn:Hd.
      + left. exists i. repeat split; try done.
        rewrite (handleStepComplete_last _ _ _ _ _ _ _ Hm Hi Hd).
        apply discard_publish_keeps_map.
      + right. split; [intros j [= <-]; by rewrite Hd|].
        rewrite (handleStepComplete_next _ _ _ _ _ _ _ _ _ Hm Hi Hd).
        apply discard_publish_keeps_map.
    - right. split; [done|].
      by rewrite (handleStepComplete_absent _ _ _ _ _ _ Hm Hi). }
  split; [|split; [|split; [|split]]].
  - destruct Hcases as [(i & _ & _ & H) | [_ H]]; auto.
  - split.
    + intros Hdel. destruct Hcases as [(i & Hi & Hd & _) | [_ H]]; [eauto|].
      congruence.
    + intros (i & Hi & Hd). destruct Hcases as [(_ & _ & _ & H) | [Hnot _]]; [done|].
      by destruct (Hnot i Hi).
  - intros i Hi Hd. destruct Hcases as [(j & Hj & Hdj & _) | [_ H]].
    + rewrite Hi in Hj. injection Hj as <-. done.
    + unfold getSagaStatus, getAllActiveSagas. rewrite H, Hm. done.
  - intros failedStep error after_failure. unfold after_failure.
    destruct (indexOf failedStep steps) as [i|] eqn:Hi.
    + rewrite (handleStepFailed_run _ _ _ _ _ _ _ Hm Hi).
      repeat case_decide; simpl; auto.
    + rewrite (handleStepFailed_absent _ _ _ _ _ _ Hm Hi). auto.
  - intros i next rest Hi Hd Hch. unfold bind at 1.
    rewrite (handleStepComplete_next _ _ _ _ _ _ _ _ _ Hm Hi Hd).
    rewrite publish_event by lia.
    rewrite (handleStepComplete_next _ _ _ _ _ _ _ _ _ Hm Hi Hd).
    rewrite publish_event by (simpl; lia). simpl.
    rewrite (one_publish _ w) by lia.
    by rewrite (after_publishes_snoc _ [_]) by (simpl; lia).
Qed.

End SagaStoredList.

Lemma stored_steps_change_only_by_deletion_witness :
  (handleStepComplete "s1" "reserve" "reserved" >>>
   handleStepComplete "s1" "reserve" "reserved")
    ({["s1" := ["reserve"; "pay"; "ship"]]}, quiet_world 0 2 tt)
  = (Resolved tt,
     ({["s1" := ["reserve"; "pay"; "ship"]]},
      after_publishes
        [continue_frame "s1" "pay" "reserved" ["ship"] 0;
         continue_frame "s1" "pay" "reserved" ["ship"] 0] (quiet_world 0 2 tt))).
Proof.
  destruct (@stored_steps_change_only_by_deletion string unit
              {["s1" := ["reserve"; "pay"; "ship"]]} (quiet_world 0 2 tt)
              "s1" "reserve" "reserved" ["reserve"; "pay"; "ship"])
    as (_ & _ & _ & _ & again).
  - apply lookup_singleton_eq.
  - apply (again 0%nat "pay" ["ship"]); [reflexivity | reflexivity | simpl; lia].
Defined.
(** ** CircuitBreaker *)

Section BreakerFacts.

Context {P A T : Type}.
Implicit Types (self : CircuitBreaker) (w : World P A) (operation : Operation P A T).

Lemma attempt_run self w operation :
  attempt operation (self, w)
  = (fst (settle_breaker self (fst (operation w)) (clock (snd (operation w)))),
     (snd (settle_breaker self (fst (operation w)) (clock (snd (operation w)))),
      snd (operation w))).
Proof.
  unfold attempt, race. unfold_async.
  destruct (operation w) as [[value|error|] w']; reflexivity.
Qed.

Lemma open_check_passes self w :
  state self ≠ OPEN -> open_check (self, w) = (Resolved tt, (self, w)).
Proof. intros Hs. unfold open_check. unfold_async. by rewrite decide_False. Qed.

Lemma open_check_half_opens self w :
  state self = OPEN ->
  resetTimeout (config self) < clock w - lastFailureTime self ->
  open_check (self, w) = (Resolved tt, (set_state HALF_OPEN self, w)).
Proof.
  intros Hs Ht. unfold open_check. unfold_async. rewrite decide_True by done.
  destruct (Z.ltb_spec (resetTimeout (config self)) (clock w - lastFailureTime self));
    [reflexivity | lia].
Qed.

Lemma open_check_rejects self w :
  state self = OPEN ->
  clock w - lastFailureTime self <= resetTimeout (config self) ->
  open_check (self, w)
  = (Rejected (TypeError "types_1.CircuitBreakerError is not a constructor"), (self, w)).
Proof.
  intros Hs Ht. unfold open_check. unfold_async. rewrite decide_True by done.
  destruct (Z.ltb_spec (resetTimeout (config self)) (clock w - lastFailureTime self));
    [lia | reflexivity].
Qed.

Lemma execute_rejects self w operation :
  state self = OPEN ->
  clock w - lastFailureTime self <= resetTimeout (config self) ->
  execute operation (self, w)
  = (Rejected (TypeError "types_1.CircuitBreakerError is not a constructor"), (self, w)).
Proof. intros Hs Ht. unfold execute, bind. by rewrite open_check_rejects. Qed.

Lemma execute_passes self w operation :
  state self ≠ OPEN ->
  execute operation (self, w) = attempt operation (self, w).
Proof. intros Hs. unfold execute, bind. by rewrite open_check_passes. Qed.

Lemma execute_probes self w operation :
  state self = OPEN ->
  resetTimeout (config self) < clock w - lastFailureTime self ->
  execute operation (self, w) = attempt operation (set_state HALF_OPEN self, w).
Proof. intros Hs Ht. unfold execute, bind. by rewrite open_check_half_opens. Qed.

Lemma onSuccess_closes self :
  state self ≠ OPEN ->
  state (onSuccess self) = CLOSED /\ failures (onSuccess self) = 0
  /\ config (onSuccess self) = config self.
Proof.
  intros Hs. unfold onSuccess. simpl.
  destruct self as [n [] f l c]; simpl in *; try done.
Qed.

Lemma onFailure_counts now self :
  failures (onFailure now self) = failures self + 1
  /\ lastFailureTime (onFailure now self) = now
  /\ config (onFailure now self) = config self
  /\ state (onFailure now self)
     = (if failureThreshold (config self) <=? failures self + 1 then OPEN else state self).
Proof.
  unfold onFailure. simpl.
  destruct (failureThreshold (config self) <=? failures self + 1); done.
Qed.

Lemma settle_breaker_invariant self (r : Settled T) now :
  state self ≠ OPEN ->
  breaker_invariant self ->
  breaker_invariant (snd (settle_breaker self r now)).
Proof.
  intros Hs [Hclosed Hother].
  assert (Hfail : breaker_invariant (onFailure now self)).
  { destruct (onFailure_counts now self) as (Hf & _ & Hc & Hst).
    unfold breaker_invariant. rewrite Hf, Hc, Hst.
    destruct (Z.leb_spec (failureThreshold (config self)) (failures self + 1)).
    - split; [discriminate | intros _; lia].
    - split; intros H'; [specialize (Hclosed H') | specialize (Hother H')]; lia. }
  destruct r; simpl; try exact Hfail.
  destruct (onSuccess_closes self Hs) as (Hst & Hf & Hc).
  unfold breaker_invariant. rewrite Hst, Hf, Hc. split; [by left | done].
Qed.

Lemma execute_invariant self w operation :
  breaker_invariant self ->
  breaker_invariant (fst (snd (execute operation (self, w)))).
Proof.
  intros Hinv. destruct (decide (state self = OPEN)) as [Hs|Hs].
  - destruct (Z.lt_ge_cases (resetTimeout (config self)) (clock w - lastFailureTime self)).
    + rewrite execute_probes, attempt_run by done. simpl.
      apply settle_breaker_invariant; [done|].
      destruct Hinv as [_ Hother]. split; simpl; [discriminate|].
      intros _. apply Hother. congruence.
    + by rewrite execute_rejects by (done || lia).
  - rewrite execute_passes, attempt_run by done. simpl.
    by apply settle_breaker_invariant.
Qed.

Lemma reachable_invariant self : @reachable P A T self -> breaker_invariant self.
Proof.
  induction 1 as [name given | self w operation _ IH].
  - split; simpl; [by left | done].
  - by apply execute_invariant.
Qed.

End BreakerFacts.
Section BreakerRuns.

Context {P A T : Type}.
Implicit Types (self : CircuitBreaker) (w : World P A) (operation : Operation P A T).

Lemma execute_config self w operation :
  config (fst (snd (execute operation (self, w)))) = config self.
Proof.
  destruct (decide (state self = OPEN)) as [Hs|Hs].
  - destruct (Z.lt_ge_cases (resetTimeout (config self)) (clock w - lastFailureTime self)).
    + rewrite execute_probes, attempt_run by done. simpl.
      destruct (fst (operation w)); simpl;
        unfold onSuccess, onFailure; simpl; repeat case_decide;
        try destruct (_ <=? _); reflexivity.
    + by rewrite execute_rejects by (done || lia).
  - rewrite execute_passes, attempt_run by done. simpl.
    destruct (fst (operation w)); simpl;
      unfold onSuccess, onFailure; simpl; repeat case_decide;
      try destruct (_ <=? _); reflexivity.
Qed.

(** A closed breaker counts every failed call, and opens with the call that
    brings the counter to the threshold. *)
Lemma closed_breaker_counts (operations : list (Operation P A T)) : forall self w,
  state self = CLOSED ->
  0 <= failures self < failureThreshold (config self) ->
  failures self + Z.of_nat (length operations) <= failureThreshold (config self) ->
  Forall is_rejected (fst (execute_all operations (self, w))) ->
  let self' := fst (snd (execute_all operations (self, w))) in
  failures self' = failures self + Z.of_nat (length operations)
  /\ state self'
     = (if failureThreshold (config self) <=? failures self' then OPEN else CLOSED).
Proof.
  induction operations as [|operation rest IH]; intros self w Hs Hf Hlen Hall; simpl.
  - rewrite Z.add_0_r. split; [done|].
    destruct (Z.leb_spec (failureThreshold (config self)) (failures self)); [lia | done].
  - simpl in Hall, Hlen.
    pose proof (execute_config self w operation) as Hcfg.
    rewrite execute_passes, attempt_run in * by congruence.
    destruct (execute_all rest _) as [rs s''] eqn:Hrest. simpl in *.
    apply Forall_cons in Hall as [Hr Hrs].
    remember (snd (settle_breaker self (fst (operation w)) (clock (snd (operation w)))))
      as self1 eqn:Hself1.
    assert (H1 : self1 = onFailure (clock (snd (operation w))) self).
    { rewrite Hself1. destruct (fst (operation w)); simpl in *; done. }
    clear Hself1 Hr.
    destruct (onFailure_counts (clock (snd (operation w))) self) as (Hf' & _ & Hc' & Hst').
    rewrite <- H1 in Hf', Hc', Hst'. clear H1.
    destruct (Z.leb_spec (failureThreshold (config self)) (failures self + 1)) as [Hge|Hlt].
    + destruct rest as [|? ?]; [|simpl in Hlen; lia].
      simpl in Hrest. injection Hrest as <- <-. simpl. rewrite Hf', Hst'.
      split; [lia|].
      destruct (Z.leb_spec (failureThreshold (config self)) (failures self + 1));
        [done | lia].
    + destruct (IH self1 (snd (operation w))) as [IHf IHs];
        [congruence | rewrite Hf', Hc'; lia | rewrite Hf', Hc'; lia
        | by rewrite Hrest |].
      rewrite Hrest in IHf, IHs. simpl in IHf, IHs.
      rewrite Hc' in IHs. rewrite Hf' in IHf. split; [lia | done].
Qed.

End BreakerRuns.
Section BreakerClaims.

Context {P A T : Type}.
Implicit Types (self : CircuitBreaker) (w : World P A) (operation : Operation P A T).

Lemma execute_all_app (xs ys : list (Operation P A T)) s :
  execute_all (xs ++ ys) s
  = (fst (execute_all xs s) ++ fst (execute_all ys (snd (execute_all xs s))),
     snd (execute_all ys (snd (execute_all xs s)))).
Proof.
  revert s. induction xs as [|x xs IH]; intros s; simpl.
  - by destruct (execute_all ys s).
  - destruct (execute x s) as [r s1]. rewrite IH.
    destruct (execute_all xs s1) as [rs s2]. simpl.
    by destruct (execute_all ys s2).
Qed.

Lemma probe_run self w operation :
  breaker_invariant self ->
  state self = OPEN ->
  resetTimeout (config self) < clock w - lastFailureTime self ->
  let self' := fst (snd (execute operation (self, w))) in
  snd (snd (execute operation (self, w))) = snd (operation w)
  /\ (forall value,
        fst (operation w) = Fulfilled value ->
        fst (execute operation (self, w)) = Resolved value
        /\ state self' = CLOSED /\ failures self' = 0)
  /\ (has_failed (fst (operation w)) ->
      is_rejected (fst (execute operation (self, w)))
      /\ state self' = OPEN
      /\ failures self' = failures self + 1
      /\ lastFailureTime self' = clock (snd (operation w))).
Proof.
  intros [_ Hinv] Hs Ht self'. unfold self'.
  rewrite execute_probes, attempt_run by done. simpl.
  split; [done|]. split.
  - intros value ->. simpl. done.
  - destruct (onFailure_counts (clock (snd (operation w))) (set_state HALF_OPEN self))
      as (Hf & Hl & _ & Hst).
    simpl in Hf, Hst.
    assert (Hopen : state (onFailure (clock (snd (operation w))) (set_state HALF_OPEN self))
                    = OPEN).
    { rewrite Hst.
      destruct (Z.leb_spec (failureThreshold (config self)) (failures self + 1));
        [done|].
      assert (failureThreshold (config self) <= failures self) by (apply Hinv; congruence).
      lia. }
    destruct (fst (operation w)); simpl; done.
Qed.

(** C3. (a) A closed breaker with a counter at zero stays [CLOSED] through
    fewer consecutive failed calls than the threshold and is [OPEN] after
    exactly that many. (b) While [OPEN] and not later than [resetTimeout]
    after the last failure, [execute] rejects and leaves breaker and world
    as they are, whatever the operation, which is not run; but the error it
    rejects with is not the breaker-open error the [throw] names: it is the
    [TypeError] of calling [new] on a class the module does not get from
    its import. (c) While
    [OPEN] and later than that, [execute] moves to [HALF_OPEN], runs the
    operation once on the world as it is, and ends [CLOSED] with the counter
    at zero if the operation succeeds and [OPEN] again if it fails. *)
Theorem circuit_breaker_transitions :
  (forall self w (operations : list (Operation P A T)),
      state self = CLOSED ->
      failures self = 0 ->
      1 <= failureThreshold (config self) ->
      Z.of_nat (length operations) = failureThreshold (config self) ->
      Forall is_rejected (fst (execute_all operations (self, w))) ->
      state (fst (snd (execute_all operations (self, w)))) = OPEN
      /\ (forall n, (n < length operations)%nat ->
            state (fst (snd (execute_all (take n operations) (self, w)))) = CLOSED))
  /\ (forall self w operation,
        state self = OPEN ->
        clock w - lastFailureTime self <= resetTimeout (config self) ->
        execute operation (self, w)
        = (Rejected (TypeError "types_1.CircuitBreakerError is not a constructor"),
           (self, w))
        /\ fst (execute operation (self, w))
           ≠ Rejected (CircuitBreakerError (serviceName self)))
  /\ (forall self w operation,
        @reachable P A T self ->
        state self = OPEN ->
        resetTimeout (config self) < clock w - lastFailureTime self ->
        let self' := fst (snd (execute operation (self, w))) in
        open_check (self, w) = (Resolved tt, (set_state HALF_OPEN self, w))
        /\ snd (snd (execute operation (self, w))) = snd (operation w)
        /\ (forall value,
              fst (operation w) = Fulfilled value ->
              fst (execute operation (self, w)) = Resolved value
              /\ state self' = CLOSED /\ failures self' = 0)
        /\ (has_failed (fst (operation w)) ->
            is_rejected (fst (execute operation (self, w)))
            /\ state self' = OPEN)).
Proof.
  split; [|split].
  - intros self w operations Hs Hf Hth Hlen Hall. split.
    + destruct (closed_breaker_counts operations self w) as [Hcount Hstate];
        [done | lia | lia | done |].
      rewrite Hstate, Hcount.
      destruct (Z.leb_spec (failureThreshold (config self))
                  (failures self + Z.of_nat (length operations))); [done | lia].
    + intros n Hn.
      assert (Hprefix : Forall is_rejected
                (fst (execute_all (take n operations) (self, w)))).
      { rewrite <- (take_drop n operations), execute_all_app in Hall. simpl in Hall.
        by apply Forall_app in Hall as [? _]. }
      assert (Hlen' : length (take n operations) = n) by (rewrite length_take; lia).
      destruct (closed_breaker_counts (take n operations) self w) as [Hcount Hstate];
        [done | lia | lia | done |].
      rewrite Hstate, Hcount, Hlen'.
      destruct (Z.leb_spec (failureThreshold (config self))
                  (failures self + Z.of_nat n)); [lia | done].
  - intros self w operation Hs Ht. rewrite execute_rejects by done. by split.
  - intros self w operation Hreach Hs Ht self'.
    destruct (probe_run self w operation (reachable_invariant self Hreach) Hs Ht)
      as (Hworld & Hok & Hfail).
    split; [by apply open_check_half_opens|]. split; [done|]. split; [done|].
    intros Hfailed. destruct (Hfail Hfailed) as (? & ? & _). done.
Qed.

End BreakerClaims.
Lemma after_two_failures_reachable : @reachable unit nat string (fst after_two_failures).
Proof.
  unfold after_two_failures.
  apply (reachable_execute _ _ gateway_down).
  apply (reachable_execute _ _ gateway_down).
  apply reachable_new.
Qed.

Lemma circuit_breaker_transitions_witness :
  state (fst (snd (execute_all [gateway_down; gateway_down]
                     (payments_breaker, quiet_world 0 1 O)))) = OPEN
  /\ execute gateway_up (fst after_two_failures, at_time 20000 (snd after_two_failures))
     = (Rejected (TypeError "types_1.CircuitBreakerError is not a constructor"),
        (fst after_two_failures, at_time 20000 (snd after_two_failures)))
  /\ (state (fst (snd (execute gateway_up
               (fst after_two_failures, at_time 40000 (snd after_two_failures)))))
      = CLOSED
      /\ app (snd (snd (execute gateway_up
               (fst after_two_failures, at_time 40000 (snd after_two_failures)))))
         = 3%nat).
Proof.
  destruct (@circuit_breaker_transitions unit nat string) as (count & early & late).
  split; [|split].
  - apply (count payments_breaker (quiet_world 0 1 O) [gateway_down; gateway_down]);
      [reflexivity | reflexivity | vm_compute; discriminate | reflexivity |].
    vm_compute. repeat constructor.
  - apply (early (fst after_two_failures)); [reflexivity | vm_compute; discriminate].
  - destruct (late (fst after_two_failures)
                (at_time 40000 (snd after_two_failures)) gateway_up)
      as (_ & Hworld & Hok & _);
      [apply after_two_failures_reachable | reflexivity | vm_compute; reflexivity |].
    split.
    + apply (Hok "authorized"). reflexivity.
    + rewrite Hworld. reflexivity.
Defined.

Section BreakerCounter.

Context {P A T : Type}.
Implicit Types (self : CircuitBreaker) (w : World P A) (operation : Operation P A T).

(** C8, as the code has it. The counter goes back to zero on every
    successful call. With a positive threshold a [CLOSED] breaker has a
    counter below the threshold, and a failed call opens it exactly when the
    counter it leaves equals the threshold. A failed [HALF_OPEN] probe opens
    the breaker again with a counter above the threshold: opening does not
    reset the counter, and [onFailure] tests [failures >= failureThreshold]. *)
Theorem breaker_opens_from_closed_at_the_threshold self w operation :
  @reachable P A T self ->
  1 <= failureThreshold (config self) ->
  let self' := fst (snd (execute operation (self, w))) in
  (state self = CLOSED ->
   (forall value, fst (operation w) = Fulfilled value ->
      failures self' = 0 /\ state self' = CLOSED)
   /\ 0 <= failures self < failureThreshold (config self)
   /\ (has_failed (fst (operation w)) ->
       failures self' = failures self + 1
       /\ (state self' = OPEN <-> failures self' = failureThreshold (config self))
       /\ (state self' ≠ OPEN -> state self' = CLOSED)))
  /\ (state self = OPEN ->
      resetTimeout (config self) < clock w - lastFailureTime self ->
      (forall value, fst (operation w) = Fulfilled value ->
         failures self' = 0 /\ state self' = CLOSED)
      /\ (has_failed (fst (operation w)) ->
          state self' = OPEN
          /\ failures self' = failures self + 1
          /\ failureThreshold (config self) < failures self')).
Proof.
  intros Hreach Hth self'.
  pose proof (reachable_invariant self Hreach) as Hinv.
  split.
  - intros Hs. destruct Hinv as [Hclosed _]. specialize (Hclosed Hs).
    unfold self'. rewrite execute_passes, attempt_run by congruence. simpl.
    split; [|split; [lia|]].
    + intros value ->. simpl.
      destruct (onSuccess_closes self) as (? & ? & _); [congruence | done].
    + intros Hfailed.
      destruct (onFailure_counts (clock (snd (operation w))) self) as (Hf & _ & _ & Hst).
      assert (Hnow : snd (settle_breaker self (fst (operation w))
                            (clock (snd (operation w))))
                     = onFailure (clock (snd (operation w))) self)
        by (destruct (fst (operation w)); simpl in *; done).
      rewrite Hnow, Hf, Hst, Hs.
      destruct (Z.leb_spec (failureThreshold (config self)) (failures self + 1)).
      * split; [done|]. split; [split; [lia | done] | done].
      * split; [done|]. split; [split; [discriminate | lia] | done].
  - intros Hs Ht.
    destruct (probe_run self w operation Hinv Hs Ht) as (_ & Hok & Hfail).
    split.
    + intros value Hv. by destruct (Hok value Hv) as (_ & ? & ?).
    + intros Hfailed. destruct (Hfail Hfailed) as (_ & Hopen & Hf & _).
      fold self' in Hopen, Hf. destruct Hinv as [_ Hother].
      assert (failureThreshold (config self) <= failures self)
        by (apply Hother; congruence).
      split; [done|]. split; [done | lia].
Qed.

End BreakerCounter.

Lemma breaker_opens_from_closed_at_the_threshold_witness :
  state (fst (snd (execute gateway_down
           (fst after_two_failures, at_time 40000 (snd after_two_failures))))) = OPEN
  /\ failures (fst (snd (execute gateway_down
           (fst after_two_failures, at_time 40000 (snd after_two_failures)))))
     = failures (fst after_two_failures) + 1.
Proof.
  destruct (@breaker_opens_from_closed_at_the_threshold unit nat string
              (fst after_two_failures) (at_time 40000 (snd after_two_failures))
              gateway_down) as [_ reopen].
  - apply after_two_failures_reachable.
  - vm_compute. discriminate.
  - destruct reopen as [_ Hfail]; [reflexivity | vm_compute; reflexivity |].
    destruct Hfail as (Hopen & Hcount & _); [exact I|]. split; assumption.
Defined.

(** C8, as the specification words it, fails: a breaker with threshold 2
    that has opened and whose probe fails goes from [HALF_OPEN] to [OPEN]
    with the counter at 3. *)
Lemma breaker_reopens_above_the_threshold :
  ~ opens_only_at_the_threshold unit nat string.
Proof.
  intros claim.
  specialize (claim (fst after_two_failures)
                (at_time 40000 (snd after_two_failures)) gateway_down
                after_two_failures_reachable).
  vm_compute in claim.
  assert (H : 3 = 2) by (apply claim; [discriminate | reflexivity]).
  discriminate H.
Qed.
(** ** The retry paths *)

Section RetryFacts.

Context {P A : Type}.
Implicit Types (w : World P A) (context : MessageContext) (message : P).

Lemma publish_retry message delay given w :
  channel w ≠ O ->
  publish "retry" "retry" message (retry_options delay given) w
  = (Resolved true,
     use_channel (send (Published (retry_frame message delay given (clock w))) w)).
Proof.
  intros Hch. unfold publish. destruct (channel w) as [|k] eqn:E; [congruence|].
  unfold retry_frame, sent_headers, retry_options, or_default. cbn [opt_delay opt_headers
    opt_maxRetries opt_persistent opt_priority opt_expiration opt_correlationId
    opt_replyTo default].
  destruct (Z.eqb_spec delay 0) as [->|Hne].
  - reflexivity.
  - rewrite (proj2 (Z.eqb_neq delay 0) Hne). reflexivity.
Qed.

Lemma retry_frame_counter message delay given now n :
  given !! "retryCount" = Some (HNum n) ->
  retryCount_of (headers (retry_frame message delay given now)) = n.
Proof.
  intros Hg. unfold retryCount_of, retry_frame, sent_headers. simpl.
  assert (Hlook : (given ∪ <["timestamp" := HNum now]>
             (<["retryCount" := HNum 0]> (<["maxRetries" := HNum 3]> ∅)))
           !! "retryCount" = Some (HNum n))
    by (by apply lookup_union_Some_l).
  destruct (delay =? 0).
  - by rewrite Hlook.
  - rewrite lookup_insert_ne by done. by rewrite Hlook.
Qed.

Lemma retry_frame_lookup message delay given now n :
  given !! "retryCount" = Some (HNum n) ->
  headers (retry_frame message delay given now) !! "retryCount" = Some (HNum n).
Proof.
  intros Hg. unfold retry_frame, sent_headers. simpl.
  assert (Hlook : (given ∪ <["timestamp" := HNum now]>
             (<["retryCount" := HNum 0]> (<["maxRetries" := HNum 3]> ∅)))
           !! "retryCount" = Some (HNum n))
    by (by apply lookup_union_Some_l).
  destruct (delay =? 0); [done|]. by rewrite lookup_insert_ne.
Qed.

Lemma natural_counter_nonneg (given : Headers) :
  natural_counter given -> 0 <= retryCount_of given.
Proof.
  unfold natural_counter, retryCount_of.
  destruct (given !! "retryCount") as [[n| |]|]; intros Hn; done || lia.
Qed.

Lemma retry_frame_delay message delay given now :
  delay ≠ 0 ->
  exchange (retry_frame message delay given now) = "delayed"
  /\ headers (retry_frame message delay given now) !! "x-delay" = Some (HNum delay).
Proof.
  intros Hd. unfold retry_frame. simpl.
  destruct (Z.eqb_spec delay 0); [done|]. split; [done|].
  apply lookup_insert_eq.
Qed.

Lemma processor_retry_headers_counter context error :
  processor_retry_headers context error !! "retryCount"
  = Some (HNum (retryCount_of (ctx_headers context) + 1)).
Proof.
  unfold processor_retry_headers.
  rewrite !lookup_insert_ne by done. apply lookup_insert_eq.
Qed.

Lemma connection_retry_headers_counter context :
  connection_retry_headers context !! "retryCount"
  = Some (HNum (retryCount_of (ctx_headers context) + 1)).
Proof.
  unfold connection_retry_headers.
  rewrite !lookup_insert_ne by done. apply lookup_insert_eq.
Qed.

Lemma ack_run context w :
  channel w ≠ O -> ack context w = (Resolved tt, send (Acked (ctx_deliveryTag context)) w).
Proof. intros H. unfold ack, channel_call. by destruct (channel w). Qed.

Lemma nack_run context requeue w :
  channel w ≠ O ->
  nack context requeue w
  = (Resolved tt, send (Nacked (ctx_deliveryTag context) (default true requeue)) w).
Proof. intros H. unfold nack, channel_call. by destruct (channel w). Qed.

(** What [createRetryHandler] does when the wrapped handler fails. *)
Lemma createRetryHandler_on_failure (h : MessageHandler P A) maxRetries baseDelay
    message context w error w1 :
  h message context w = (Rejected error, w1) ->
  createRetryHandler h (Some maxRetries) (Some baseDelay) message context w
  = if retryCount_of (ctx_headers context) <? maxRetries then
      (discard (publish "retry" "retry" message
         (retry_options (baseDelay * 2 ^ retryCount_of (ctx_headers context))
            (processor_retry_headers context error))) >>>
       ack context) w1
    else nack context (Some false) w1.
Proof.
  intros Hh. unfold createRetryHandler, try_catch. rewrite Hh.
  change (default 3 (Some maxRetries)) with maxRetries.
  change (default 1000 (Some baseDelay)) with baseDelay.
  destruct (retryCount_of (ctx_headers context) <? maxRetries); reflexivity.
Qed.

Lemma createRetryHandler_on_success (h : MessageHandler P A) maxRetries baseDelay
    message context w w1 :
  h message context w = (Resolved tt, w1) ->
  createRetryHandler h maxRetries baseDelay message context w = (Resolved tt, w1).
Proof. intros Hh. unfold createRetryHandler, try_catch. rewrite Hh. reflexivity. Qed.

Lemma retry_then_ack message delay given context w :
  (2 <= channel w)%nat ->
  (discard (publish "retry" "retry" message (retry_options delay given)) >>>
   ack context) w
  = (Resolved tt,
     send (Acked (ctx_deliveryTag context))
       (use_channel (send (Published (retry_frame message delay given (clock w))) w))).
Proof.
  intros Hch. unfold discard, bind, ret. rewrite publish_retry by lia.
  rewrite ack_run by (simpl; lia). reflexivity.
Qed.

End RetryFacts.
Section RetryDiscipline.

Context {P A : Type}.
Implicit Types (w : World P A) (context : MessageContext) (message : P).
Implicit Types (h : P -> MessageContext -> A -> Outcome unit * A).

Lemma handleMessageWithRetry_on_failure (handler : MessageHandler P A) options
    message context w error w1 :
  handler message context w = (Rejected error, w1) ->
  handleMessageWithRetry message context handler options w
  = if retryCount_of (ctx_headers context) <? or_default (co_maxRetries options) 3 then
      (discard (publish "retry" "retry" message
         (retry_options
            (or_default (co_retryDelay options) 1000
             * 2 ^ retryCount_of (ctx_headers context))
            (connection_retry_headers context))) >>>
       ack context) w1
    else
      (nack context (Some false) >>>
       throw (RetryExhaustedError "Message processing"
                (or_default (co_maxRetries options) 3))) w1.
Proof.
  intros Hh. unfold handleMessageWithRetry, try_catch. unfold bind at 1. rewrite Hh.
  destruct (retryCount_of (ctx_headers context) <? _); reflexivity.
Qed.

(** The retry branch adds the retry frame, and the acknowledgement after it,
    as far as the channel lasts. *)
Lemma retry_branch_wire message delay given context w n :
  given !! "retryCount" = Some (HNum n) ->
  exists ops,
    wire (snd ((discard (publish "retry" "retry" message (retry_options delay given)) >>>
                ack context) w)) = wire w ++ ops
    /\ (omap is_retry_frame ops = []
        \/ exists f, omap is_retry_frame ops = [f]
                     /\ retryCount_of (headers f) = n /\ content f = message).
Proof.
  intros Hg. destruct (channel w) as [|[|k]] eqn:Hch.
  - exists []. unfold discard, bind. rewrite publish_closed by done.
    simpl. rewrite app_nil_r. auto.
  - exists [Published (retry_frame message delay given (clock w))].
    unfold discard, bind, ret. rewrite publish_retry by lia.
    unfold ack, channel_call. simpl. rewrite Hch. simpl. split; [done|].
    right. eexists. split; [reflexivity|]. split; [|done].
    by apply retry_frame_counter.
  - exists [Published (retry_frame message delay given (clock w));
            Acked (ctx_deliveryTag context)].
    rewrite retry_then_ack by lia. simpl. rewrite <- app_assoc. split; [done|].
    right. eexists. split; [reflexivity|]. split; [|done].
    by apply retry_frame_counter.
Qed.

Lemma channel_call_wire (op : ChannelOp P) w :
  is_retry_frame op = None ->
  exists ops, wire (snd (channel_call op w)) = wire w ++ ops
              /\ omap is_retry_frame ops = [].
Proof.
  intros Hop. unfold channel_call. destruct (channel w).
  - exists []. simpl. by rewrite app_nil_r.
  - exists [op]. simpl. by rewrite Hop.
Qed.

Lemma app_handler_world h message context w :
  wire (snd (app_handler h message context w)) = wire w
  /\ channel (snd (app_handler h message context w)) = channel w
  /\ clock (snd (app_handler h message context w)) = clock w.
Proof. unfold app_handler. by destruct (h message context (app w)). Qed.

Lemma createRetryHandler_discipline h maxRetries baseDelay :
  retry_discipline maxRetries
    (createRetryHandler (app_handler h) (Some maxRetries) (Some baseDelay)).
Proof.
  intros message context w.
  destruct (app_handler_world h message context w) as (Hwire & _ & _).
  destruct (app_handler h message context w) as [[[]|error] w1] eqn:Hh; simpl in Hwire.
  - rewrite (createRetryHandler_on_success _ _ _ _ _ _ _ Hh). simpl.
    exists []. rewrite app_nil_r. auto.
  - rewrite (createRetryHandler_on_failure _ _ _ _ _ _ _ _ Hh). rewrite <- Hwire.
    destruct (Z.ltb_spec (retryCount_of (ctx_headers context)) maxRetries).
    + destruct (retry_branch_wire message
                  (baseDelay * 2 ^ retryCount_of (ctx_headers context))
                  (processor_retry_headers context error) context w1 _
                  (processor_retry_headers_counter context error))
        as (ops & Hops & [Hnone | (f & Hf & Hn & Hc)]);
        exists ops; split; try done; [by left|].
      right. exists f. done.
    + destruct (channel_call_wire (Nacked (ctx_deliveryTag context) false) w1 eq_refl)
        as (ops & Hops & Hnone).
      exists ops. split; [exact Hops | by left].
Qed.

Lemma handleMessageWithRetry_discipline h options :
  retry_discipline (or_default (co_maxRetries options) 3)
    (fun message context =>
       handleMessageWithRetry message context (app_handler h) options).
Proof.
  intros message context w.
  set (maxRetries := or_default (co_maxRetries options) 3).
  (* the [catch] block, entered in a world that has the wire of [w] *)
  assert (Hcatch : forall w1, wire w1 = wire w ->
    exists ops,
      wire (snd ((if retryCount_of (ctx_headers context) <? maxRetries then
           discard (publish "retry" "retry" message
             (retry_options
                (or_default (co_retryDelay options) 1000
                 * 2 ^ retryCount_of (ctx_headers context))
                (connection_retry_headers context))) >>>
           ack context
         else
           nack context (Some false) >>>
           throw (RetryExhaustedError "Message processing" maxRetries)) w1))
      = wire w ++ ops
      /\ (omap is_retry_frame ops = []
          \/ exists f,
               omap is_retry_frame ops = [f]
               /\ retryCount_of (ctx_headers context) < maxRetries
               /\ retryCount_of (headers f) = retryCount_of (ctx_headers context) + 1
               /\ content f = message)).
  { intros w1 Hwire. rewrite <- Hwire.
    destruct (Z.ltb_spec (retryCount_of (ctx_headers context)) maxRetries).
    - destruct (retry_branch_wire message
                  (or_default (co_retryDelay options) 1000
                   * 2 ^ retryCount_of (ctx_headers context))
                  (connection_retry_headers context) context w1 _
                  (connection_retry_headers_counter context))
        as (ops & Hops & [Hnone | (f & Hf & Hn & Hc)]);
        exists ops; split; try done; [by left|].
      right. exists f. done.
    - destruct (channel_call_wire (Nacked (ctx_deliveryTag context) false) w1 eq_refl)
        as (ops & Hops & Hnone).
      exists ops. split; [|by left].
      unfold bind, nack, throw. fold (@channel_call P A). simpl.
      by destruct (channel_call _ w1) as [[[]|e] w2]. }
  destruct (app_handler_world h message context w) as (Hwire & _ & _).
  unfold handleMessageWithRetry, try_catch. fold maxRetries. unfold bind at 1.
  destruct (app_handler h message context w) as [[[]|error] w1]; simpl in Hwire.
  - destruct (default false (co_autoAck options)).
    + exists []. simpl. rewrite app_nil_r. auto.
    + unfold ack at 1, channel_call. destruct (channel w1) eqn:Hch.
      * by apply (Hcatch w1).
      * exists [Acked (ctx_deliveryTag context)]. simpl. rewrite Hwire. auto.
  - by apply (Hcatch w1).
Qed.

End RetryDiscipline.
Section RetryCycles.

Context {P A : Type}.
Implicit Types (w : World P A) (context : MessageContext) (message : P).

(** Under the retry discipline the deliveries of a run of retry cycles carry
    the counters [c], [c + 1], [c + 2], ..., and every delivery but the last
    was made with a counter below [maxRetries]. *)
Lemma retry_cycles_counters maxRetries (wrapped : MessageHandler P A) :
  retry_discipline maxRetries wrapped ->
  forall message contexts,
    retry_cycles wrapped message contexts ->
    match contexts with
    | [] => True
    | context :: rest =>
        (forall i later,
           contexts !! i = Some later ->
           retryCount_of (ctx_headers later)
           = retryCount_of (ctx_headers context) + Z.of_nat i)
        /\ Z.of_nat (length rest)
           <= Z.max 0 (maxRetries - retryCount_of (ctx_headers context))
    end.
Proof.
  intros Hd message contexts Hrun.
  induction Hrun as [message context
                    |message context w f context' rest Hin Hkey Hheaders Hrun IH].
  - split; [|simpl; lia].
    intros [|i] later Hi; simpl in Hi; [|by rewrite lookup_nil in Hi].
    injection Hi as <-. lia.
  - destruct (Hd message context w) as (ops & Hops & Hretry).
    rewrite Hops, drop_app_length in Hin.
    assert (Hf : f ∈ omap is_retry_frame ops).
    { apply list_elem_of_omap. exists (Published f). split; [done|].
      simpl. by rewrite decide_True. }
    destruct Hretry as [Hnone | (f0 & Hone & Hlt & Hn & _)].
    { rewrite Hnone in Hf. by apply elem_of_nil in Hf. }
    rewrite Hone in Hf. apply list_elem_of_singleton in Hf. subst f0.
    rewrite <- Hheaders in Hn. destruct IH as [IHc IHl].
    split.
    + intros [|i] later Hi; simpl in Hi.
      * injection Hi as <-. lia.
      * rewrite (IHc i later Hi), Hn. lia.
    + rewrite Hn in IHl. simpl length in *. lia.
Qed.

End RetryCycles.
Section RetryClaims.

Context {P A : Type}.
Implicit Types (w : World P A) (context : MessageContext) (message : P).
Implicit Types (h : P -> MessageContext -> A -> Outcome unit * A).

Lemma backoff_nonzero (base n : Z) : base ≠ 0 -> 0 <= n -> base * 2 ^ n ≠ 0.
Proof. intros Hb Hn. pose proof (Z.pow_pos_nonneg 2 n ltac:(lia) Hn). nia. Qed.

Lemma or_default_nonzero x d : d ≠ 0 -> or_default x d ≠ 0.
Proof.
  intros Hd. unfold or_default. destruct x as [n|]; [|done].
  by destruct (Z.eqb_spec n 0).
Qed.

(** C4. When the wrapped handler fails on a delivery whose counter [n], a
    natural number or missing (then 0), is below [maxRetries], both retry
    paths ([createRetryHandler] and [handleMessageWithRetry]) publish the
    same message with routing key [retry], with [retryCount] = [n + 1] in
    its headers and with the delay [baseDelay * 2 ^ n] (header [x-delay] on
    the [delayed] exchange, which is how [publish] routes any non-zero
    delay), and then acknowledge the delivery. Hence, in any run of retry
    cycles of one message, the deliveries carry the counters [n], [n + 1],
    ... one apart, and the message is republished at most [maxRetries - n]
    times, so at most [maxRetries] times. *)
Theorem retry_republishes_with_backoff :
  (forall (handler : MessageHandler P A) maxRetries baseDelay message context w error w1,
      handler message context w = (Rejected error, w1) ->
      (2 <= channel w1)%nat ->
      retry_in_range (ctx_headers context) (default 3 maxRetries) (default 1000 baseDelay) ->
      retryCount_of (ctx_headers context) < default 3 maxRetries ->
      let n := retryCount_of (ctx_headers context) in
      let delay := default 1000 baseDelay * 2 ^ n in
      let f := retry_frame message delay (processor_retry_headers context error)
                 (clock w1) in
      createRetryHandler handler maxRetries baseDelay message context w
      = (Resolved tt,
         send (Acked (ctx_deliveryTag context)) (use_channel (send (Published f) w1)))
      /\ content f = message
      /\ routingKey f = "retry"
      /\ headers f !! "retryCount" = Some (HNum (n + 1))
      /\ (default 1000 baseDelay ≠ 0 ->
          exchange f = "delayed" /\ headers f !! "x-delay" = Some (HNum delay)))
  /\ (forall (handler : MessageHandler P A) options message context w error w1,
        handler message context w = (Rejected error, w1) ->
        (2 <= channel w1)%nat ->
        retry_in_range (ctx_headers context) (or_default (co_maxRetries options) 3)
          (or_default (co_retryDelay options) 1000) ->
        retryCount_of (ctx_headers context) < or_default (co_maxRetries options) 3 ->
        let n := retryCount_of (ctx_headers context) in
        let delay := or_default (co_retryDelay options) 1000 * 2 ^ n in
        let f := retry_frame message delay (connection_retry_headers context) (clock w1) in
        handleMessageWithRetry message context handler options w
        = (Resolved tt,
           send (Acked (ctx_deliveryTag context)) (use_channel (send (Published f) w1)))
        /\ content f = message
        /\ routingKey f = "retry"
        /\ headers f !! "retryCount" = Some (HNum (n + 1))
        /\ exchange f = "delayed"
        /\ headers f !! "x-delay" = Some (HNum delay))
  /\ (forall h maxRetries baseDelay options message context rest,
        natural_counter (ctx_headers context) ->
        let n := retryCount_of (ctx_headers context) in
        (safe_integer (default 3 maxRetries) ->
         retry_cycles (createRetryHandler (app_handler h) maxRetries baseDelay)
           message (context :: rest) ->
         (forall i later,
            (context :: rest) !! i = Some later ->
            retryCount_of (ctx_headers later) = n + Z.of_nat i)
         /\ Z.of_nat (length rest) <= Z.max 0 (default 3 maxRetries - n)
         /\ Z.of_nat (length rest) <= Z.max 0 (default 3 maxRetries))
        /\ (safe_integer (or_default (co_maxRetries options) 3) ->
            retry_cycles
              (fun message context =>
                 handleMessageWithRetry message context (app_handler h) options)
              message (context :: rest) ->
            (forall i later,
               (context :: rest) !! i = Some later ->
               retryCount_of (ctx_headers later) = n + Z.of_nat i)
            /\ Z.of_nat (length rest) <= Z.max 0 (or_default (co_maxRetries options) 3 - n)
            /\ Z.of_nat (length rest) <= Z.max 0 (or_default (co_maxRetries options) 3))).
Proof.
  split; [|split].
  - intros handler maxRetries baseDelay message context w error w1 Hh Hch [Hnat _] Hn
      n delay f.
    assert (H0 : 0 <= n) by (by apply natural_counter_nonneg).
    split; [|split; [done|split; [done|split]]].
    + assert (Hrun := createRetryHandler_on_failure handler (default 3 maxRetries)
                        (default 1000 baseDelay) message context w error w1 Hh).
      destruct (Z.ltb_spec (retryCount_of (ctx_headers context)) (default 3 maxRetries));
        [|lia].
      rewrite retry_then_ack in Hrun by done.
      destruct maxRetries, baseDelay; exact Hrun.
    + apply retry_frame_lookup, processor_retry_headers_counter.
    + intros Hb. apply retry_frame_delay. apply backoff_nonzero; [done | lia].
  - intros handler options message context w error w1 Hh Hch [Hnat _] Hn n delay f.
    assert (H0 : 0 <= n) by (by apply natural_counter_nonneg).
    assert (Hd : delay ≠ 0)
      by (apply backoff_nonzero; [by apply or_default_nonzero | lia]).
    split; [|split; [done|split; [done|split; [|by apply retry_frame_delay]]]].
    + rewrite (handleMessageWithRetry_on_failure _ _ _ _ _ _ _ Hh).
      destruct (Z.ltb_spec (retryCount_of (ctx_headers context))
                  (or_default (co_maxRetries options) 3)); [|lia].
      by rewrite retry_then_ack.
    + apply retry_frame_lookup, connection_retry_headers_counter.
  - intros h maxRetries baseDelay options message context rest Hnat n.
    assert (H0 : 0 <= n) by (by apply natural_counter_nonneg).
    split.
    + intros _ Hrun.
      destruct (retry_cycles_counters (default 3 maxRetries)
                  (createRetryHandler (app_handler h) maxRetries baseDelay))
                 with (message := message) (contexts := context :: rest)
        as [Hc Hl]; [|done|].
      { destruct maxRetries, baseDelay; apply createRetryHandler_discipline. }
      fold n in Hl. split; [exact Hc | split; lia].
    + intros _ Hrun.
      destruct (retry_cycles_counters _ _ (handleMessageWithRetry_discipline h options)
                  message (context :: rest) Hrun) as [Hc Hl].
      fold n in Hl. split; [exact Hc | split; lia].
Qed.

End RetryClaims.
Lemma retry_republishes_with_backoff_witness :
  createRetryHandler fails_twice (Some 3) (Some 1000) "order.created" first_delivery
    (quiet_world 5000 10 O)
  = (Resolved tt,
     send (Acked 1)
       (use_channel
          (send (Published (retry_frame "order.created" 1000
                              (processor_retry_headers first_delivery
                                 (ApplicationError "not yet")) 5000))
             (quiet_world 5000 10 1%nat))))
  /\ handleMessageWithRetry "order.created" first_delivery fails_twice three_retries
       (quiet_world 5000 10 O)
     = (Resolved tt,
        send (Acked 1)
          (use_channel
             (send (Published (retry_frame "order.created" 1000
                                 (connection_retry_headers first_delivery) 5000))
                (quiet_world 5000 10 1%nat))))
  /\ retryCount_of (ctx_headers second_delivery) = 1
  /\ Z.of_nat (length [second_delivery]) <= Z.max 0 3.
Proof.
  destruct (@retry_republishes_with_backoff string nat)
    as (by_processor & by_connection & bounded).
  assert (in_range : retry_in_range (ctx_headers first_delivery) 3 1000).
  { repeat split; vm_compute; discriminate. }
  split; [|split].
  - destruct (by_processor fails_twice (Some 3) (Some 1000) "order.created" first_delivery
                (quiet_world 5000 10 O) (ApplicationError "not yet")
                (quiet_world 5000 10 1%nat)) as [run _];
      [reflexivity | simpl; lia | exact in_range | reflexivity |].
    exact run.
  - destruct (by_connection fails_twice three_retries "order.created" first_delivery
                (quiet_world 5000 10 O) (ApplicationError "not yet")
                (quiet_world 5000 10 1%nat)) as [run _];
      [reflexivity | simpl; lia | exact in_range | reflexivity |].
    exact run.
  - destruct (bounded (fun _ _ calls => (Rejected (ApplicationError "card declined"), S calls))
                (Some 3) None three_retries "order.created" first_delivery
                [second_delivery]) as [[counters [_ bound]] _].
    + vm_compute. discriminate.
    + vm_compute. discriminate.
    + apply (retry_cycles_next _ "order.created" first_delivery (quiet_world 0 20 O)
               (retry_frame "order.created" 1000
                  (processor_retry_headers first_delivery
                     (ApplicationError "card declined")) 0)).
      * vm_compute. apply list_elem_of_here.
      * reflexivity.
      * reflexivity.
      * apply retry_cycles_one.
    + split; [|exact bound]. apply (counters 1%nat second_delivery). reflexivity.
Defined.

Section RetryExhausted.

Context {P A : Type}.
Implicit Types (w : World P A) (context : MessageContext) (message : P).

(** With the retries used up, [handleMessageWithRetry] rejects the delivery
    without requeue and throws [RetryExhaustedError] to its caller. *)
Lemma handleMessageWithRetry_exhausted (handler : MessageHandler P A) options
    message context w error w1 :
  handler message context w = (Rejected error, w1) ->
  channel w1 ≠ O ->
  or_default (co_maxRetries options) 3 <= retryCount_of (ctx_headers context) ->
  handleMessageWithRetry message context handler options w
  = (Rejected (RetryExhaustedError "Message processing"
                 (or_default (co_maxRetries options) 3)),
     send (Nacked (ctx_deliveryTag context) false) w1).
Proof.
  intros Hh Hch Hn. rewrite (handleMessageWithRetry_on_failure _ _ _ _ _ _ _ Hh).
  destruct (Z.ltb_spec (retryCount_of (ctx_headers context))
              (or_default (co_maxRetries options) 3)); [lia|].
  unfold bind, throw. by rewrite nack_run.
Qed.

(** [createRetryHandler] rejects the delivery in the same way, and then
    returns as after a success: the error goes to the log only. *)
Lemma createRetryHandler_exhausted (handler : MessageHandler P A) maxRetries baseDelay
    message context w error w1 :
  handler message context w = (Rejected error, w1) ->
  channel w1 ≠ O ->
  maxRetries <= retryCount_of (ctx_headers context) ->
  createRetryHandler handler (Some maxRetries) (Some baseDelay) message context w
  = (Resolved tt, send (Nacked (ctx_deliveryTag context) false) w1).
Proof.
  intros Hh Hch Hn. rewrite (createRetryHandler_on_failure _ _ _ _ _ _ _ _ Hh).
  destruct (Z.ltb_spec (retryCount_of (ctx_headers context)) maxRetries); [lia|].
  by rewrite nack_run.
Qed.

(** The caller of [handleMessageWithRetry] is the callback of [consume]: it
    catches the error, logs it and rejects the delivery once more. *)
Lemma on_message_exhausted (handler : MessageHandler P A) options (msg : Delivery) w
    error w1 :
  handler (body msg) (context_of msg) w = (Rejected error, w1) ->
  channel w1 ≠ O ->
  co_autoAck options = None ->
  or_default (co_maxRetries options) 3 <= retryCount_of (ctx_headers (context_of msg)) ->
  on_message handler options msg w
  = (Resolved tt,
     send (Nacked (deliveryTag msg) false) (send (Nacked (deliveryTag msg) false) w1)).
Proof.
  intros Hh Hch Hauto Hn. unfold on_message, try_catch.
  rewrite (handleMessageWithRetry_exhausted _ _ _ _ _ _ _ Hh Hch Hn), Hauto. simpl.
  unfold channel_call. simpl. by destruct (channel w1).
Qed.

End RetryExhausted.

(** C6 at a delivery with [retryCount] 3 and [maxRetries] 3, for a handler
    that fails: both paths reject the delivery without requeue;
    [handleMessageWithRetry] ends in [RetryExhaustedError], while the handler
    made by [createRetryHandler] resolves and reports nothing. *)
Theorem exhausted_retries_are_reported_by_the_connection_only :
  handleMessageWithRetry "order.created" fourth_delivery always_fails three_retries
    (quiet_world 0 10 O)
  = (Rejected (RetryExhaustedError "Message processing" 3),
     send (Nacked 4 false) (quiet_world 0 10 1%nat))
  /\ createRetryHandler always_fails (Some 3) (Some 1000) "order.created" fourth_delivery
       (quiet_world 0 10 O)
     = (Resolved tt, send (Nacked 4 false) (quiet_world 0 10 1%nat)).
Proof.
  split.
  - apply (handleMessageWithRetry_exhausted always_fails three_retries "order.created"
             fourth_delivery _ (ApplicationError "card declined"));
      [reflexivity | simpl; lia | vm_compute; discriminate].
  - apply (createRetryHandler_exhausted always_fails 3 1000 "order.created"
             fourth_delivery _ (ApplicationError "card declined"));
      [reflexivity | simpl; lia | vm_compute; discriminate].
Qed.
(** ** The idempotency wrapper *)

Section IdempotencyFacts.

Context {P A : Type} `{HasId P}.
Implicit Types (w : World P A) (context : MessageContext) (message : P).
Implicit Types (cache : gset string) (h : MessageHandler P A).

Lemma idempotent_duplicate h message context key cache w :
  string_or (message_id message) (ctx_correlationId context) = Some key ->
  key ∈ cache ->
  createIdempotentHandler h message context (cache, w)
  = (fst (ack context w), (cache, snd (ack context w))).
Proof.
  intros Hk Hin. unfold createIdempotentHandler. rewrite Hk.
  unfold bind, get, on_world. simpl. rewrite decide_True by done.
  simpl. by destruct (ack context w).
Qed.

Lemma idempotent_first h message context key cache w :
  string_or (message_id message) (ctx_correlationId context) = Some key ->
  key ∉ cache ->
  createIdempotentHandler h message context (cache, w)
  = match h message context w with
    | (Resolved _, w1) => (Resolved tt, ({[key]} ∪ cache, w1))
    | (Rejected e, w1) => (Rejected e, (cache, w1))
    end.
Proof.
  intros Hk Hin. unfold createIdempotentHandler. rewrite Hk.
  unfold bind at 1, get. simpl. rewrite decide_False by done.
  unfold try_catch, bind, on_world, on_self, modify, throw. simpl.
  by destruct (h message context w) as [[[]|e] w1].
Qed.

Lemma idempotent_without_key h message context cache w :
  string_or (message_id message) (ctx_correlationId context) = None ->
  createIdempotentHandler h message context (cache, w)
  = (fst (h message context w), (cache, snd (h message context w))).
Proof.
  intros Hk. unfold createIdempotentHandler. rewrite Hk. unfold on_world. simpl.
  by destruct (h message context w).
Qed.

(** C5. For a message that carries a key: if the key is recorded, the
    wrapped handler acknowledges the delivery and returns, and the world is
    the one the acknowledgement leaves, whatever the underlying handler is;
    if it is not recorded, the underlying handler runs, and the key is
    recorded when it succeeds and left out when it fails. So of two
    deliveries with the same key, the first of which succeeds, only the first
    reaches the underlying handler, and after a failed delivery the next one
    with that key reaches it again. *)
Theorem idempotent_handler_runs_once_per_key h message context key :
  string_or (message_id message) (ctx_correlationId context) = Some key ->
  (forall cache w,
      key ∈ cache ->
      channel w ≠ O ->
      createIdempotentHandler h message context (cache, w)
      = (Resolved tt, (cache, send (Acked (ctx_deliveryTag context)) w)))
  /\ (forall cache w w1,
        key ∉ cache ->
        h message context w = (Resolved tt, w1) ->
        createIdempotentHandler h message context (cache, w)
        = (Resolved tt, ({[key]} ∪ cache, w1)))
  /\ (forall cache w w1 error,
        key ∉ cache ->
        h message context w = (Rejected error, w1) ->
        createIdempotentHandler h message context (cache, w)
        = (Rejected error, (cache, w1)))
  /\ (forall cache w w1 message' context',
        string_or (message_id message') (ctx_correlationId context') = Some key ->
        key ∉ cache ->
        h message context w = (Resolved tt, w1) ->
        channel w1 ≠ O ->
        (createIdempotentHandler h message context >>>
         createIdempotentHandler h message' context') (cache, w)
        = (Resolved tt,
           ({[key]} ∪ cache, send (Acked (ctx_deliveryTag context')) w1)))
  /\ (forall cache w w1 error,
        key ∉ cache ->
        h message context w = (Rejected error, w1) ->
        createIdempotentHandler h message context
          (snd (createIdempotentHandler h message context (cache, w)))
        = match h message context w1 with
          | (Resolved _, w2) => (Resolved tt, ({[key]} ∪ cache, w2))
          | (Rejected e, w2) => (Rejected e, (cache, w2))
          end).
Proof.
  intros Hk.
  assert (Hdup : forall cache w, key ∈ cache -> channel w ≠ O ->
            createIdempotentHandler h message context (cache, w)
            = (Resolved tt, (cache, send (Acked (ctx_deliveryTag context)) w))).
  { intros cache w Hin Hch. rewrite (idempotent_duplicate _ _ _ key) by done.
    by rewrite ack_run. }
  split; [exact Hdup|]. split; [|split; [|split]].
  - intros cache w w1 Hnot Hh. rewrite (idempotent_first _ _ _ key) by done.
    by rewrite Hh.
  - intros cache w w1 error Hnot Hh. rewrite (idempotent_first _ _ _ key) by done.
    by rewrite Hh.
  - intros cache w w1 message' context' Hk' Hnot Hh Hch. unfold bind.
    rewrite (idempotent_first _ _ _ key) by done. rewrite Hh.
    rewrite (idempotent_duplicate _ _ _ key) by (done || set_solver).
    by rewrite ack_run.
  - intros cache w w1 error Hnot Hh.
    rewrite (idempotent_first _ _ _ key cache w) by done. rewrite Hh. simpl.
    by rewrite (idempotent_first _ _ _ key) by done.
Qed.

(** Whatever the delivery and the handler, no key leaves the cache. *)
Lemma idempotent_keeps_keys h message context cache w :
  cache ⊆ fst (snd (createIdempotentHandler h message context (cache, w))).
Proof.
  destruct (string_or (message_id message) (ctx_correlationId context)) as [key|] eqn:Hk.
  - destruct (decide (key ∈ cache)).
    + by rewrite (idempotent_duplicate _ _ _ key).
    + rewrite (idempotent_first _ _ _ key) by done.
      destruct (h message context w) as [[[]|e] w1]; simpl; set_solver.
  - by rewrite idempotent_without_key.
Qed.

End IdempotencyFacts.

Lemma idempotent_handler_runs_once_per_key_witness :
  (createIdempotentHandler counts_calls "order-42" (plain_delivery 1) >>>
   createIdempotentHandler counts_calls "order-42" (plain_delivery 2))
    (∅, quiet_world 0 1 O)
  = (Resolved tt, ({["order-42"]} ∪ ∅, send (Acked 2) (quiet_world 0 1 1%nat))).
Proof.
  destruct (@idempotent_handler_runs_once_per_key string nat _ counts_calls
              "order-42" (plain_delivery 1) "order-42") as (_ & _ & _ & twice & _).
  - reflexivity.
  - apply (twice ∅ (quiet_world 0 1 O) (quiet_world 0 1 1%nat) "order-42"
             (plain_delivery 2)).
    + reflexivity.
    + apply not_elem_of_empty.
    + reflexivity.
    + simpl. lia.
Defined.
Section IdempotencyCache.

Context {A : Type}.
Implicit Types (w : World string A) (cache : gset string) (h : MessageHandler string A).

Lemma deliver_each_records h keys : forall cache w,
  (forall message context w, fst (h message context w) = Resolved tt) ->
  NoDup keys ->
  Forall (fun key => key ≠ "") keys ->
  (forall key, key ∈ keys -> key ∉ cache) ->
  fst (deliver_each h keys (cache, w)) = Resolved tt
  /\ fst (snd (deliver_each h keys (cache, w))) = list_to_set keys ∪ cache.
Proof.
  induction keys as [|key keys IH]; intros cache w Hh Hnd Hne Hfresh.
  - simpl. split; [done | by rewrite (left_id_L ∅ (∪))].
  - apply NoDup_cons in Hnd as [Hnotin Hnd]. apply Forall_cons in Hne as [Hkey Hne].
    assert (Hstep : deliver_each h (key :: keys) (cache, w)
                    = deliver_each h keys
                        ({[key]} ∪ cache, snd (h key (plain_delivery 0) w))).
    { unfold deliver_each. cbn [for_of]. unfold bind at 1.
      rewrite (idempotent_first _ _ _ key).
      - pose proof (Hh key (plain_delivery 0) w) as Hrun.
        by destruct (h key (plain_delivery 0) w) as [[[]|e] w1].
      - unfold string_or, truthy, message_id, string_id. by rewrite decide_False.
      - apply Hfresh, elem_of_cons. by left. }
    rewrite Hstep.
    destruct (IH ({[key]} ∪ cache) (snd (h key (plain_delivery 0) w))) as [Hr Hc];
      [done | done | done | |].
    { intros k Hk. apply not_elem_of_union. split.
      - apply not_elem_of_singleton. by intros ->.
      - apply Hfresh, elem_of_cons. by right. }
    split; [exact Hr|]. rewrite Hc. simpl.
    rewrite (assoc_L (∪)). f_equal. apply (comm_L (∪)).
Qed.

Lemma deliver_each_size h keys cache w :
  (forall message context w, fst (h message context w) = Resolved tt) ->
  NoDup keys ->
  Forall (fun key => key ≠ "") keys ->
  (forall key, key ∈ keys -> key ∉ cache) ->
  size (fst (snd (deliver_each h keys (cache, w)))) = (length keys + size cache)%nat.
Proof.
  intros Hh Hnd Hne Hfresh.
  destruct (deliver_each_records h keys cache w Hh Hnd Hne Hfresh) as [_ ->].
  rewrite size_union by (intros k; rewrite elem_of_list_to_set; apply Hfresh).
  by rewrite size_list_to_set.
Qed.

(** C9, as the code has it. The wrapper only ever adds to the cache: no key
    in the cache before a delivery is missing after it, whatever the handler
    does. Messages with new, distinct keys that are processed successfully
    add one key each, so the cache grows by the number of messages. Nothing
    in the wrapper removes or expires a key. *)
Theorem idempotency_cache_only_grows h :
  (forall message context cache w,
      cache ⊆ fst (snd (createIdempotentHandler h message context (cache, w))))
  /\ (forall keys cache w,
        (forall message context w, fst (h message context w) = Resolved tt) ->
        NoDup keys ->
        Forall (fun key => key ≠ "") keys ->
        (forall key, key ∈ keys -> key ∉ cache) ->
        let cache' := fst (snd (deliver_each h keys (cache, w))) in
        cache' = list_to_set keys ∪ cache
        /\ size cache' = (length keys + size cache)%nat).
Proof.
  split.
  - intros message context cache w. apply idempotent_keeps_keys.
  - intros keys cache w Hh Hnd Hne Hfresh cache'.
    destruct (deliver_each_records h keys cache w Hh Hnd Hne Hfresh) as [_ Hc].
    split; [exact Hc | by apply deliver_each_size].
Qed.

End IdempotencyCache.

Lemma key_of_length n : String.length (key_of n) = S n.
Proof. induction n as [|n IH]; simpl; [done | by rewrite IH]. Qed.

Lemma key_of_nonempty n : key_of n ≠ "".
Proof. intros Heq. apply (f_equal String.length) in Heq. by rewrite key_of_length in Heq. Qed.

#[local] Instance key_of_inj : Inj (=) (=) key_of.
Proof.
  intros n n' Heq. apply (f_equal String.length) in Heq.
  rewrite !key_of_length in Heq. lia.
Qed.

Lemma counts_calls_resolves message context (w : World string nat) :
  fst (counts_calls message context w) = Resolved tt.
Proof. reflexivity. Qed.

Lemma idempotency_cache_only_grows_witness :
  size (fst (snd (deliver_each counts_calls ["a"; "b"; "c"] (∅, quiet_world 0 1 O))))
  = (3 + size (∅ : gset string))%nat.
Proof.
  destruct (@idempotency_cache_only_grows nat counts_calls) as [_ grows].
  destruct (grows ["a"; "b"; "c"] ∅ (quiet_world 0 1 O)) as [_ Hsize].
  - intros message context w. reflexivity.
  - refine (bool_decide_unpack (NoDup ["a"; "b"; "c"]) _). vm_compute. exact I.
  - repeat constructor; discriminate.
  - intros key _. apply not_elem_of_empty.
  - exact Hsize.
Defined.

(** C9, as the specification words it, fails: whatever the bound, one more
    message than that, each with a key of its own, leaves more keys in the
    cache. *)
Lemma retention_is_not_bounded : ~ retention_is_bounded.
Proof.
  intros [bound Hbound].
  specialize (Hbound (key_of <$> seq 0 (S bound)) (quiet_world 0 1 O)).
  assert (Hnd : NoDup (key_of <$> seq 0 (S bound)))
    by (apply (NoDup_fmap_2 key_of), NoDup_seq).
  assert (Hne : Forall (fun key => key ≠ "") (key_of <$> seq 0 (S bound))).
  { apply Forall_fmap, Forall_forall. intros n _. apply key_of_nonempty. }
  specialize (Hbound Hnd Hne).
  rewrite (deliver_each_size counts_calls) in Hbound;
    [| apply counts_calls_resolves | done | done
     | intros key _; apply not_elem_of_empty].
  rewrite length_fmap, length_seq, size_empty in Hbound. lia.
Qed.
(** ** Request and reply *)

Section RpcFacts.

Context {P A R : Type}.
Implicit Types (t : RpcTables R) (w : World P A).

Lemma publish_open exchange routingKey (message : P) options w :
  channel w ≠ O ->
  exists f,
    publish exchange routingKey message options w
    = (Resolved true, use_channel (send (Published f) w))
    /\ content f = message
    /\ correlationId f = opt_correlationId options
    /\ replyTo f = opt_replyTo options.
Proof.
  intros Hch. unfold publish. destruct (channel w); [done|].
  eexists. split; [reflexivity|]. done.
Qed.

Lemma rpc_run exchange routingKey (request : P) timeout cid queue t w :
  channel w ≠ O ->
  exists f,
    rpc exchange routingKey request timeout cid queue (t, w)
    = (Resolved cid,
       (open_call cid queue (default 30000 timeout) t,
        use_channel (send (Published f) w)))
    /\ content f = request
    /\ correlationId f = Some cid
    /\ replyTo f = Some queue.
Proof.
  intros Hch.
  destruct (publish_open exchange routingKey request (rpc_options cid queue) w Hch)
    as (f & Hpub & Hc & Hid & Hq).
  exists f. split; [|done].
  unfold rpc. unfold bind at 1, get. cbn [fst snd].
  destruct (channel w) as [|k]; [done|].
  unfold discard, bind, try_catch, on_self, on_world, modify, ret. cbn [fst snd].
  by rewrite Hpub.
Qed.



End RpcFacts.


(** * Further properties *)

(** ** SagaOrchestrator and its callers *)

Section SagaMore.

Context {D A : Type}.
Implicit Types (m : gmap string (list string)) (w : World (SagaMessage D) A).

Lemma handleStepFailed_unknown m w sagaId failedStep (error : D) :
  m !! sagaId = None ->
  handleStepFailed sagaId failedStep error (m, w) = (Resolved tt, (m, w)).
Proof. intros Hm. unfold handleStepFailed. unfold_async. by rewrite Hm. Qed.

Lemma delete_tracked_differs m sagaId steps :
  m !! sagaId = Some steps -> delete sagaId m ≠ m.
Proof.
  intros Hm Heq. apply (f_equal (fun x => x !! sagaId)) in Heq.
  rewrite lookup_delete_eq, Hm in Heq. discriminate.
Qed.

(** X1. A failure notice is ignored (nothing stored changes, nothing is
    published, the call resolves) exactly when the saga is unknown or the
    step occurs nowhere in its list. The call [cancelOrder] makes,
    [handleStepFailed(orderId, 'order-cancel', ...)], names a step that is
    not among the steps [createOrder] starts a saga with: right after
    [startSaga] it compensates nothing and leaves the saga tracked. *)
Theorem handleStepFailed_ignores_absent_steps_only :
  (forall m w sagaId failedStep (error : D),
      handleStepFailed sagaId failedStep error (m, w) = (Resolved tt, (m, w))
      <-> (m !! sagaId = None
           \/ exists steps, m !! sagaId = Some steps /\ failedStep ∉ steps))
  /\ (forall m w orderId (data reason : D),
        let started := snd (startSaga orderId order_saga_steps data (m, w)) in
        handleStepFailed orderId "order-cancel" reason started = (Resolved tt, started)
        /\ getSagaStatus orderId started = Some (order_saga_steps, true)).
Proof.
  split.
  - intros m w sagaId failedStep error. split.
    + intros Hrun. destruct (m !! sagaId) as [steps|] eqn:Hm; [|by left].
      right. exists steps. split; [done|]. apply indexOf_None.
      destruct (indexOf failedStep steps) as [i|] eqn:Hi; [exfalso|done].
      rewrite (handleStepFailed_run _ _ _ _ _ _ _ Hm Hi) in Hrun.
      repeat case_decide; try discriminate.
      injection Hrun as Hmap _. by apply delete_tracked_differs in Hm.
    + intros [Hm | (steps & Hm & Hnot)].
      * by apply handleStepFailed_unknown.
      * apply (handleStepFailed_absent _ _ _ _ _ steps); [done|].
        by apply indexOf_None.
  - intros m w orderId data reason started.
    assert (Hm : fst started !! orderId = Some order_saga_steps).
    { unfold started, startSaga. unfold bind at 1, on_self, modify. simpl.
      destruct (channel w) as [|k] eqn:Hch.
      - rewrite publish_event_closed by done. apply lookup_insert_eq.
      - rewrite publish_event by lia. apply lookup_insert_eq. }
    split.
    + destruct started as [m' w']. simpl in Hm.
      by apply (handleStepFailed_absent _ _ _ _ _ order_saga_steps).
    + unfold getSagaStatus. by rewrite Hm.
Qed.

Lemma handleStepComplete_map m w sagaId completedStep (result : D) :
  fst (snd (handleStepComplete sagaId completedStep result (m, w))) = m
  \/ fst (snd (handleStepComplete sagaId completedStep result (m, w))) = delete sagaId m.
Proof.
  destruct (m !! sagaId) as [steps|] eqn:Hm.
  - destruct (indexOf completedStep steps) as [i|] eqn:Hi.
    + destruct (drop (S i) steps) as [|next rest] eqn:Hd.
      * right. rewrite (handleStepComplete_last _ _ _ _ _ _ _ Hm Hi Hd).
        apply discard_publish_keeps_map.
      * left. rewrite (handleStepComplete_next _ _ _ _ _ _ _ _ _ Hm Hi Hd).
        apply discard_publish_keeps_map.
    + left. by rewrite (handleStepComplete_absent _ _ _ _ _ _ Hm Hi).
  - left. by rewrite handleStepComplete_unknown.
Qed.

Lemma handleStepFailed_map m w sagaId failedStep (error : D) :
  fst (snd (handleStepFailed sagaId failedStep error (m, w))) = m
  \/ fst (snd (handleStepFailed sagaId failedStep error (m, w))) = delete sagaId m.
Proof.
  destruct (m !! sagaId) as [steps|] eqn:Hm.
  - destruct (indexOf failedStep steps) as [i|] eqn:Hi.
    + rewrite (handleStepFailed_run _ _ _ _ _ _ _ Hm Hi).
      repeat case_decide; simpl; auto.
    + left. by rewrite (handleStepFailed_absent _ _ _ _ _ _ Hm Hi).
  - left. by rewrite handleStepFailed_unknown.
Qed.

Lemma startSaga_map m w sagaId steps (initialData : D) :
  fst (snd (startSaga sagaId steps initialData (m, w))) = <[sagaId := steps]> m.
Proof.
  unfold startSaga. unfold bind at 1, on_self, modify. simpl.
  apply discard_publish_keeps_map.
Qed.

(** X2. The three methods of the orchestrator act on the saga they are
    called for only: whatever they do, the list kept for any other saga is
    the same after the call. *)
Theorem orchestrator_leaves_other_sagas_alone m w sagaId other step (x : D) steps :
  other ≠ sagaId ->
  fst (snd (startSaga sagaId steps x (m, w))) !! other = m !! other
  /\ fst (snd (handleStepComplete sagaId step x (m, w))) !! other = m !! other
  /\ fst (snd (handleStepFailed sagaId step x (m, w))) !! other = m !! other.
Proof.
  intros Hne. split; [|split].
  - rewrite startSaga_map. by apply lookup_insert_ne.
  - destruct (handleStepComplete_map m w sagaId step x) as [-> | ->];
      [done | by apply lookup_delete_ne].
  - destruct (handleStepFailed_map m w sagaId step x) as [-> | ->];
      [done | by apply lookup_delete_ne].
Qed.

(** X3. [startSaga] stores the step list before it publishes: the saga is
    tracked with exactly the steps given, replacing any list kept under the
    same id, whether or not the start event could be sent. Without a channel
    the call rejects with the messaging error, publishes nothing, and still
    leaves the saga tracked. *)
Theorem startSaga_tracks_before_publishing m w sagaId steps (initialData : D) :
  getSagaStatus sagaId (snd (startSaga sagaId steps initialData (m, w)))
  = Some (steps, true)
  /\ (channel w = O ->
      startSaga sagaId steps initialData (m, w)
      = (Rejected (MessagingError "No active channel available"),
         (<[sagaId := steps]> m, w)))
  /\ (channel w ≠ O ->
      startSaga sagaId steps initialData (m, w)
      = (Resolved tt,
         (<[sagaId := steps]> m,
          after_publishes [start_frame sagaId steps initialData (clock w)] w))).
Proof.
  split; [|split].
  - unfold getSagaStatus. rewrite startSaga_map. by rewrite lookup_insert_eq.
  - intros Hch. unfold startSaga. unfold bind at 1, on_self, modify. simpl.
    by rewrite publish_event_closed.
  - intros Hch. rewrite startSaga_run by done. by rewrite one_publish.
Qed.

(** X4. A saga started with an empty step list is never completed and never
    removed: every completion or failure notice that [handleSagaEvent] gets
    for it, whatever step it names, changes nothing and publishes nothing. *)
Theorem empty_saga_is_never_removed sagaId (events : list (SagaEvent D)) : forall m w,
  m !! sagaId = Some [] ->
  Forall (fun event => ev_sagaId event = sagaId) events ->
  for_of events handleSagaEvent (m, w) = (Resolved tt, (m, w)).
Proof.
  induction events as [|event events IH]; intros m w Hm Hall; [done|].
  apply Forall_cons in Hall as [Hid Hall].
  cbn [for_of]. unfold bind.
  assert (Hone : handleSagaEvent event (m, w) = (Resolved tt, (m, w))).
  { unfold handleSagaEvent, try_catch. rewrite Hid.
    destruct (ev_error event) as [error|].
    - by rewrite (handleStepFailed_absent _ _ _ _ _ [] Hm).
    - by rewrite (handleStepComplete_absent _ _ _ _ _ [] Hm). }
  rewrite Hone. by apply IH.
Qed.

End SagaMore.
Lemma indexOf_first step pre rest :
  step ∉ pre -> indexOf step (pre ++ step :: rest) = Some (length pre).
Proof.
  induction pre as [|s pre IH]; intros Hnot; simpl.
  - by rewrite decide_True.
  - apply not_elem_of_cons in Hnot as [Hne Hnot].
    rewrite decide_False by congruence. by rewrite IH.
Qed.

Section SagaWalk.

Context {D A : Type}.
Implicit Types (m : gmap string (list string)) (w : World (SagaMessage D) A).

(** The notices still to come, for a saga whose list is [finished ++] their
    steps. *)
Lemma walk_rest sagaId (notices : list (string * D)) : forall finished m w,
  m !! sagaId = Some (finished ++ map fst notices) ->
  NoDup (finished ++ map fst notices) ->
  notices ≠ [] ->
  (length notices <= channel w)%nat ->
  for_of notices (fun notice => handleStepComplete sagaId (fst notice) (snd notice)) (m, w)
  = (Resolved tt,
     (delete sagaId m, after_publishes (walk sagaId (clock w) notices) w)).
Proof.
  induction notices as [|[step result] rest IH]; intros finished m w Hm Hnd Hne Hch; [done|].
  simpl in Hm, Hnd, Hch.
  assert (Hi : indexOf step (finished ++ step :: map fst rest) = Some (length finished)).
  { apply indexOf_first. apply NoDup_app in Hnd as (_ & Hdisj & _).
    intros Hin. apply (Hdisj step Hin). by left. }
  assert (Hd : drop (S (length finished)) (finished ++ step :: map fst rest) = map fst rest).
  { rewrite cons_middle, app_assoc. apply drop_app_length'.
    rewrite length_app. simpl. lia. }
  cbn [for_of]. unfold bind at 1. cbn [fst snd].
  destruct rest as [|[next result'] later].
  - simpl in Hd.
    rewrite (handleStepComplete_last _ _ _ _ _ _ _ Hm Hi Hd).
    rewrite publish_event by lia. simpl. by rewrite one_publish by lia.
  - simpl in Hd.
    rewrite (handleStepComplete_next m w sagaId step result _ _ next (map fst later)
               Hm Hi Hd).
    rewrite publish_event by lia.
    rewrite (IH (finished ++ [step]) m); simpl.
    + rewrite after_publishes_cons by lia. reflexivity.
    + by rewrite <- app_assoc.
    + by rewrite <- app_assoc.
    + done.
    + simpl in Hch. lia.
Qed.

(** X5. A saga whose steps are all different runs to its end when the
    completion notices arrive in the order of its steps: each notice but the
    last publishes [saga.continue] for the next step, with the result of the
    step just done as data and the steps after the next one as remaining; the
    last notice publishes [saga.completed] and removes the saga. *)
Theorem saga_runs_to_completion sagaId (notices : list (string * D)) m w :
  m !! sagaId = Some (map fst notices) ->
  NoDup (map fst notices) ->
  notices ≠ [] ->
  (length notices <= channel w)%nat ->
  for_of notices (fun notice => handleStepComplete sagaId (fst notice) (snd notice)) (m, w)
  = (Resolved tt,
     (delete sagaId m, after_publishes (walk sagaId (clock w) notices) w)).
Proof. intros Hm Hnd. by apply (walk_rest sagaId notices []). Qed.

End SagaWalk.
Lemma orchestrator_leaves_other_sagas_alone_witness :
  fst (snd (handleStepFailed "s1" "pay" "card declined"
              (<["s2" := ["reserve"]]> {["s1" := ["reserve"; "pay"]]},
               quiet_world 0 5 tt)))
  !! "s2"
  = (<["s2" := ["reserve"]]> {["s1" := ["reserve"; "pay"]]} : gmap string (list string))
    !! "s2".
Proof.
  destruct (@orchestrator_leaves_other_sagas_alone string unit
              (<["s2" := ["reserve"]]> {["s1" := ["reserve"; "pay"]]})
              (quiet_world 0 5 tt) "s1" "s2" "pay" "card declined" [])
    as (_ & _ & failed).
  - discriminate.
  - exact failed.
Defined.

Lemma startSaga_tracks_before_publishing_witness :
  startSaga "s1" ["reserve"; "pay"] "order 42" (∅, quiet_world 0 0 tt)
  = (Rejected (MessagingError "No active channel available"),
     (<["s1" := ["reserve"; "pay"]]> ∅, quiet_world 0 0 tt)).
Proof.
  destruct (@startSaga_tracks_before_publishing string unit ∅ (quiet_world 0 0 tt)
              "s1" ["reserve"; "pay"] "order 42") as (_ & closed & _).
  apply closed. reflexivity.
Defined.

Lemma empty_saga_is_never_removed_witness :
  for_of
    [ {| ev_sagaId := "s1"; ev_step := "reserve"; ev_data := "ok"; ev_error := None |};
      {| ev_sagaId := "s1"; ev_step := "pay"; ev_data := "";
         ev_error := Some "card declined" |} ]
    handleSagaEvent
    ({["s1" := []]}, quiet_world 0 5 tt)
  = (Resolved tt, ({["s1" := []]}, quiet_world 0 5 tt)).
Proof.
  apply (@empty_saga_is_never_removed string unit "s1").
  - apply lookup_singleton_eq.
  - repeat constructor.
Defined.

Lemma saga_runs_to_completion_witness :
  for_of [("reserve", "reserved"); ("pay", "paid"); ("ship", "shipped")]
    (fun notice => handleStepComplete "s1" (fst notice) (snd notice))
    ({["s1" := ["reserve"; "pay"; "ship"]]}, quiet_world 0 3 tt)
  = (Resolved tt,
     (delete "s1" {["s1" := ["reserve"; "pay"; "ship"]]},
      after_publishes
        [continue_frame "s1" "pay" "reserved" ["ship"] 0;
         continue_frame "s1" "ship" "paid" [] 0;
         completed_frame "s1" "shipped" 0]
        (quiet_world 0 3 tt))).
Proof.
  apply (@saga_runs_to_completion string unit "s1"
           [("reserve", "reserved"); ("pay", "paid"); ("ship", "shipped")]).
  - apply lookup_singleton_eq.
  - refine (bool_decide_unpack (NoDup ["reserve"; "pay"; "ship"]) _). vm_compute. exact I.
  - discriminate.
  - simpl. lia.
Defined.
(** ** CircuitBreaker, further *)

Section BreakerMore.

Context {P A T : Type}.
Implicit Types (self : CircuitBreaker) (w : World P A) (operation : Operation P A T).

Lemma settle_breaker_rest self (r : Settled T) now :
  breaker_invariant self ->
  state self ≠ OPEN ->
  0 <= failures self ->
  state (snd (settle_breaker self r now)) ≠ HALF_OPEN
  /\ 0 <= failures (snd (settle_breaker self r now))
  /\ serviceName (snd (settle_breaker self r now)) = serviceName self.
Proof.
  intros [Hclosed Hother] Hs Hf.
  assert (Hfail : state (onFailure now self) ≠ HALF_OPEN
                  /\ 0 <= failures (onFailure now self)
                  /\ serviceName (onFailure now self) = serviceName self).
  { destruct (onFailure_counts now self) as (Hf' & _ & _ & Hst).
    rewrite Hf', Hst. split; [|split; [lia|]].
    - destruct (Z.leb_spec (failureThreshold (config self)) (failures self + 1));
        [done|].
      intros Hhalf. assert (failureThreshold (config self) <= failures self)
        by (apply Hother; congruence). lia.
    - unfold onFailure. simpl. by destruct (_ <=? _). }
  destruct r; simpl; try exact Hfail.
  destruct (onSuccess_closes self Hs) as (Hst & Hf0 & _).
  rewrite Hst, Hf0. split; [done|]. split; [done|].
  unfold onSuccess. simpl. by case_decide.
Qed.

Lemma execute_rest self w operation :
  breaker_invariant self ->
  state self ≠ HALF_OPEN ->
  0 <= failures self ->
  state (fst (snd (execute operation (self, w)))) ≠ HALF_OPEN
  /\ 0 <= failures (fst (snd (execute operation (self, w))))
  /\ serviceName (fst (snd (execute operation (self, w)))) = serviceName self.
Proof.
  intros Hinv Hs Hf. destruct (decide (state self = OPEN)) as [Hopen|Hopen].
  - destruct (Z.lt_ge_cases (resetTimeout (config self)) (clock w - lastFailureTime self)).
    + rewrite execute_probes, attempt_run by done. simpl.
      destruct (settle_breaker_rest (set_state HALF_OPEN self) (fst (operation w))
                  (clock (snd (operation w)))) as (? & ? & ?); try done.
      destruct Hinv as [_ Hother]. split; simpl; [discriminate|].
      intros _. apply Hother. congruence.
    + by rewrite execute_rejects by (done || lia).
  - rewrite execute_passes, attempt_run by done. simpl.
    by apply settle_breaker_rest.
Qed.

Lemma reachable_rests self :
  @reachable P A T self -> state self ≠ HALF_OPEN /\ 0 <= failures self.
Proof.
  induction 1 as [name given | self w operation Hreach [IHs IHf]].
  - simpl. split; [discriminate | lia].
  - destruct (execute_rest self w operation (reachable_invariant self Hreach) IHs IHf)
      as (? & ? & _). done.
Qed.

(** X6. Between calls made one after the other a breaker is [CLOSED] or
    [OPEN], never [HALF_OPEN]: the probe that [HALF_OPEN] lets through always
    ends the state, in [CLOSED] or in [OPEN]. Its failure counter is never
    negative. *)
Theorem breaker_rests_closed_or_open self :
  @reachable P A T self ->
  (state self = CLOSED \/ state self = OPEN) /\ 0 <= failures self.
Proof.
  intros Hreach. destruct (reachable_rests self Hreach) as [Hs Hf]. split; [|done].
  destruct (state self); auto. done.
Qed.

(** X7. A failed probe starts the cooldown again: after it, a call made no
    later than [resetTimeout] after the probe's failure is rejected, with
    the [TypeError] that the [throw] of the breaker-open error ends in, and
    its operation is not run: breaker and world stay as they are. *)
Theorem failed_probe_restarts_the_cooldown self w operation :
  @reachable P A T self ->
  state self = OPEN ->
  resetTimeout (config self) < clock w - lastFailureTime self ->
  has_failed (fst (operation w)) ->
  let self' := fst (snd (execute operation (self, w))) in
  lastFailureTime self' = clock (snd (operation w))
  /\ forall w' operation',
       clock w' - clock (snd (operation w)) <= resetTimeout (config self) ->
       execute operation' (self', w')
       = (Rejected (TypeError "types_1.CircuitBreakerError is not a constructor"),
          (self', w')).
Proof.
  intros Hreach Hs Ht Hfailed self'.
  pose proof (reachable_invariant self Hreach) as Hinv.
  destruct (probe_run self w operation Hinv Hs Ht) as (_ & _ & Hfail).
  destruct (Hfail Hfailed) as (_ & Hopen & _ & Hlast).
  fold self' in Hopen, Hlast. split; [done|].
  intros w' operation' Hearly.
  assert (Hcfg : config self' = config self) by apply execute_config.
  apply execute_rejects; [done|]. rewrite Hlast, Hcfg. done.
Qed.

End BreakerMore.
Section BreakerReports.

Context {P A T : Type}.
Implicit Types (self : CircuitBreaker) (w : World P A) (operation : Operation P A T).

(** X8. A call that is let through gives back what the operation gave: its
    value, or the error it threw. An operation still pending when the timer
    of [timeout] milliseconds fires is reported as the error "Operation timed
    out after <timeout>ms" and counted as a failure like any other. In every
    case the operation ran once. *)
Theorem execute_reports_the_operation self w operation :
  state self ≠ OPEN ->
  let r := fst (execute operation (self, w)) in
  let self' := fst (snd (execute operation (self, w))) in
  snd (snd (execute operation (self, w))) = snd (operation w)
  /\ match fst (operation w) with
     | Fulfilled value => r = Resolved value /\ failures self' = 0
     | Threw error => r = Rejected error /\ failures self' = failures self + 1
     | StillPending =>
         r = Rejected (OperationTimedOut (timeout (config self)))
         /\ failures self' = failures self + 1
         /\ message_of (OperationTimedOut (timeout (config self)))
            = "Operation timed out after " +:+ pretty (timeout (config self)) +:+ "ms"
     end.
Proof.
  intros Hs r self'. unfold r, self'.
  rewrite execute_passes, attempt_run by done. simpl. split; [done|].
  destruct (fst (operation w)); simpl.
  - split; [done|]. by destruct (onSuccess_closes self Hs) as (_ & ? & _).
  - split; [done|]. by destruct (onFailure_counts (clock (snd (operation w))) self).
  - split; [done|]. split; [|done].
    by destruct (onFailure_counts (clock (snd (operation w))) self).
Qed.

(** ** The breakers of a MessageProcessor *)

Implicit Types (breakers : gmap string CircuitBreaker).

Lemma processWithCircuitBreaker_run name operation given breakers w :
  processWithCircuitBreaker name operation given (breakers, w)
  = (fst (execute operation
            (default (new_CircuitBreaker name (default no_breaker_options given))
               (breakers !! name), w)),
     (<[name := fst (snd (execute operation
            (default (new_CircuitBreaker name (default no_breaker_options given))
               (breakers !! name), w)))]> breakers,
      snd (snd (execute operation
            (default (new_CircuitBreaker name (default no_breaker_options given))
               (breakers !! name), w))))).
Proof.
  unfold processWithCircuitBreaker. unfold bind at 1. unfold bind at 1, get. simpl.
  destruct (breakers !! name) as [cb|] eqn:Hb.
  - unfold ret. simpl. rewrite Hb. simpl.
    by destruct (execute operation (cb, w)) as [r [cb' w']].
  - unfold on_self, modify. simpl. rewrite lookup_insert_eq. simpl.
    destruct (execute operation _) as [r [cb' w']]. simpl.
    by rewrite insert_insert_eq.
Qed.

(** X9. The breakers of different services do not touch each other: a call
    through [processWithCircuitBreaker] for one service leaves the breaker
    of every other service, and so its reported status, as it was, and creates
    no breaker for a service that has none. *)
Theorem breakers_are_kept_per_service name other operation given breakers w :
  other ≠ name ->
  let breakers' := fst (snd (processWithCircuitBreaker name operation given (breakers, w))) in
  breakers' !! other = breakers !! other
  /\ getCircuitBreakerStatus other breakers' = getCircuitBreakerStatus other breakers
  /\ is_Some (breakers' !! name).
Proof.
  intros Hne breakers'. unfold breakers'. rewrite processWithCircuitBreaker_run. simpl.
  assert (Hother : forall cb, <[name := cb]> breakers !! other = breakers !! other)
    by (intros cb; apply lookup_insert_ne; congruence).
  split; [apply Hother|]. split.
  - unfold getCircuitBreakerStatus. by rewrite Hother.
  - rewrite lookup_insert_eq. eauto.
Qed.

(** X10. The configuration passed to [processWithCircuitBreaker] counts on
    the first call for a service only. A later call runs on the breaker the
    map already holds: whatever configuration it passes, the breaker keeps the
    one it was made with, and the call is the breaker's [execute]. *)
Theorem breaker_keeps_its_first_configuration name operation given breakers w self :
  breakers !! name = Some self ->
  let called := processWithCircuitBreaker name operation given (breakers, w) in
  fst called = fst (execute operation (self, w))
  /\ fst (snd called) !! name = Some (fst (snd (execute operation (self, w))))
  /\ (config <$> fst (snd called) !! name) = Some (config self).
Proof.
  intros Hb called. unfold called. rewrite processWithCircuitBreaker_run, Hb. simpl.
  split; [done|]. rewrite lookup_insert_eq. split; [done|]. simpl.
  by rewrite execute_config.
Qed.

End BreakerReports.

Lemma breaker_rests_closed_or_open_witness :
  (state (fst after_two_failures) = CLOSED \/ state (fst after_two_failures) = OPEN)
  /\ 0 <= failures (fst after_two_failures).
Proof.
  apply (@breaker_rests_closed_or_open unit nat string).
  apply after_two_failures_reachable.
Defined.

Lemma failed_probe_restarts_the_cooldown_witness :
  execute gateway_up
    (fst (snd (execute gateway_down
                 (fst after_two_failures, at_time 40000 (snd after_two_failures)))),
     at_time 60000 (snd after_two_failures))
  = (Rejected (TypeError "types_1.CircuitBreakerError is not a constructor"),
     (fst (snd (execute gateway_down
                  (fst after_two_failures, at_time 40000 (snd after_two_failures)))),
      at_time 60000 (snd after_two_failures))).
Proof.
  destruct (@failed_probe_restarts_the_cooldown unit nat string
              (fst after_two_failures) (at_time 40000 (snd after_two_failures))
              gateway_down) as [_ early].
  - apply after_two_failures_reachable.
  - reflexivity.
  - vm_compute. reflexivity.
  - exact I.
  - apply (early (at_time 60000 (snd after_two_failures)) gateway_up).
    vm_compute. discriminate.
Defined.

Lemma execute_reports_the_operation_witness :
  fst (execute (fun w => (StillPending, at_time 60000 w))
         (payments_breaker, quiet_world 0 1 O))
  = Rejected (OperationTimedOut 60000) (A := string).
Proof.
  destruct (@execute_reports_the_operation unit nat string payments_breaker
              (quiet_world 0 1 O) (fun w => (StillPending, at_time 60000 w)))
    as [_ (pending & _)].
  - discriminate.
  - exact pending.
Defined.

Lemma breakers_are_kept_per_service_witness :
  getCircuitBreakerStatus "inventory"
    (fst (snd (processWithCircuitBreaker "payments" gateway_down None
                 ({["inventory" := payments_breaker]}, quiet_world 0 1 O))))
  = getCircuitBreakerStatus "inventory" {["inventory" := payments_breaker]}.
Proof.
  destruct (@breakers_are_kept_per_service unit nat string "payments" "inventory"
              gateway_down None {["inventory" := payments_breaker]} (quiet_world 0 1 O))
    as (_ & same & _).
  - discriminate.
  - exact same.
Defined.

Lemma breaker_keeps_its_first_configuration_witness :
  (config <$>
     fst (snd (processWithCircuitBreaker "payments" gateway_down
                 (Some {| given_failureThreshold := Some 50; given_timeout := Some 1;
                          given_resetTimeout := Some 1; given_monitoringPeriod := None |})
                 ({["payments" := payments_breaker]}, quiet_world 0 1 O)))
     !! "payments")
  = Some (config payments_breaker).
Proof.
  destruct (@breaker_keeps_its_first_configuration unit nat string "payments"
              gateway_down
              (Some {| given_failureThreshold := Some 50; given_timeout := Some 1;
                       given_resetTimeout := Some 1; given_monitoringPeriod := None |})
              {["payments" := payments_breaker]} (quiet_world 0 1 O) payments_breaker)
    as (_ & _ & kept).
  - apply lookup_singleton_eq.
  - exact kept.
Defined.
(** ** The batch processor *)

Section BatchFacts.

Context {P A : Type}.
Implicit Types (b : BatchState P) (w : World P A).
Implicit Types (batchHandler : list P -> M (World P A) unit).

Lemma flush_run batchHandler b w :
  batch b ≠ [] ->
  flush batchHandler (b, w)
  = match batchHandler (batch b) w with
    | (Resolved _, w') => (Resolved tt, ({| batch := []; flushTimer := None |}, w'))
    | (Rejected error, w') => (Rejected error, (b, w'))
    end.
Proof.
  intros Hb; unfold flush; unfold bind at 1, get; simpl.
  destruct (batch b) as [|x xs] eqn:Hbatch; [done|].
  unfold bind, try_catch, on_self, on_world, modify, throw, ret, get. simpl.
  destruct (batchHandler (x :: xs) w) as [[[]|error] w']; simpl.
  - destruct (flushTimer b) eqn:Ht; unfold set_flushTimer, set_batch; simpl;
      [done | by rewrite Ht].
  - rewrite app_nil_r. destruct b as [bt ft]. simpl in *. by rewrite Hbatch.
Qed.

(** X11. [flush] hands the whole batch, in arrival order, to the batch
    handler in one call. When that call succeeds the batch is empty
    afterwards and no timer is left set; when it fails the error is thrown
    on, and batch and timer are as before. With an empty batch the batch
    handler is not called at all. *)
Theorem flush_empties_or_restores batchHandler b w :
  (batch b = [] -> flush batchHandler (b, w) = (Resolved tt, (b, w)))
  /\ (batch b ≠ [] ->
      flush batchHandler (b, w)
      = match batchHandler (batch b) w with
        | (Resolved _, w') =>
            (Resolved tt, ({| batch := []; flushTimer := None |}, w'))
        | (Rejected error, w') => (Rejected error, (b, w'))
        end).
Proof.
  split; intros Hb.
  - unfold flush; unfold bind at 1, get; simpl. by rewrite Hb.
  - by apply flush_run.
Qed.

Lemma batch_handler_run batchHandler batchSize message context b w :
  batch_handler batchHandler batchSize message context (b, w)
  = if default 10 batchSize <=? Z.of_nat (length (batch b ++ [message])) then
      match batchHandler (batch b ++ [message]) w with
      | (Resolved _, w') =>
          (fst (ack context w'),
           ({| batch := []; flushTimer := None |}, snd (ack context w')))
      | (Rejected error, w') =>
          (Rejected error,
           ({| batch := batch b ++ [message]; flushTimer := flushTimer b |}, w'))
      end
    else
      (fst (ack context w),
       ({| batch := batch b ++ [message];
           flushTimer := Some (default true (flushTimer b)) |},
        snd (ack context w))).
Proof.
  unfold batch_handler. unfold bind at 1, on_self, modify. simpl.
  unfold bind at 1. unfold bind at 1, get. simpl.
  destruct (default 10 batchSize <=? Z.of_nat (length (batch b ++ [message]))).
  - rewrite flush_run by (simpl; by destruct (batch b)). simpl.
    destruct (batchHandler (batch b ++ [message]) w) as [[[]|error] w']; simpl.
    + unfold on_world. simpl. by destruct (ack context w').
    + done.
  - unfold scheduleFlush. unfold bind, get, on_self, on_world, modify, ret. simpl.
    destruct (flushTimer b) as [pending|] eqn:Ht; simpl;
      destruct (ack context w) as [r w1]; unfold set_flushTimer, set_batch; simpl;
      by rewrite ?Ht.
Qed.

(** X12. One delivery to the batch processor. Below the batch size the
    message joins the batch, a timer is set if none is, and the delivery is
    acknowledged. At the batch size the whole batch goes to the batch
    handler: if that succeeds, the batch is empty, no timer is left and the
    delivery is acknowledged; if it fails, the call rejects with the batch
    handler's error, the delivery is not acknowledged, and the message stays
    in the batch behind the earlier ones. *)
Theorem batch_handler_acknowledges_unless_flush_fails
    batchHandler batchSize message context b w :
  (Z.of_nat (length (batch b)) + 1 < default 10 batchSize ->
   channel w ≠ O ->
   batch_handler batchHandler batchSize message context (b, w)
   = (Resolved tt,
      ({| batch := batch b ++ [message];
          flushTimer := Some (default true (flushTimer b)) |},
       send (Acked (ctx_deliveryTag context)) w)))
  /\ (default 10 batchSize <= Z.of_nat (length (batch b)) + 1 ->
      forall w',
        batchHandler (batch b ++ [message]) w = (Resolved tt, w') ->
        channel w' ≠ O ->
        batch_handler batchHandler batchSize message context (b, w)
        = (Resolved tt,
           ({| batch := []; flushTimer := None |},
            send (Acked (ctx_deliveryTag context)) w')))
  /\ (default 10 batchSize <= Z.of_nat (length (batch b)) + 1 ->
      forall error w',
        batchHandler (batch b ++ [message]) w = (Rejected error, w') ->
        batch_handler batchHandler batchSize message context (b, w)
        = (Rejected error,
           ({| batch := batch b ++ [message]; flushTimer := flushTimer b |}, w'))).
Proof.
  assert (Hlen : Z.of_nat (length (batch b ++ [message])) = Z.of_nat (length (batch b)) + 1)
    by (rewrite length_app; simpl; lia).
  rewrite batch_handler_run, Hlen.
  split; [|split].
  - intros Hsize Hch.
    destruct (Z.leb_spec (default 10 batchSize) (Z.of_nat (length (batch b)) + 1)); [lia|].
    by rewrite ack_run.
  - intros Hsize w' Hh Hch.
    destruct (Z.leb_spec (default 10 batchSize) (Z.of_nat (length (batch b)) + 1)); [|lia].
    rewrite Hh. by rewrite ack_run.
  - intros Hsize error w' Hh.
    destruct (Z.leb_spec (default 10 batchSize) (Z.of_nat (length (batch b)) + 1)); [|lia].
    by rewrite Hh.
Qed.

End BatchFacts.
Section BatchConservation.

Context {P : Type}.
Implicit Types (b : BatchState P) (w : World P (list P)).

Lemma channel_call_app (op : ChannelOp P) w :
  app (snd (channel_call op w)) = app w
  /\ acknowledged (wire (snd (channel_call op w)))
     = match fst (channel_call op w), op with
       | Resolved _, Acked tag => acknowledged (wire w) ++ [tag]
       | _, _ => acknowledged (wire w)
       end.
Proof.
  unfold channel_call. destruct (channel w); simpl; [done|]. split; [done|].
  unfold acknowledged. rewrite omap_app. simpl.
  destruct op; simpl; by rewrite ?app_nil_r.
Qed.

Lemma store_unless_world down (messages : list P) w :
  wire (snd (store_unless down messages w)) = wire w
  /\ match fst (store_unless down messages w) with
     | Resolved _ => app (snd (store_unless down messages w)) = app w ++ messages
     | Rejected _ => snd (store_unless down messages w) = w
     end.
Proof. unfold store_unless. by destruct (down w). Qed.

(** One delivery: nothing is lost and nothing is doubled, and the delivery
    is acknowledged exactly when the call resolves. *)
Lemma one_delivery_conserves down batchSize message context b w :
  let called := batch_handler (store_unless down) batchSize message context (b, w) in
  app (snd (snd called)) ++ batch (fst (snd called)) = app w ++ batch b ++ [message]
  /\ acknowledged (wire (snd (snd called)))
     = match fst called with
       | Resolved _ => acknowledged (wire w) ++ [ctx_deliveryTag context]
       | Rejected _ => acknowledged (wire w)
       end.
Proof.
  intros called. unfold called. rewrite batch_handler_run.
  destruct (default 10 batchSize <=? _).
  - destruct (store_unless_world down (batch b ++ [message]) w) as [Hwire Hres].
    destruct (store_unless down (batch b ++ [message]) w) as [[[]|error] w']; simpl in *.
    + destruct (channel_call_app (Acked (ctx_deliveryTag context)) w') as [Happ Hack].
      unfold ack. rewrite Happ, Hack, Hres, Hwire, app_nil_r.
      split; [done|]. by destruct (fst (channel_call _ w')).
    + subst w'. by rewrite app_assoc.
  - simpl. destruct (channel_call_app (Acked (ctx_deliveryTag context)) w) as [Happ Hack].
    unfold ack. rewrite Happ, Hack. split; [done|].
    by destruct (fst (channel_call _ w)).
Qed.

(** X13. The batch processor neither loses nor doubles nor reorders
    messages, however the batch handler fails: after any run of deliveries,
    what the batch handler has stored followed by what is still in the batch
    is what was there before followed by the messages delivered, in their
    order. And the deliveries acknowledged are exactly those whose call
    resolved. *)
Theorem batch_processor_conserves_messages down batchSize (messages : list P) :
  forall tag b w,
    let run := batch_deliveries (store_unless down) batchSize tag messages (b, w) in
    app (snd (snd run)) ++ batch (fst (snd run)) = app w ++ batch b ++ messages
    /\ acknowledged (wire (snd (snd run)))
       = acknowledged (wire w) ++ resolved_tags tag (fst run).
Proof.
  induction messages as [|message rest IH]; intros tag b w; simpl.
  - by rewrite !app_nil_r.
  - pose proof (one_delivery_conserves down batchSize message
                  {| ctx_deliveryTag := tag; ctx_correlationId := None;
                     ctx_replyTo := None; ctx_headers := ∅;
                     ctx_properties_replyTo := None |} b w) as Hone.
    cbv zeta in Hone.
    destruct (batch_handler (store_unless down) batchSize message _ (b, w))
      as [r [b' w']]. simpl in Hone. destruct Hone as [Hkeep Hack].
    specialize (IH (S tag) b' w'). cbv zeta in IH.
    destruct (batch_deliveries (store_unless down) batchSize (S tag) rest (b', w'))
      as [rs [b'' w'']]. simpl in IH |- *. destruct IH as [IHkeep IHack].
    split.
    + rewrite IHkeep, app_assoc, Hkeep. by rewrite <- !app_assoc.
    + rewrite IHack, Hack. destruct r; simpl; by rewrite <- ?app_assoc.
Qed.

End BatchConservation.

Section BatchTimer.

Context {P A : Type}.
Implicit Types (b : BatchState P) (w : World P A).
Implicit Types (batchHandler : list P -> M (World P A) unit).

Lemma below_size_keeps_timer batchHandler batchSize (messages : list P) :
  forall tag b w,
    flushTimer b = Some false ->
    Z.of_nat (length (batch b)) + Z.of_nat (length messages) < default 10 batchSize ->
    let b' := fst (snd (batch_deliveries batchHandler batchSize tag messages (b, w))) in
    flushTimer b' = Some false /\ batch b' = batch b ++ messages.
Proof.
  induction messages as [|message rest IH]; intros tag b w Ht Hsize; simpl.
  - by rewrite app_nil_r.
  - simpl in Hsize. rewrite batch_handler_run, length_app. simpl.
    destruct (Z.leb_spec (default 10 batchSize) (Z.of_nat (length (batch b) + 1))); [lia|].
    simpl.
    specialize (IH (S tag)
                  {| batch := batch b ++ [message];
                     flushTimer := Some (default true (flushTimer b)) |}
                  (snd (ack {| ctx_deliveryTag := tag; ctx_correlationId := None;
                               ctx_replyTo := None; ctx_headers := ∅;
                               ctx_properties_replyTo := None |} w))).
    destruct (batch_deliveries batchHandler batchSize (S tag) rest _) as [rs [b'' w'']].
    simpl in IH |- *. destruct IH as [IHt IHb].
    + simpl. by rewrite Ht.
    + simpl. rewrite length_app. simpl. lia.
    + split; [done|]. rewrite IHb. simpl. by rewrite <- app_assoc.
Qed.

(** X14. When the timed flush fails, the failure is only logged: the call
    resolves, the messages stay in the batch, and [flushTimer] keeps the
    handle of the timer that fired. [scheduleFlush] takes that handle for a
    pending timer, so the deliveries that follow, as long as they stay below
    the batch size, set no new timer: the batch waits for a flush that no
    timer will trigger. *)
Theorem failed_timed_flush_leaves_no_timer batchHandler b w error w1 :
  flushTimer b = Some true ->
  batch b ≠ [] ->
  batchHandler (batch b) w = (Rejected error, w1) ->
  flush_timer_fires batchHandler (b, w)
  = (Resolved tt, ({| batch := batch b; flushTimer := Some false |}, w1))
  /\ forall batchSize tag (messages : list P),
       Z.of_nat (length (batch b)) + Z.of_nat (length messages) < default 10 batchSize ->
       let b' := fst (snd (batch_deliveries batchHandler batchSize tag messages
                             ({| batch := batch b; flushTimer := Some false |}, w1))) in
       flushTimer b' = Some false /\ batch b' = batch b ++ messages.
Proof.
  intros Ht Hb Hh. split.
  - unfold flush_timer_fires. unfold bind at 1, get. simpl. rewrite Ht.
    unfold bind at 1, on_self, modify. simpl. unfold try_catch.
    rewrite flush_run by done. simpl. by rewrite Hh.
  - intros batchSize tag messages Hsize.
    by apply (below_size_keeps_timer batchHandler batchSize messages tag
                {| batch := batch b; flushTimer := Some false |} w1).
Qed.

End BatchTimer.
Lemma batch_handler_acknowledges_unless_flush_fails_witness :
  batch_handler (store_unless (fun _ => true)) (Some 2) "b" (plain_delivery 7)
    ({| batch := ["a"]; flushTimer := Some true |}, quiet_world 0 1 [])
  = (Rejected (ApplicationError "store is down"),
     ({| batch := ["a"; "b"]; flushTimer := Some true |}, quiet_world 0 1 [])).
Proof.
  destruct (@batch_handler_acknowledges_unless_flush_fails string (list string)
              (store_unless (fun _ => true)) (Some 2) "b" (plain_delivery 7)
              {| batch := ["a"]; flushTimer := Some true |} (quiet_world 0 1 []))
    as (_ & _ & failing).
  apply (failing ltac:(simpl; lia) (ApplicationError "store is down")
           (quiet_world 0 1 [])).
  reflexivity.
Defined.

Lemma failed_timed_flush_leaves_no_timer_witness :
  flush_timer_fires (store_unless (fun _ => true))
    ({| batch := ["a"]; flushTimer := Some true |}, quiet_world 0 1 [])
  = (Resolved tt, ({| batch := ["a"]; flushTimer := Some false |}, quiet_world 0 1 [])).
Proof.
  destruct (@failed_timed_flush_leaves_no_timer string (list string)
              (store_unless (fun _ => true))
              {| batch := ["a"]; flushTimer := Some true |} (quiet_world 0 1 [])
              (ApplicationError "store is down") (quiet_world 0 1 [])) as [swallowed _].
  - reflexivity.
  - discriminate.
  - reflexivity.
  - exact swallowed.
Defined.
(** ** publish, further *)

Section PublishMore.

Context {P A : Type}.
Implicit Types (w : World P A) (options : PublishOptions).

Lemma publish_sends ex rk (message : P) options w :
  channel w ≠ O ->
  publish ex rk message options w
  = (Resolved true,
     use_channel (send (Published
       {| exchange :=
            if negb (or_default (opt_delay options) 0 =? 0) then "delayed" else ex;
          routingKey := rk;
          content := message;
          persistent := negb (bool_decide (opt_persistent options = Some false));
          priority := opt_priority options;
          expiration := opt_expiration options;
          correlationId := opt_correlationId options;
          replyTo := opt_replyTo options;
          headers :=
            if negb (or_default (opt_delay options) 0 =? 0)
            then <["x-delay" := HNum (or_default (opt_delay options) 0)]>
                   (default_headers (default ∅ (opt_headers options)) (clock w)
                      (or_default (opt_maxRetries options) 3))
            else default_headers (default ∅ (opt_headers options)) (clock w)
                   (or_default (opt_maxRetries options) 3) |}) w)).
Proof. intros Hch. unfold publish. by destruct (channel w). Qed.

Lemma default_headers_lookup (given : Headers) now maxRetries key :
  default_headers given now maxRetries !! key
  = match given !! key with
    | Some value => Some value
    | None =>
        if decide (key = "timestamp") then Some (HNum now)
        else if decide (key = "retryCount") then Some (HNum 0)
        else if decide (key = "maxRetries") then Some (HNum maxRetries)
        else None
    end.
Proof.
  unfold default_headers. rewrite lookup_union.
  destruct (given !! key) as [value|]; simpl.
  - by destruct (_ !! key).
  - rewrite (left_id_L None union).
    repeat (rewrite lookup_insert; case_decide; [subst; by repeat case_decide|]).
    rewrite lookup_empty. by repeat case_decide.
Qed.

(** X15. The headers of a published message: every header the caller gave
    goes out with the caller's value, also [timestamp], [retryCount] and
    [maxRetries]; where the caller gave none of these, [timestamp] is the
    current time, [retryCount] is 0 and [maxRetries] is [options.maxRetries],
    or 3 when that is missing or 0. Nothing else is added but [x-delay]. The
    message is persistent unless the caller passed [persistent: false]. *)
Theorem publish_lets_caller_headers_win ex rk (message : P) options w :
  channel w ≠ O ->
  exists f,
    publish ex rk message options w
    = (Resolved true, use_channel (send (Published f) w))
    /\ content f = message
    /\ routingKey f = rk
    /\ (forall key, key ≠ "x-delay" ->
          headers f !! key
          = match default ∅ (opt_headers options) !! key with
            | Some value => Some value
            | None =>
                if decide (key = "timestamp") then Some (HNum (clock w))
                else if decide (key = "retryCount") then Some (HNum 0)
                else if decide (key = "maxRetries")
                     then Some (HNum (or_default (opt_maxRetries options) 3))
                else None
            end)
    /\ (persistent f = false <-> opt_persistent options = Some false).
Proof.
  intros Hch. eexists. split; [by apply publish_sends|]. simpl.
  split; [done|]. split; [done|]. split.
  - intros key Hkey. destruct (negb _).
    + rewrite lookup_insert_ne by done. apply default_headers_lookup.
    + apply default_headers_lookup.
  - rewrite negb_false_iff. apply bool_decide_eq_true.
Qed.

(** X16. A delay that is not zero takes the message away from the exchange
    the caller named: it goes to the exchange [delayed], under the caller's
    routing key, with the delay in the header [x-delay], whatever [x-delay]
    the caller gave. With no delay, or a delay of 0, the message goes to the
    exchange named and [x-delay] is whatever the caller's headers hold. *)
Theorem publish_routes_delays_to_the_delayed_exchange
    ex rk (message : P) options w :
  channel w ≠ O ->
  exists f,
    publish ex rk message options w
    = (Resolved true, use_channel (send (Published f) w))
    /\ routingKey f = rk
    /\ (forall delay,
          opt_delay options = Some delay -> delay ≠ 0 ->
          exchange f = "delayed" /\ headers f !! "x-delay" = Some (HNum delay))
    /\ ((opt_delay options = None \/ opt_delay options = Some 0) ->
        exchange f = ex
        /\ headers f !! "x-delay" = default ∅ (opt_headers options) !! "x-delay").
Proof.
  intros Hch. eexists. split; [by apply publish_sends|]. simpl.
  split; [done|]. split.
  - intros delay Hd Hne. rewrite Hd. simpl.
    destruct (Z.eqb_spec delay 0); [done|]. simpl.
    rewrite (proj2 (Z.eqb_neq delay 0)) by done. simpl.
    split; [done | apply lookup_insert_eq].
  - intros [Hd | Hd]; rewrite Hd; simpl; (split; [done|]);
      rewrite default_headers_lookup; by destruct (_ !! "x-delay").
Qed.

End PublishMore.

Lemma publish_lets_caller_headers_win_witness :
  exists f : Frame string,
    publish "orders" "order.created" "order 42"
      {| opt_priority := None; opt_expiration := None; opt_correlationId := None;
         opt_replyTo := None; opt_headers := Some {["retryCount" := HNum 2]};
         opt_persistent := None; opt_delay := None; opt_maxRetries := Some 0 |}
      (quiet_world 1000 1 tt)
    = (Resolved true, use_channel (send (Published f) (quiet_world 1000 1 tt)))
    /\ headers f !! "retryCount" = Some (HNum 2)
    /\ headers f !! "timestamp" = Some (HNum 1000)
    /\ headers f !! "maxRetries" = Some (HNum 3)
    /\ persistent f = true.
Proof.
  destruct (@publish_lets_caller_headers_win string unit "orders" "order.created" "order 42"
              {| opt_priority := None; opt_expiration := None; opt_correlationId := None;
                 opt_replyTo := None; opt_headers := Some {["retryCount" := HNum 2]};
                 opt_persistent := None; opt_delay := None; opt_maxRetries := Some 0 |}
              (quiet_world 1000 1 tt)) as (f & run & _ & _ & given & kept);
    [simpl; lia|].
  exists f. split; [exact run|].
  rewrite !given by done. repeat split; try reflexivity.
  destruct kept as [off _]. destruct (persistent f); [done|].
  by specialize (off eq_refl).
Defined.

Lemma publish_routes_delays_to_the_delayed_exchange_witness :
  exists f : Frame string,
    publish "orders" "order.created" "order 42"
      {| opt_priority := None; opt_expiration := None; opt_correlationId := None;
         opt_replyTo := None; opt_headers := Some {["x-delay" := HNum 5]};
         opt_persistent := None; opt_delay := Some 2000; opt_maxRetries := None |}
      (quiet_world 1000 1 tt)
    = (Resolved true, use_channel (send (Published f) (quiet_world 1000 1 tt)))
    /\ exchange f = "delayed"
    /\ routingKey f = "order.created"
    /\ headers f !! "x-delay" = Some (HNum 2000).
Proof.
  destruct (@publish_routes_delays_to_the_delayed_exchange string unit
              "orders" "order.created" "order 42"
              {| opt_priority := None; opt_expiration := None; opt_correlationId := None;
                 opt_replyTo := None; opt_headers := Some {["x-delay" := HNum 5]};
                 opt_persistent := None; opt_delay := Some 2000; opt_maxRetries := None |}
              (quiet_world 1000 1 tt)) as (f & run & key & delayed & _);
    [simpl; lia|].
  exists f. split; [exact run|].
  destruct (delayed 2000) as [there carried]; [reflexivity | lia |].
  done.
Defined.

(** ** The callback of consume *)

Section ConsumeCallback.

Context {P A : Type}.
Implicit Types (w : World P A) (handler : MessageHandler P A) (msg : Delivery (P:=P)).
Implicit Types (options : ConsumeOptions).

Lemma createRetryHandler_failed handler maxRetries baseDelay message context w error w1 :
  handler message context w = (Rejected error, w1) ->
  createRetryHandler handler maxRetries baseDelay message context w
  = if retryCount_of (ctx_headers context) <? default 3 maxRetries then
      (discard (publish "retry" "retry" message
         (retry_options
            (default 1000 baseDelay * 2 ^ retryCount_of (ctx_headers context))
            (processor_retry_headers context error))) >>>
       ack context) w1
    else nack context (Some false) w1.
Proof.
  intros Hh. unfold createRetryHandler, try_catch. rewrite Hh.
  destruct (retryCount_of (ctx_headers context) <? default 3 maxRetries); reflexivity.
Qed.

(** X17. The callback [consume] registers, with [autoAck] off and the channel
    open, on a delivery whose counter is missing or a natural number,
    always resolves and settles the delivery itself: one
    acknowledgement after a handler that returns; after a handler that
    throws, below [maxRetries], the retry frame and then one acknowledgement;
    with the retries used up, two rejections without requeue, one from
    [handleMessageWithRetry] and one from the callback's own [catch]. It
    never requeues. *)
Theorem consume_callback_settles_the_delivery handler options msg w r w1 :
  handler (body msg) (context_of msg) w = (r, w1) ->
  default false (co_autoAck options) = false ->
  (2 <= channel w1)%nat ->
  retry_in_range (ctx_headers (context_of msg)) (or_default (co_maxRetries options) 3)
    (or_default (co_retryDelay options) 1000) ->
  on_message handler options msg w
  = (Resolved tt,
     match r with
     | Resolved _ => send (Acked (deliveryTag msg)) w1
     | Rejected _ =>
         if retryCount_of (ctx_headers (context_of msg))
            <? or_default (co_maxRetries options) 3
         then
           send (Acked (deliveryTag msg))
             (use_channel (send (Published
                (retry_frame (body msg)
                   (or_default (co_retryDelay options) 1000
                    * 2 ^ retryCount_of (ctx_headers (context_of msg)))
                   (connection_retry_headers (context_of msg)) (clock w1))) w1))
         else
           send (Nacked (deliveryTag msg) false)
             (send (Nacked (deliveryTag msg) false) w1)
     end).
Proof.
  intros Hh Hauto Hch _. destruct r as [[]|error].
  - unfold on_message, handleMessageWithRetry, try_catch. unfold bind at 1.
    rewrite Hh, Hauto. by rewrite ack_run by lia.
  - unfold on_message. unfold try_catch at 1.
    rewrite (handleMessageWithRetry_on_failure _ _ _ _ _ _ _ Hh).
    destruct (_ <? _).
    + by rewrite retry_then_ack.
    + unfold bind, throw. rewrite nack_run by lia. rewrite Hauto.
      unfold channel_call. simpl. destruct (channel w1) eqn:E; [lia|done].
Qed.

(** X18. A handler wrapped by [createRetryHandler] and then passed to
    [consume], as the order service does, on a delivery whose counter is
    missing or a natural number: the wrapper settles a failed
    delivery and returns, so [handleMessageWithRetry] takes the call for a
    success and acknowledges the delivery once more. A failure below
    [maxRetries] puts the retry frame and two acknowledgements on the
    channel; with the retries used up, a rejection and then an
    acknowledgement of the same delivery. The connection's own retry branch
    and its [RetryExhaustedError] are never reached. *)
Theorem wrapped_handler_is_settled_twice handler maxRetries baseDelay options msg w r w1 :
  handler (body msg) (context_of msg) w = (r, w1) ->
  default false (co_autoAck options) = false ->
  (2 <= channel w1)%nat ->
  retry_in_range (ctx_headers (context_of msg)) (default 3 maxRetries)
    (default 1000 baseDelay) ->
  on_message (createRetryHandler handler maxRetries baseDelay) options msg w
  = (Resolved tt,
     match r with
     | Resolved _ => send (Acked (deliveryTag msg)) w1
     | Rejected error =>
         if retryCount_of (ctx_headers (context_of msg)) <? default 3 maxRetries
         then
           send (Acked (deliveryTag msg))
             (send (Acked (deliveryTag msg))
                (use_channel (send (Published
                   (retry_frame (body msg)
                      (default 1000 baseDelay
                       * 2 ^ retryCount_of (ctx_headers (context_of msg)))
                      (processor_retry_headers (context_of msg) error) (clock w1))) w1)))
         else
           send (Acked (deliveryTag msg))
             (send (Nacked (deliveryTag msg) false) w1)
     end).
Proof.
  intros Hh Hauto Hch _. unfold on_message, handleMessageWithRetry, try_catch.
  unfold bind at 1. destruct r as [[]|error].
  - rewrite (createRetryHandler_on_success _ _ _ _ _ _ _ Hh), Hauto.
    by rewrite ack_run by lia.
  - rewrite (createRetryHandler_failed _ _ _ _ _ _ _ _ Hh).
    destruct (_ <? _).
    + rewrite retry_then_ack by done. rewrite Hauto.
      by rewrite ack_run by (simpl; lia).
    + rewrite nack_run by lia. rewrite Hauto. by rewrite ack_run by (simpl; lia).
Qed.

(** X19. With [autoAck] on, on a delivery whose counter is missing or a
    natural number, the callback still resolves; it sends nothing
    after a handler that returns, but the retry branch acknowledges the
    delivery all the same, and with the retries used up the delivery is
    rejected once: the callback's own [catch] adds nothing. *)
Theorem autoAck_callback_still_settles_failures handler options msg w r w1 :
  handler (body msg) (context_of msg) w = (r, w1) ->
  co_autoAck options = Some true ->
  (2 <= channel w1)%nat ->
  retry_in_range (ctx_headers (context_of msg)) (or_default (co_maxRetries options) 3)
    (or_default (co_retryDelay options) 1000) ->
  on_message handler options msg w
  = (Resolved tt,
     match r with
     | Resolved _ => w1
     | Rejected _ =>
         if retryCount_of (ctx_headers (context_of msg))
            <? or_default (co_maxRetries options) 3
         then
           send (Acked (deliveryTag msg))
             (use_channel (send (Published
                (retry_frame (body msg)
                   (or_default (co_retryDelay options) 1000
                    * 2 ^ retryCount_of (ctx_headers (context_of msg)))
                   (connection_retry_headers (context_of msg)) (clock w1))) w1))
         else send (Nacked (deliveryTag msg) false) w1
     end).
Proof.
  intros Hh Hauto Hch _. destruct r as [[]|error].
  - unfold on_message, handleMessageWithRetry, try_catch. unfold bind at 1.
    by rewrite Hh, Hauto.
  - unfold on_message. unfold try_catch at 1.
    rewrite (handleMessageWithRetry_on_failure _ _ _ _ _ _ _ Hh).
    destruct (_ <? _).
    + by rewrite retry_then_ack.
    + unfold bind, throw. rewrite nack_run by lia. by rewrite Hauto.
Qed.

(** X20. Once the channel is gone, the callback of a consumer with [autoAck]
    off does not resolve: whatever the handler did, the acknowledgement, the
    retry publish or the rejection throws, and the rejection in the
    callback's own [catch] throws [TypeError] out of the callback. Nothing is
    sent. *)
Theorem consume_callback_throws_without_a_channel handler options msg w r w1 :
  handler (body msg) (context_of msg) w = (r, w1) ->
  default false (co_autoAck options) = false ->
  channel w1 = O ->
  on_message handler options msg w
  = (Rejected (TypeError "Cannot read properties of null"), w1).
Proof.
  intros Hh Hauto Hch.
  assert (Hcall : forall op, channel_call op w1
                  = (Rejected (TypeError "Cannot read properties of null"), w1))
    by (intros op; unfold channel_call; by rewrite Hch).
  unfold on_message, handleMessageWithRetry, try_catch. unfold bind at 1. rewrite Hh.
  destruct r as [[]|error]; rewrite ?Hauto.
  - unfold ack. rewrite Hcall.
    destruct (_ <? _).
    + unfold discard, bind. rewrite publish_closed by done. apply Hcall.
    + unfold bind, nack. rewrite Hcall. apply Hcall.
  - destruct (_ <? _).
    + unfold discard, bind. rewrite publish_closed by done. apply Hcall.
    + unfold bind, nack. rewrite Hcall. apply Hcall.
Qed.

End ConsumeCallback.

Lemma consume_callback_settles_the_delivery_witness :
  on_message always_fails no_consume_options (delivery_with 4 3) (quiet_world 0 2 O)
  = (Resolved tt,
     send (Nacked 4 false) (send (Nacked 4 false) (quiet_world 0 2 1%nat))).
Proof.
  apply (consume_callback_settles_the_delivery always_fails no_consume_options
           (delivery_with 4 3) (quiet_world 0 2 O)
           (Rejected (ApplicationError "card declined")) (quiet_world 0 2 1%nat));
    [reflexivity | reflexivity | simpl; lia | repeat split; vm_compute; discriminate].
Defined.

Lemma wrapped_handler_is_settled_twice_witness :
  on_message (createRetryHandler always_fails None None) (prefetch_only 1)
    (delivery_with 4 3) (quiet_world 0 2 O)
  = (Resolved tt,
     send (Acked 4) (send (Nacked 4 false) (quiet_world 0 2 1%nat))).
Proof.
  apply (wrapped_handler_is_settled_twice always_fails None None (prefetch_only 1)
           (delivery_with 4 3) (quiet_world 0 2 O)
           (Rejected (ApplicationError "card declined")) (quiet_world 0 2 1%nat));
    [reflexivity | reflexivity | simpl; lia | repeat split; vm_compute; discriminate].
Defined.

Lemma autoAck_callback_still_settles_failures_witness :
  on_message always_fails auto_ack (delivery_with 4 3) (quiet_world 0 2 O)
  = (Resolved tt, send (Nacked 4 false) (quiet_world 0 2 1%nat)).
Proof.
  apply (autoAck_callback_still_settles_failures always_fails auto_ack
           (delivery_with 4 3) (quiet_world 0 2 O)
           (Rejected (ApplicationError "card declined")) (quiet_world 0 2 1%nat));
    [reflexivity | reflexivity | simpl; lia | repeat split; vm_compute; discriminate].
Defined.

Lemma consume_callback_throws_without_a_channel_witness :
  on_message counts_calls no_consume_options (delivery_with 1 0) (quiet_world 0 0 O)
  = (Rejected (TypeError "Cannot read properties of null"), quiet_world 0 0 1%nat).
Proof.
  apply (consume_callback_throws_without_a_channel counts_calls no_consume_options
           (delivery_with 1 0) (quiet_world 0 0 O) (Resolved tt) (quiet_world 0 0 1%nat));
    reflexivity.
Defined.

(** ** rpc, further *)

Section RpcMore.

Context {P A R : Type}.
Implicit Types (t : RpcTables R) (w : World P A) (msg : Reply R).

(** X22. A reply that arrives in time: after [rpc], a message on the reply
    queue that carries the call's correlation id and parses is acknowledged,
    fulfils the promise with its body and clears the timer, so that the
    timer's callback, were it to run, changes nothing. The consumer stays on
    the reply queue: nothing cancels it. *)
Theorem rpc_reply_fulfils_and_disarms ex rk (request : P) timeout cid queue t w
    tag (response : R) :
  (2 <= channel w)%nat ->
  exists w1 t2,
    rpc ex rk request timeout cid queue (t, w)
    = (Resolved cid, (open_call cid queue (default 30000 timeout) t, w1))
    /\ reply_arrives queue
         {| reply_deliveryTag := tag; reply_correlationId := Some cid;
            reply_body := Some response |}
         (open_call cid queue (default 30000 timeout) t, w1)
       = (Resolved tt, (t2, send (Acked tag) w1))
    /\ promises t2 !! cid = Some (IsFulfilled response)
    /\ timers t2 !! cid = None
    /\ timer_fires cid t2 = t2
    /\ consumers t2 !! queue = Some cid.
Proof.
  intros Hch.
  destruct (rpc_run ex rk request timeout cid queue t w) as (f & Hrun & _); [lia|].
  eexists _, _. split; [exact Hrun|].
  unfold reply_arrives. unfold bind at 1, get. cbn [fst snd].
  unfold open_call at 1. cbn [consumers]. rewrite lookup_insert_eq.
  cbn [reply_correlationId]. rewrite decide_True by done.
  unfold bind, try_catch, on_self, on_world, modify, channel_call. cbn [fst snd].
  cbn [reply_body reply_deliveryTag].
  match goal with
  | |- context [match channel ?w1 with _ => _ end] =>
      destruct (channel w1) eqn:Hleft; [simpl in Hleft; lia|]
  end.
  cbn [fst snd].
  split; [reflexivity|].
  unfold settle, clearTimeout, open_call. cbn [promises timers consumers].
  rewrite lookup_insert_eq. cbn [promises timers consumers].
  repeat split.
  - apply lookup_insert_eq.
  - apply lookup_delete_eq.
  - unfold timer_fires. cbn [timers]. by rewrite lookup_delete_eq.
  - apply lookup_insert_eq.
Qed.

(** X23. A reply that carries the call's correlation id and cannot be
    handled rejects the promise with [Failed to parse RPC response], and is
    not acknowledged: so for a body that does not parse, and so for a body
    that parses when the channel is gone, where it is the acknowledgement
    that throws. The timer is cleared either way. *)
Theorem rpc_reply_failure_is_reported_as_parse_failure queue cid msg t w :
  consumers t !! queue = Some cid ->
  promises t !! cid = Some IsPending ->
  reply_correlationId msg = Some cid ->
  reply_body msg = None \/ channel w = O ->
  exists t2,
    reply_arrives queue msg (t, w) = (Resolved tt, (t2, w))
    /\ promises t2 !! cid
       = Some (IsRejected (MessagingError "Failed to parse RPC response"))
    /\ timers t2 !! cid = None.
Proof.
  intros Hq Hp Hid Hbad.
  unfold reply_arrives. unfold bind at 1, get. cbn [fst snd]. rewrite Hq.
  rewrite decide_True by done.
  unfold bind at 1, on_self at 1, modify at 1. cbn [fst snd].
  unfold try_catch.
  assert (Hset : promises (settle cid
                   (IsRejected (MessagingError "Failed to parse RPC response"))
                   (clearTimeout cid t)) !! cid
                 = Some (IsRejected (MessagingError "Failed to parse RPC response"))
                 /\ timers (settle cid
                      (IsRejected (MessagingError "Failed to parse RPC response"))
                      (clearTimeout cid t)) !! cid = None).
  { unfold settle, clearTimeout. cbn [promises]. rewrite Hp. cbn [promises timers].
    split; [apply lookup_insert_eq | apply lookup_delete_eq]. }
  destruct (reply_body msg) as [response|] eqn:Hb.
  - destruct Hbad as [|Hch]; [done|].
    unfold bind, on_world, on_self, modify, channel_call. cbn [fst snd].
    rewrite Hch. cbn [fst snd]. eexists. split; [reflexivity|]. exact Hset.
  - unfold throw, on_self, modify. cbn [fst snd].
    eexists. split; [reflexivity|]. exact Hset.
Qed.

End RpcMore.

Lemma rpc_reply_fulfils_and_disarms_witness :
  exists (w1 : World string unit) (t2 : RpcTables string),
    rpc "orders" "order.get" "order 42" None "c1" "q1"
      (no_tables (R:=string), quiet_world 0 2 tt)
    = (Resolved "c1", (open_call "c1" "q1" (default 30000 None) no_tables, w1))
    /\ reply_arrives "q1"
         {| reply_deliveryTag := 1%nat; reply_correlationId := Some "c1";
            reply_body := Some "shipped" |}
         (open_call "c1" "q1" (default 30000 None) no_tables, w1)
       = (Resolved tt, (t2, send (Acked 1) w1))
    /\ promises t2 !! "c1" = Some (IsFulfilled "shipped")
    /\ timers t2 !! "c1" = None
    /\ timer_fires "c1" t2 = t2
    /\ consumers t2 !! "q1" = Some "c1".
Proof.
  apply (@rpc_reply_fulfils_and_disarms string unit string). simpl. lia.
Defined.

Lemma rpc_reply_failure_is_reported_as_parse_failure_witness :
  exists t2 : RpcTables string,
    reply_arrives "q1"
      {| reply_deliveryTag := 1%nat; reply_correlationId := Some "c1";
         reply_body := Some "shipped" |}
      (open_call "c1" "q1" 30000 no_tables, quiet_world (P:=string) 0 0 tt)
    = (Resolved tt, (t2, quiet_world 0 0 tt))
    /\ promises t2 !! "c1"
       = Some (IsRejected (MessagingError "Failed to parse RPC response"))
    /\ timers t2 !! "c1" = None.
Proof.
  apply (@rpc_reply_failure_is_reported_as_parse_failure string unit string
           "q1" "c1"); [reflexivity | reflexivity | reflexivity | by right].
Defined.

(** ** Connecting and reconnecting *)

Section LifecycleFacts.

Context {H : Type}.
Variable config : LinkConfig.
Implicit Types (c : Link H) (accepted : nat -> bool).

Lemma map_set_present key (value : H) entries :
  NoDup entries.*1 -> (key, value) ∈ entries -> map_set key value entries = entries.
Proof.
  induction entries as [|[key' value'] rest IH]; intros Hnd Hin.
  - by apply elem_of_nil in Hin.
  - simpl. simpl in Hnd. apply NoDup_cons in Hnd as [Hfresh Hnd].
    apply elem_of_cons in Hin as [Heq|Hin].
    + injection Heq as -> ->. by rewrite decide_True.
    + destruct (decide (key = key')) as [->|Hne].
      * exfalso. apply Hfresh. apply list_elem_of_fmap. by exists (key', value).
      * by rewrite IH.
Qed.

Lemma consume_restores ch c entry :
  conn_channel c = Some ch ->
  NoDup (conn_consumers c).*1 ->
  entry ∈ conn_consumers c ->
  consume (fst entry) (snd entry) no_consume_options c
  = (Resolved tt, add_subscriptions [restored ch entry] c).
Proof.
  intros Hch Hnd Hin. unfold consume. rewrite Hch.
  rewrite map_set_present by (try done; by destruct entry).
  unfold add_subscriptions, restored. by rewrite Hch.
Qed.

Lemma restore_loop ch todo c :
  conn_channel c = Some ch ->
  NoDup (conn_consumers c).*1 ->
  todo ⊆ conn_consumers c ->
  for_of todo (fun entry => consume (fst entry) (snd entry) no_consume_options) c
  = (Resolved tt, add_subscriptions (map (restored ch) todo) c).
Proof.
  revert c. induction todo as [|entry todo IH]; intros c Hch Hnd Hsub.
  - simpl. unfold ret, add_subscriptions. simpl. rewrite app_nil_r. by destruct c.
  - simpl. unfold bind.
    rewrite (consume_restores ch) by (try done; apply Hsub; left).
    rewrite IH; try done.
    + unfold add_subscriptions. simpl. by rewrite <- app_assoc.
    + intros x Hx. simpl. apply Hsub. by right.
Qed.

Lemma attempt_refused accepted c :
  conn_isConnecting c = false ->
  accepted (conn_dials c) = false ->
  connect_and_restore accepted
    (sleep (or_default (cfg_reconnectInterval config) 5000)
       (set_reconnectAttempts (conn_reconnectAttempts c + 1) c))
  = (Rejected (MessagingError "Failed to connect to RabbitMQ"),
     after_refusals config 1 c).
Proof.
  intros Hidle Hno. unfold connect_and_restore, bind, connect. simpl.
  rewrite Hidle, Hno. unfold after_refusals, set_isConnecting, dial. simpl.
  rewrite Hidle. do 2 f_equal. lia.
Qed.

Lemma attempt_accepted accepted c :
  conn_isConnecting c = false ->
  accepted (conn_dials c) = true ->
  NoDup (conn_consumers c).*1 ->
  connect_and_restore accepted
    (sleep (or_default (cfg_reconnectInterval config) 5000)
       (set_reconnectAttempts (conn_reconnectAttempts c + 1) c))
  = (Resolved tt, connected_link config c).
Proof.
  intros Hidle Hyes Hnd. unfold connect_and_restore. unfold bind at 1.
  unfold connect. simpl. rewrite Hidle, Hyes. unfold bind, get.
  rewrite (restore_loop (conn_dials c)); done.
Qed.

Lemma after_refusals_more n m c :
  after_refusals config m (after_refusals config n c) = after_refusals config (n + m) c.
Proof.
  unfold after_refusals. simpl. f_equal; [lia | | lia].
  by rewrite <- app_assoc, replicate_add.
Qed.

(** [n] refused attempts, one after the other. *)
Lemma reconnect_refused accepted n fuel c :
  conn_isConnecting c = false ->
  conn_reconnectAttempts c + Z.of_nat n <= or_default (cfg_maxReconnectAttempts config) 10 ->
  (forall i, (i < n)%nat -> accepted (conn_dials c + i)%nat = false) ->
  reconnect config accepted (n + fuel) c
  = reconnect config accepted fuel (after_refusals config n c).
Proof.
  revert c. induction n as [|n IH]; intros c Hidle Hmax Hno.
  - simpl. f_equal. unfold after_refusals. simpl. destruct c; simpl.
    f_equal; [lia | by rewrite app_nil_r | lia].
  - change (S n + fuel)%nat with (S (n + fuel)). simpl reconnect. rewrite Hidle.
    destruct (Z.leb_spec (or_default (cfg_maxReconnectAttempts config) 10)
                (conn_reconnectAttempts c)); [lia|]. simpl orb. cbv iota.
    rewrite attempt_refused; [|done|].
    2:{ specialize (Hno O). rewrite Nat.add_0_r in Hno. apply Hno. lia. }
    rewrite IH.
    + by rewrite after_refusals_more.
    + done.
    + simpl. lia.
    + intros i Hi. simpl. replace (conn_dials c + 1 + i)%nat with (conn_dials c + S i)%nat by lia.
      apply Hno. lia.
Qed.

Lemma reconnect_spent accepted fuel c :
  or_default (cfg_maxReconnectAttempts config) 10 <= conn_reconnectAttempts c ->
  reconnect config accepted fuel c = Some (Resolved tt, c).
Proof.
  intros Hmax. destruct fuel; simpl;
    rewrite (proj2 (Z.leb_le _ _) Hmax), orb_true_r; reflexivity.
Qed.

Lemma reconnect_run accepted k fuel c :
  conn_isConnecting c = false ->
  NoDup (conn_consumers c).*1 ->
  conn_reconnectAttempts c + Z.of_nat k < or_default (cfg_maxReconnectAttempts config) 10 ->
  (forall i, (i < k)%nat -> accepted (conn_dials c + i)%nat = false) ->
  accepted (conn_dials c + k)%nat = true ->
  reconnect config accepted (k + S fuel) c
  = Some (Resolved tt, connected_link config (after_refusals config k c)).
Proof.
  intros Hidle Hnd Hmax Hno Hyes.
  rewrite reconnect_refused by (try done; lia).
  simpl reconnect. rewrite Hidle.
  destruct (Z.leb_spec (or_default (cfg_maxReconnectAttempts config) 10)
              (conn_reconnectAttempts c + Z.of_nat k)); [lia|]. simpl orb. cbv iota.
  change (conn_reconnectAttempts c + Z.of_nat k)
    with (conn_reconnectAttempts (after_refusals config k c)).
  by rewrite attempt_accepted.
Qed.

(** X24. When the broker refuses every attempt, [reconnect] tries until
    [reconnectAttempts] reaches [maxReconnectAttempts] (10 when that is
    missing or 0), waiting [reconnectInterval] before each attempt, and then
    returns as if all were well: it throws nothing and emits no event. From
    then on [reconnect] does nothing at all, also when the broker would
    accept: the counter is only reset by a [connect] that succeeds. *)
Theorem reconnect_gives_up_silently accepted fuel c :
  conn_isConnecting c = false ->
  (forall i, accepted (conn_dials c + i)%nat = false) ->
  (Z.to_nat (or_default (cfg_maxReconnectAttempts config) 10 - conn_reconnectAttempts c)
   <= fuel)%nat ->
  exists c',
    reconnect config accepted fuel c = Some (Resolved tt, c')
    /\ conn_emitted c' = conn_emitted c
    /\ conn_connection c' = conn_connection c
    /\ conn_channel c' = conn_channel c
    /\ conn_slept c'
       = conn_slept c
         ++ replicate
              (Z.to_nat (or_default (cfg_maxReconnectAttempts config) 10
                         - conn_reconnectAttempts c))
              (or_default (cfg_reconnectInterval config) 5000)
    /\ (forall accepted' fuel',
          reconnect config accepted' fuel' c' = Some (Resolved tt, c')).
Proof.
  intros Hidle Hno Hfuel.
  set (n := Z.to_nat (or_default (cfg_maxReconnectAttempts config) 10
                      - conn_reconnectAttempts c)) in *.
  exists (after_refusals config n c).
  replace fuel with (n + (fuel - n))%nat by lia.
  destruct (Z.le_gt_cases (conn_reconnectAttempts c)
              (or_default (cfg_maxReconnectAttempts config) 10)) as [Hle|Hgt].
  - rewrite reconnect_refused by (try done; lia).
    rewrite reconnect_spent by (simpl; lia).
    repeat split. intros accepted' fuel'. apply reconnect_spent. simpl. lia.
  - assert (Hn : n = O) by lia. rewrite Hn. simpl.
    assert (Hc : after_refusals config 0 c = c).
    { unfold after_refusals. destruct c; simpl. f_equal; [lia | by rewrite app_nil_r | lia]. }
    rewrite Hc. rewrite reconnect_spent by lia.
    repeat split. intros accepted' fuel'. apply reconnect_spent. lia.
Qed.

(** X25. When an attempt is accepted, after [k] that were refused,
    [reconnect] returns with the link up, the counter back at 0 and the
    event [connected] emitted once, and has subscribed every entry of
    [this.consumers] on the new channel with the options [{}]: the options
    a consumer was first registered with are not kept. *)
Theorem reconnect_restores_consumers_without_their_options accepted k fuel c :
  conn_isConnecting c = false ->
  NoDup (conn_consumers c).*1 ->
  conn_reconnectAttempts c + Z.of_nat k < or_default (cfg_maxReconnectAttempts config) 10 ->
  (forall i, (i < k)%nat -> accepted (conn_dials c + i)%nat = false) ->
  accepted (conn_dials c + k)%nat = true ->
  (k < fuel)%nat ->
  exists c',
    reconnect config accepted fuel c = Some (Resolved tt, c')
    /\ isConnected c' = true
    /\ conn_reconnectAttempts c' = 0
    /\ conn_consumers c' = conn_consumers c
    /\ conn_subscriptions c'
       = conn_subscriptions c
         ++ map (fun entry =>
                   {| sub_channel := (conn_dials c + k)%nat; sub_queue := fst entry;
                      sub_handler := snd entry; sub_options := no_consume_options |})
              (conn_consumers c)
    /\ conn_emitted c' = conn_emitted c ++ [EvConnected]
    /\ conn_slept c'
       = conn_slept c ++ replicate (S k) (or_default (cfg_reconnectInterval config) 5000).
Proof.
  intros Hidle Hnd Hmax Hno Hyes Hfuel.
  exists (connected_link config (after_refusals config k c)).
  replace fuel with (k + S (fuel - S k))%nat by lia.
  rewrite reconnect_run by done.
  repeat split. simpl. rewrite <- app_assoc. f_equal. symmetry.
  apply replicate_cons_app.
Qed.

(** X26. [disconnect] leaves nothing behind that tells a later close event
    it was asked for: when [handleConnectionClose] runs after [disconnect]
    and the broker accepts, the link is up again, with the consumers
    subscribed anew; [disconnected] has been emitted twice. *)
Theorem disconnect_does_not_stop_reconnection accepted fuel c :
  conn_isConnecting c = false ->
  NoDup (conn_consumers c).*1 ->
  conn_reconnectAttempts c < or_default (cfg_maxReconnectAttempts config) 10 ->
  accepted (conn_dials c) = true ->
  (0 < fuel)%nat ->
  exists c',
    handleConnectionClose config accepted fuel (snd (disconnect c))
    = Some (Resolved tt, c')
    /\ isConnected (snd (disconnect c)) = false
    /\ isConnected c' = true
    /\ conn_emitted c' = conn_emitted c ++ [EvDisconnected; EvDisconnected; EvConnected]
    /\ conn_subscriptions c'
       = conn_subscriptions c
         ++ map (fun entry =>
                   {| sub_channel := conn_dials c; sub_queue := fst entry;
                      sub_handler := snd entry; sub_options := no_consume_options |})
              (conn_consumers c).
Proof.
  intros Hidle Hnd Hmax Hyes Hfuel. unfold handleConnectionClose, disconnect.
  cbn [snd].
  eexists. split.
  - replace fuel with (0 + S (fuel - 1))%nat by lia.
    apply reconnect_run; simpl; try done; try lia.
    by rewrite Nat.add_0_r.
  - repeat split; simpl.
    + rewrite <- !app_assoc. reflexivity.
    + by rewrite Nat.add_0_r.
Qed.

(** X27. A consumer asked for while the channel is down is refused and not
    recorded, so a later reconnect does not bring it up: none of the
    subscriptions the restore loop makes is on its queue. *)
Theorem consumer_refused_while_down_is_not_restored accepted fuel c queue (handler : H)
    options :
  conn_channel c = None ->
  queue ∉ (conn_consumers c).*1 ->
  conn_isConnecting c = false ->
  NoDup (conn_consumers c).*1 ->
  conn_reconnectAttempts c < or_default (cfg_maxReconnectAttempts config) 10 ->
  accepted (conn_dials c) = true ->
  (0 < fuel)%nat ->
  consume queue handler options c
  = (Rejected (MessagingError "No active channel available"), c)
  /\ exists c',
       reconnect config accepted fuel c = Some (Resolved tt, c')
       /\ isConnected c' = true
       /\ Forall (fun s => sub_queue s ≠ queue)
            (drop (length (conn_subscriptions c)) (conn_subscriptions c')).
Proof.
  intros Hdown Hnew Hidle Hnd Hmax Hyes Hfuel. split.
  - unfold consume. by rewrite Hdown.
  - eexists. split.
    + replace fuel with (0 + S (fuel - 1))%nat by lia.
      apply reconnect_run; simpl; try done; try lia.
      by rewrite Nat.add_0_r.
    + split; [done|]. simpl. rewrite drop_app_length.
      apply Forall_forall. intros s Hs.
      apply list_elem_of_fmap in Hs as (entry & -> & Hin). simpl.
      intros Heq. apply Hnew. apply list_elem_of_fmap. by exists entry.
Qed.

End LifecycleFacts.

Lemma reconnect_gives_up_silently_witness :
  exists c' : Link string,
    reconnect default_config (fun _ => false) 10 new_link = Some (Resolved tt, c')
    /\ conn_emitted c' = []
    /\ conn_slept c' = replicate 10 5000
    /\ reconnect default_config (fun _ => true) 1 c' = Some (Resolved tt, c').
Proof.
  destruct (@reconnect_gives_up_silently string default_config (fun _ => false) 10%nat
              new_link) as (c' & run & quiet & _ & _ & waits & spent);
    [reflexivity | reflexivity | vm_compute; lia |].
  exists c'. repeat split; [exact run | exact quiet | exact waits | apply spent].
Defined.

Lemma reconnect_restores_consumers_without_their_options_witness :
  exists c' : Link string,
    reconnect default_config flaky 5
      (emit EvDisconnected (set_link None None link_with_consumer))
    = Some (Resolved tt, c')
    /\ conn_subscriptions c'
       = [ {| sub_channel := 0; sub_queue := "orders"; sub_handler := "onOrder";
              sub_options := auto_ack |};
           {| sub_channel := 2; sub_queue := "orders"; sub_handler := "onOrder";
              sub_options := no_consume_options |} ]
    /\ conn_slept c' = [5000; 5000].
Proof.
  destruct (@reconnect_restores_consumers_without_their_options string default_config
              flaky 1%nat 5%nat
              (emit EvDisconnected (set_link None None link_with_consumer)))
    as (c' & run & _ & _ & _ & subs & _ & waits);
    [reflexivity | vm_compute; repeat constructor; set_solver | vm_compute; reflexivity
    | intros [|i] Hi; [reflexivity | lia] | reflexivity | lia |].
  exists c'. repeat split; [exact run | exact subs | exact waits].
Defined.

Lemma disconnect_does_not_stop_reconnection_witness :
  exists c' : Link string,
    handleConnectionClose default_config (fun _ => true) 1
      (snd (disconnect link_with_consumer))
    = Some (Resolved tt, c')
    /\ isConnected c' = true
    /\ conn_emitted c' = [EvConnected; EvDisconnected; EvDisconnected; EvConnected].
Proof.
  destruct (@disconnect_does_not_stop_reconnection string default_config (fun _ => true)
              1%nat link_with_consumer) as (c' & run & _ & up & events & _);
    [reflexivity | vm_compute; repeat constructor; set_solver | vm_compute; reflexivity
    | reflexivity | lia |].
  exists c'. repeat split; [exact run | exact up | exact events].
Defined.

Lemma consumer_refused_while_down_is_not_restored_witness :
  consume "orders" "onOrder" auto_ack (new_link (H:=string))
  = (Rejected (MessagingError "No active channel available"), new_link)
  /\ exists c' : Link string,
       reconnect default_config (fun _ => true) 1 new_link = Some (Resolved tt, c')
       /\ isConnected c' = true
       /\ Forall (fun s => sub_queue s ≠ "orders")
            (drop (length (conn_subscriptions (new_link (H:=string))))
               (conn_subscriptions c')).
Proof.
  apply (@consumer_refused_while_down_is_not_restored string default_config
           (fun _ => true) 1%nat new_link "orders" "onOrder" auto_ack);
    [reflexivity | set_solver | reflexivity | constructor | vm_compute; reflexivity
    | reflexivity | lia].
Defined.

(** ** Where the frames go *)

Section PublishesOnlyFacts.

Context {P A : Type}.
Implicit Types (Q : Frame P -> Prop).

Lemma publishes_only_ret {S X} (wire_of : S -> list (ChannelOp P)) Q (x : X) :
  publishes_only wire_of Q (ret x).
Proof. intros s. exists []. simpl. by rewrite app_nil_r. Qed.

Lemma publishes_only_throw {S X} (wire_of : S -> list (ChannelOp P)) Q error :
  publishes_only wire_of Q (throw error : M S X).
Proof. intros s. exists []. simpl. by rewrite app_nil_r. Qed.

Lemma publishes_only_bind {S X Y} (wire_of : S -> list (ChannelOp P)) Q
    (m : M S X) (k : X -> M S Y) :
  publishes_only wire_of Q m ->
  (forall x, publishes_only wire_of Q (k x)) ->
  publishes_only wire_of Q (bind m k).
Proof.
  intros Hm Hk s. unfold bind. destruct (Hm s) as (ops & Hops & HQ).
  destruct (m s) as [[x|error] s1]; simpl in Hops.
  - destruct (Hk x s1) as (ops' & Hops' & HQ'). exists (ops ++ ops').
    rewrite Hops', Hops, <- app_assoc. split; [done|].
    unfold frames_of. rewrite omap_app. by apply Forall_app.
  - by exists ops.
Qed.

Lemma publishes_only_get {S X} (wire_of : S -> list (ChannelOp P)) Q (k : S -> M S X) :
  (forall self, publishes_only wire_of Q (k self)) ->
  publishes_only wire_of Q (bind get k).
Proof. intros Hk s. unfold bind, get. apply Hk. Qed.

Lemma publishes_only_try_catch {S X} (wire_of : S -> list (ChannelOp P)) Q
    (m : M S X) (handler : Error -> M S X) :
  publishes_only wire_of Q m ->
  (forall error, publishes_only wire_of Q (handler error)) ->
  publishes_only wire_of Q (try_catch m handler).
Proof.
  intros Hm Hk s. unfold try_catch. destruct (Hm s) as (ops & Hops & HQ).
  destruct (m s) as [[x|error] s1]; simpl in Hops.
  - by exists ops.
  - destruct (Hk error s1) as (ops' & Hops' & HQ'). exists (ops ++ ops').
    rewrite Hops', Hops, <- app_assoc. split; [done|].
    unfold frames_of. rewrite omap_app. by apply Forall_app.
Qed.

Lemma publishes_only_for_of {S X} (wire_of : S -> list (ChannelOp P)) Q
    (xs : list X) (body : X -> M S unit) :
  (forall x, publishes_only wire_of Q (body x)) ->
  publishes_only wire_of Q (for_of xs body).
Proof.
  intros Hbody. induction xs as [|x xs IH]; simpl.
  - apply publishes_only_ret.
  - apply publishes_only_bind; [apply Hbody | intros _; apply IH].
Qed.

Lemma publishes_only_discard {S X} (wire_of : S -> list (ChannelOp P)) Q (m : M S X) :
  publishes_only wire_of Q m -> publishes_only wire_of Q (discard m).
Proof.
  intros Hm. unfold discard. apply publishes_only_bind; [done|].
  intros x. apply publishes_only_ret.
Qed.

Lemma publishes_only_on_world {S1 X} Q (m : M (World P A) X) :
  publishes_only wire Q m ->
  publishes_only (fun s : S1 * World P A => wire (snd s)) Q (on_world m).
Proof.
  intros Hm s. unfold on_world. destruct (Hm (snd s)) as (ops & Hops & HQ).
  exists ops. by destruct (m (snd s)).
Qed.

Lemma publishes_only_on_self {S1 X} Q (m : M S1 X) :
  publishes_only (fun s : S1 * World P A => wire (snd s)) Q (on_self m).
Proof.
  intros s. unfold on_self. exists []. destruct (m (fst s)). simpl.
  by rewrite app_nil_r.
Qed.

Lemma publishes_only_channel_call Q (op : ChannelOp P) :
  frames_of [op] = [] ->
  publishes_only wire Q (channel_call (A:=A) op).
Proof.
  intros Hop w. unfold channel_call. destruct (channel w).
  - exists []. simpl. by rewrite app_nil_r.
  - exists [op]. simpl. split; [done|]. unfold frames_of in *. simpl in *.
    by rewrite Hop.
Qed.

Lemma publishes_only_publish ex rk (message : P) options :
  publishes_only wire (fun f => exchange f = ex \/ exchange f = "delayed")
    (publish (A:=A) ex rk message options).
Proof.
  intros w. destruct (channel w) eqn:Hch.
  - rewrite publish_closed by done. exists []. simpl. by rewrite app_nil_r.
  - eexists [Published _]. rewrite publish_sends by lia. simpl.
    split; [reflexivity|]. apply Forall_cons. split; [|constructor].
    simpl. destruct (negb _); auto.
Qed.

Lemma publishes_only_publish_plain ex rk (message : P) :
  publishes_only wire (fun f => exchange f = ex)
    (publish (A:=A) ex rk message no_options).
Proof.
  intros w. destruct (channel w) eqn:Hch.
  - rewrite publish_closed by done. exists []. simpl. by rewrite app_nil_r.
  - eexists [Published _]. rewrite publish_plain by lia. simpl.
    split; [reflexivity|]. apply Forall_cons. split; [done|constructor].
Qed.

Lemma publishes_only_weaken {S X} (wire_of : S -> list (ChannelOp P)) Q Q' (m : M S X) :
  (forall f, Q f -> Q' f) ->
  publishes_only wire_of Q m -> publishes_only wire_of Q' m.
Proof.
  intros HQ Hm s. destruct (Hm s) as (ops & Hops & Hall).
  exists ops. split; [done|]. by eapply Forall_impl.
Qed.

Lemma publishes_only_app_handler Q h message context :
  publishes_only wire Q (app_handler (P:=P) (A:=A) h message context).
Proof.
  intros w. exists []. rewrite app_nil_r.
  split; [apply app_handler_world | constructor].
Qed.

End PublishesOnlyFacts.

Section Topology.

Context {P A : Type}.

Lemma retry_exchanges_have_no_binding (f : Frame P) :
  exchange f = "retry" \/ exchange f = "delayed" ->
  (exchange f = "retry" \/ exchange f = "delayed")
  /\ queues_bound_to (exchange f) (setupInfrastructure true) = [].
Proof. intros Hex. split; [done|]. by destruct Hex as [-> | ->]. Qed.

(** X28. Nothing is bound to the exchanges the retry paths publish to.
    Whatever frame [createRetryHandler] or [handleMessageWithRetry] puts on
    the channel, around a handler that publishes nothing itself, goes to the
    exchange [retry] or to the exchange [delayed], and on neither does
    [setupInfrastructure] bind a queue. *)
Theorem retry_frames_are_bound_to_no_queue
    (h : P -> MessageContext -> A -> Outcome unit * A) maxRetries baseDelay options
    message context :
  publishes_only wire
    (fun f => (exchange f = "retry" \/ exchange f = "delayed")
              /\ queues_bound_to (exchange f) (setupInfrastructure true) = [])
    (createRetryHandler (app_handler h) maxRetries baseDelay message context)
  /\ publishes_only wire
       (fun f => (exchange f = "retry" \/ exchange f = "delayed")
                 /\ queues_bound_to (exchange f) (setupInfrastructure true) = [])
       (handleMessageWithRetry message context (app_handler h) options)
  /\ queues_bound_to "retry" (setupInfrastructure true) = []
  /\ queues_bound_to "delayed" (setupInfrastructure true) = [].
Proof.
  assert (Hpub : forall delay given,
    publishes_only wire
      (fun f : Frame P =>
         (exchange f = "retry" \/ exchange f = "delayed")
         /\ queues_bound_to (exchange f) (setupInfrastructure true) = [])
      (discard (publish (A:=A) "retry" "retry" message (retry_options delay given)) >>>
       ack context)).
  { intros delay given. apply publishes_only_bind.
    - apply publishes_only_discard.
      eapply publishes_only_weaken; [|apply publishes_only_publish].
      apply retry_exchanges_have_no_binding.
    - intros _. by apply publishes_only_channel_call. }
  split; [|split; [|by split]].
  - unfold createRetryHandler. apply publishes_only_try_catch.
    + apply publishes_only_app_handler.
    + intros error. destruct (_ <? _); [apply Hpub|].
      by apply publishes_only_channel_call.
  - unfold handleMessageWithRetry. apply publishes_only_try_catch.
    + apply publishes_only_bind; [apply publishes_only_app_handler|].
      intros _. destruct (default false _); [apply publishes_only_ret|].
      by apply publishes_only_channel_call.
    + intros error. destruct (_ <? _); [apply Hpub|].
      apply publishes_only_bind; [by apply publishes_only_channel_call|].
      intros _. apply publishes_only_throw.
Qed.

End Topology.

Section SagaTopology.

Context {D A : Type}.

(** X29. Every frame the orchestrator publishes, from [startSaga],
    [handleStepComplete] or [handleStepFailed], in any state, goes to the
    exchange [saga], and [saga] is not among the exchanges
    [setupInfrastructure] declares. *)
Theorem saga_events_go_to_an_exchange_never_declared :
  (forall sagaId steps (initialData : D),
     publishes_only (fun s : gmap string (list string) * World (SagaMessage D) A => wire (snd s))
       (fun f => exchange f = "saga") (startSaga sagaId steps initialData))
  /\ (forall sagaId completedStep (result : D),
        publishes_only (fun s : gmap string (list string) * World (SagaMessage D) A => wire (snd s))
          (fun f => exchange f = "saga") (handleStepComplete sagaId completedStep result))
  /\ (forall sagaId failedStep (error : D),
        publishes_only (fun s : gmap string (list string) * World (SagaMessage D) A => wire (snd s))
          (fun f => exchange f = "saga") (handleStepFailed sagaId failedStep error))
  /\ "saga" ∉ exchanges_declared (setupInfrastructure true).
Proof.
  assert (Hpub : forall rk (message : SagaMessage D),
    publishes_only (fun s : gmap string (list string) * World (SagaMessage D) A => wire (snd s))
      (fun f => exchange f = "saga")
      (discard (on_world (publish "saga" rk message no_options)))).
  { intros rk message. apply publishes_only_discard, publishes_only_on_world,
      publishes_only_publish_plain. }
  repeat split.
  - intros sagaId steps initialData. unfold startSaga.
    apply publishes_only_bind; [apply publishes_only_on_self | intros _; apply Hpub].
  - intros sagaId completedStep result. unfold handleStepComplete.
    apply publishes_only_get. intros self.
    destruct (fst self !! sagaId) as [steps|]; [|by apply publishes_only_ret].
    destruct (indexOf completedStep steps) as [stepIndex|];
      [|by apply publishes_only_ret].
    destruct (drop (S stepIndex) steps) as [|nextStep rest].
    + apply publishes_only_bind; [apply publishes_only_on_self | intros _; apply Hpub].
    + apply Hpub.
  - intros sagaId failedStep error. unfold handleStepFailed.
    apply publishes_only_get. intros self.
    destruct (fst self !! sagaId) as [steps|]; [|by apply publishes_only_ret].
    destruct (indexOf failedStep steps) as [stepIndex|];
      [|by apply publishes_only_ret].
    apply publishes_only_bind.
    + apply publishes_only_for_of. intros step. apply Hpub.
    + intros _. apply publishes_only_bind;
        [apply publishes_only_on_self | intros _; apply Hpub].
  - vm_compute. intros Hin.
    repeat (apply elem_of_cons in Hin as [Hin|Hin]; [discriminate Hin|]).
    by apply elem_of_nil in Hin.
Qed.

End SagaTopology.
